(** * Maze generator and breadth-first solver (lab3/lab3_version3.py)

    A shallow embedding of the [Maze] class and of [main]: the constructor,
    the randomized depth-first carving of [generate_maze], the breadth-first
    search of [solve_sequential] and the rendering of [visualize], followed
    by the properties of the design document that concern them and by
    further properties of the same methods. *)

From stdpp Require Import base numbers option list gmap sorting relations.
From Stdlib Require Import ZArith Lia Permutation.

Local Open Scope Z_scope.

(** ** Exceptions and results *)

(** [IndexError] is what Python raises on a list index out of range.
    [InvalidDimensions] is the error the design document names for undersized
    mazes; no statement of the program raises it. *)
Inductive exn := IndexError | InvalidDimensions.

(** The outcome of running a method: a value, an exception, or the loop
    budget of the embedding used up before the method returned. *)
Inductive result (A : Type) :=
  | Ok (a : A)
  | Raise (e : exn)
  | OutOfFuel.
Arguments Ok {A} a.
Arguments Raise {A} e.
Arguments OutOfFuel {A}.

#[global] Instance result_ret : MRet result := @Ok.
#[global] Instance result_bind : MBind result := λ A B k r,
  match r with
  | Ok a => k a
  | Raise e => Raise e
  | OutOfFuel => OutOfFuel
  end.

(** [for x in l: s = body(s, x)], stopping at the first exception. *)
Fixpoint for_each {A S : Type} (body : S → A → result S) (l : list A) (s : S)
  : result S :=
  match l with
  | [] => Ok s
  | x :: l' => s' ← body s x; for_each body l' s'
  end.

(** ** Python lists *)

(** A Python index [i] into a list of length [len]: negative indices count
    from the end, anything outside [-len, len) is an error. *)
Definition norm_index (len : nat) (i : Z) : option nat :=
  if 0 <=? i then
    if i <? Z.of_nat len then Some (Z.to_nat i) else None
  else
    if 0 <=? Z.of_nat len + i then Some (Z.to_nat (Z.of_nat len + i)) else None.

(** [l[i]] *)
Definition getitem {A : Type} (l : list A) (i : Z) : result A :=
  match norm_index (length l) i with
  | Some n => match l !! n with Some x => Ok x | None => Raise IndexError end
  | None => Raise IndexError
  end.

(** [l[i] = x] *)
Definition setitem {A : Type} (l : list A) (i : Z) (x : A) : result (list A) :=
  match norm_index (length l) i with
  | Some n => Ok (<[n:=x]> l)
  | None => Raise IndexError
  end.

(** ** The maze *)

Abbreviation pos := (Z * Z)%type.
Abbreviation grid := (list (list Z)).

(** Cell values, as in the class docstring and in [visualize]. *)
Definition Wall : Z := -1.
Definition Passage : Z := 0.
Definition Visited : Z := 2.
Definition OnPath : Z := 3.

Record Maze := mkMaze {
  width : Z;
  height : Z;
  maze : grid;
  start_pos : pos;
  end_pos : pos
}.

(** [g[x][y]] *)
Definition grid_get (g : grid) (x y : Z) : result Z :=
  row ← getitem g x; getitem row y.

(** [g[x][y] = v]: the row object is updated in place. *)
Definition grid_set (g : grid) (x y : Z) (v : Z) : result grid :=
  row ← getitem g x; row' ← setitem row y v; setitem g x row'.

(** [Maze.__init__]: no check on the dimensions; [range] of a negative
    number is empty. *)
Definition __init__ (w h : Z) : result Maze :=
  Ok {| width := w;
        height := h;
        maze := replicate (Z.to_nat h) (replicate (Z.to_nat w) (-1));
        start_pos := (0, 0);
        end_pos := (h - 1, w - 1) |}.

(** ** [solve_sequential] *)

Record bfs_state := mkBfs {
  b_maze : grid;
  b_queue : list pos;
  b_visited : gmap pos (option pos)
}.

(** The body of the [for dx, dy in directions] loop of the search. *)
Definition visit (h w : Z) (current : pos) (st : bfs_state) (d : Z * Z)
  : result bfs_state :=
  let nx := current.1 + d.1 in
  let ny := current.2 + d.2 in
  if (0 <=? nx) && (nx <? h) && (0 <=? ny) && (ny <? w) then
    c ← grid_get (b_maze st) nx ny;
    if (c =? 0) && bool_decide (b_visited st !! (nx, ny) = None) then
      g' ← grid_set (b_maze st) nx ny 2;
      Ok {| b_maze := g';
            b_queue := b_queue st ++ [(nx, ny)];
            b_visited := <[(nx, ny) := Some current]> (b_visited st) |}
    else Ok st
  else Ok st.

Definition solve_directions : list (Z * Z) := [(0, 1); (1, 0); (0, -1); (-1, 0)].

(** The [while queue] loop; the result is the state at loop exit. *)
Fixpoint bfs_loop (fuel : nat) (h w : Z) (e : pos) (st : bfs_state)
  : result bfs_state :=
  match fuel with
  | O => OutOfFuel
  | S fuel' =>
    match b_queue st with
    | [] => Ok st
    | current :: q =>
      let st0 := {| b_maze := b_maze st; b_queue := q;
                    b_visited := b_visited st |} in
      if decide (current = e) then Ok st0
      else
        st' ← for_each (visit h w current) solve_directions st0;
        bfs_loop fuel' h w e st'
    end
  end.

(** [visited.get(current)] *)
Definition dict_get (visited : gmap pos (option pos)) (k : pos) : option pos :=
  match visited !! k with
  | Some v => v
  | None => None
  end.

(** The [while current] loop: a tuple is true, [None] is false. *)
Fixpoint reconstruct (fuel : nat) (visited : gmap pos (option pos))
    (current : option pos) (path : list pos) : result (list pos) :=
  match fuel with
  | O => OutOfFuel
  | S fuel' =>
    match current with
    | None => Ok path
    | Some c => reconstruct fuel' visited (dict_get visited c) (path ++ [c])
    end
  end.

(** The body of the [for x, y in path] loop. *)
Definition mark (s e : pos) (g : grid) (p : pos) : result grid :=
  if bool_decide (p ≠ s) && bool_decide (p ≠ e) then grid_set g p.1 p.2 3
  else Ok g.

Definition solve_sequential (fuel : nat) (m : Maze) : result (Maze * list pos) :=
  st ← bfs_loop fuel (height m) (width m) (end_pos m)
         {| b_maze := maze m;
            b_queue := [start_pos m];
            b_visited := {[ start_pos m := None ]} |};
  path ← reconstruct fuel (b_visited st) (Some (end_pos m)) [];
  g ← for_each (mark (start_pos m) (end_pos m)) path (b_maze st);
  Ok ({| width := width m; height := height m; maze := g;
         start_pos := start_pos m; end_pos := end_pos m |},
      reverse path).

(** ** [generate_maze] *)

Definition carve_directions : list (Z * Z) := [(0, 2); (2, 0); (0, -2); (-2, 0)].

Section Generator.
(** The random source: [random.shuffle] returns a rearrangement of its
    argument and advances the generator. *)
Context {rng : Type}.
Variable shuffle : rng → list (Z * Z) → list (Z * Z) * rng.

Record gen_state := mkGen {
  g_maze : grid;
  g_stack : list pos;
  g_dirs : list (Z * Z);
  g_rng : rng
}.

(** The body of the [for dx, dy in directions] loop of the carving. *)
Definition scan (h w : Z) (g : grid) (current : pos)
    (neighbors : list (Z * Z * Z * Z)) (d : Z * Z)
  : result (list (Z * Z * Z * Z)) :=
  let nx := current.1 + d.1 in
  let ny := current.2 + d.2 in
  if (0 <? nx) && (nx <? h - 1) && (0 <? ny) && (ny <? w - 1) then
    c ← grid_get g nx ny;
    if c =? -1 then Ok (neighbors ++ [(nx, ny, d.1 `div` 2, d.2 `div` 2)])
    else Ok neighbors
  else Ok neighbors.

(** One iteration of [while stack]; [None] when the stack is empty. *)
Definition carve_step (h w : Z) (st : gen_state) : result (option gen_state) :=
  match last (g_stack st) with
  | None => Ok None
  | Some current =>
    let '(dirs, r) := shuffle (g_rng st) (g_dirs st) in
    neighbors ← for_each (scan h w (g_maze st) current) dirs [];
    match neighbors with
    | (next_x, next_y, wall_x, wall_y) :: _ =>
      g1 ← grid_set (g_maze st) (current.1 + wall_x) (current.2 + wall_y) 0;
      g2 ← grid_set g1 next_x next_y 0;
      Ok (Some {| g_maze := g2;
                  g_stack := g_stack st ++ [(next_x, next_y)];
                  g_dirs := dirs; g_rng := r |})
    | [] =>
      Ok (Some {| g_maze := g_maze st;
                  g_stack := removelast (g_stack st);
                  g_dirs := dirs; g_rng := r |})
    end
  end.

Fixpoint carve_loop (fuel : nat) (h w : Z) (st : gen_state) : result gen_state :=
  match fuel with
  | O => OutOfFuel
  | S fuel' =>
    r ← carve_step h w st;
    match r with
    | None => Ok st
    | Some st' => carve_loop fuel' h w st'
    end
  end.

(** The two nested [for] loops that reset the grid. *)
Definition reset_row (w : Z) (g : grid) (i : Z) : result grid :=
  for_each (λ g' j, grid_set g' i j (-1)) (seqZ 0 w) g.

Definition generate_maze (fuel : nat) (m : Maze) (r : rng) : result (Maze * rng) :=
  g0 ← for_each (reset_row (width m)) (seqZ 0 (height m)) (maze m);
  g1 ← grid_set g0 1 1 0;
  st ← carve_loop fuel (height m) (width m)
         {| g_maze := g1; g_stack := [(1, 1)];
            g_dirs := carve_directions; g_rng := r |};
  let s : pos := (0, 1) in
  let e : pos := (height m - 1, width m - 2) in
  g2 ← grid_set (g_maze st) s.1 s.2 0;
  g3 ← grid_set g2 e.1 e.2 0;
  Ok ({| width := width m; height := height m; maze := g3;
         start_pos := s; end_pos := e |}, g_rng st).
End Generator.


(** ** Reading the grid by position *)

(** The cell at a position of the grid proper (no wrap-around). *)
Definition cell (g : grid) (p : pos) : option Z :=
  if (0 <=? p.1) && (0 <=? p.2) then
    row ← g !! Z.to_nat p.1; row !! Z.to_nat p.2
  else None.

(** The grid with the cell at [p] replaced by [v]. *)
Definition upd (g : grid) (p : pos) (v : Z) : grid :=
  alter (λ row, <[Z.to_nat p.2 := v]> row) (Z.to_nat p.1) g.

Definition in_bounds (h w : Z) (p : pos) : Prop :=
  0 ≤ p.1 < h ∧ 0 ≤ p.2 < w.

(** The grid has [h] rows of [w] cells. *)
Definition wf_grid (h w : Z) (g : grid) : Prop :=
  length g = Z.to_nat h ∧ Forall (λ row, length row = Z.to_nat w) g.

Definition wf_maze (m : Maze) : Prop := wf_grid (height m) (width m) (maze m).


(** ** Routes through the maze *)

(** Two positions are 4-adjacent: Manhattan distance 1. *)
Definition adjacent (p q : pos) : Prop :=
  Z.abs (p.1 - q.1) + Z.abs (p.2 - q.2) = 1.

(** A position the search may step onto: inside the [h] by [w] bounds and
    holding a passage. *)
Definition passable (h w : Z) (g : grid) (p : pos) : Prop :=
  in_bounds h w p ∧ cell g p = Some Passage.

Definition step (h w : Z) (g : grid) (p q : pos) : Prop :=
  adjacent p q ∧ passable h w g q.

(** Every consecutive pair of the list is 4-adjacent. *)
Fixpoint linked (l : list pos) : Prop :=
  match l with
  | p :: (q :: _) as l' => adjacent p q ∧ linked l'
  | _ => True
  end.

(** A route of the maze: from the entrance to the exit, by 4-adjacent moves
    onto passage cells (the search never tests the cell it starts from). *)
Definition route (m : Maze) (l : list pos) : Prop :=
  head l = Some (start_pos m) ∧ last l = Some (end_pos m) ∧ linked l ∧
  Forall (passable (height m) (width m) (maze m)) (tail l).

(** The number of cells of a grid that hold [c]. *)
Definition count_cells (c : Z) (g : grid) : nat :=
  sum_list (map (λ row, length (filter (λ x, x = c) row)) g).

(** The number of passage cells of a grid. *)
Definition count0 (g : grid) : nat := count_cells 0 g.

(** A loop budget that is enough for [solve_sequential]. *)
Definition solve_fuel (m : Maze) : nat := count0 (maze m) + 2.

(** ** The invariant of the search loop *)

(** [p] is closed: every passable neighbour has been discovered, at most
    one level deeper. *)
Definition closed (h w : Z) (g0 : grid) (v : gmap pos (option pos))
    (lv : pos → nat) (p : pos) : Prop :=
  ∀ q, step h w g0 p q → is_Some (v !! q) ∧ (lv q ≤ S (lv p))%nat.

(** [g0] is the grid at the start of the search, [g] and [v] the grid and
    the [visited] dictionary now, [open] the positions discovered and not
    yet expanded, in queue order, and [lv] the level (distance from the
    entrance) of each discovered position. *)
Record bfs_inv (h w : Z) (s e : pos) (g0 : grid)
    (open : list pos) (lv : pos → nat)
    (g : grid) (v : gmap pos (option pos)) : Prop := {
  inv_wf : wf_grid h w g;
  inv_start : v !! s = Some None ∧ lv s = 0%nat;
  inv_start_cell : cell g s = cell g0 s;
  inv_fresh : ∀ p, v !! p = None → cell g p = cell g0 p;
  inv_seen : ∀ p c, v !! p = Some (Some c) →
    p ≠ s ∧ passable h w g0 p ∧ cell g p = Some Visited ∧
    adjacent c p ∧ is_Some (v !! c) ∧ lv p = S (lv c);
  inv_none : ∀ p, v !! p = Some None → p = s;
  inv_sorted : ∀ i j x y, open !! i = Some x → open !! j = Some y →
    (i ≤ j)%nat → (lv x ≤ lv y)%nat;
  inv_span : ∀ p x, is_Some (v !! p) → x ∈ open → (lv p ≤ S (lv x))%nat;
  inv_open : ∀ p, is_Some (v !! p) →
    p ∈ open ∨ (p ≠ e ∧ closed h w g0 v lv p);
  inv_queue : ∀ p, p ∈ open → is_Some (v !! p);
  inv_tail : s ∉ tail open;
  inv_count : (size v + count0 g = 1 + count0 g0)%nat;
  inv_depth : ∀ p, is_Some (v !! p) → (lv p < size v)%nat
}.
Arguments inv_wf {h w s e g0 open lv g v}.
Arguments inv_start {h w s e g0 open lv g v}.
Arguments inv_start_cell {h w s e g0 open lv g v}.
Arguments inv_fresh {h w s e g0 open lv g v}.
Arguments inv_seen {h w s e g0 open lv g v}.
Arguments inv_none {h w s e g0 open lv g v}.
Arguments inv_sorted {h w s e g0 open lv g v}.
Arguments inv_span {h w s e g0 open lv g v}.
Arguments inv_open {h w s e g0 open lv g v}.
Arguments inv_queue {h w s e g0 open lv g v}.
Arguments inv_tail {h w s e g0 open lv g v}.
Arguments inv_count {h w s e g0 open lv g v}.
Arguments inv_depth {h w s e g0 open lv g v}.

(** The neighbour of [c] in direction [d]. *)
Definition nb_of (c : pos) (d : Z * Z) : pos := (c.1 + d.1, c.2 + d.2).

(** The state after [nb] has been discovered from [c]. *)
Definition discover (c : pos) (st : bfs_state) (nb : pos) : bfs_state :=
  {| b_maze := upd (b_maze st) nb 2;
     b_queue := b_queue st ++ [nb];
     b_visited := <[nb := Some c]> (b_visited st) |}.

(** The test of the search on a neighbour, on a well-formed grid. *)
Definition fresh_passage (h w : Z) (st : bfs_state) (nb : pos) : Prop :=
  in_bounds h w nb ∧ cell (b_maze st) nb = Some 0 ∧ b_visited st !! nb = None.

#[global] Instance in_bounds_dec h w p : Decision (in_bounds h w p).
Proof. unfold in_bounds. apply _. Defined.

#[global] Instance fresh_passage_dec h w st nb : Decision (fresh_passage h w st nb).
Proof. unfold fresh_passage. apply _. Defined.

(** The levels after [nb] has been discovered from [c]. *)
Definition lv_discover (lv : pos → nat) (c nb : pos) : pos → nat :=
  λ p, if decide (p = nb) then S (lv c) else lv p.

(** The positions taken from the queue by the search loop, in order. *)
Fixpoint bfs_dequeued (fuel : nat) (h w : Z) (e : pos) (st : bfs_state)
  : list pos :=
  match fuel with
  | O => []
  | S fuel' =>
    match b_queue st with
    | [] => []
    | current :: q =>
      let st0 := {| b_maze := b_maze st; b_queue := q;
                    b_visited := b_visited st |} in
      current ::
        (if decide (current = e) then []
         else match for_each (visit h w current) solve_directions st0 with
              | Ok st' => bfs_dequeued fuel' h w e st'
              | _ => []
              end)
    end
  end.

(** The state in which [solve_sequential] enters its search loop. *)
Definition bfs_start (m : Maze) : bfs_state :=
  {| b_maze := maze m;
     b_queue := [start_pos m];
     b_visited := {[ start_pos m := None ]} |}.

(** What a run of [solve_sequential] on [m] establishes: [st] is the state
    at the end of the search loop, [m'] and [path] are what the method
    leaves and returns. *)
Record solved (m : Maze) (fuel : nat) (st : bfs_state) (lv : pos → nat)
    (open : list pos) (m' : Maze) (path : list pos) : Prop := {
  sol_loop :
    bfs_loop fuel (height m) (width m) (end_pos m) (bfs_start m) = Ok st;
  sol_inv :
    bfs_inv (height m) (width m) (start_pos m) (end_pos m) (maze m)
      open lv (b_maze st) (b_visited st);
  sol_open : open = [] ∨ ∃ rest, open = end_pos m :: rest;
  sol_result : solve_sequential fuel m = Ok (m', path);
  sol_frame :
    width m' = width m ∧ height m' = height m ∧
    start_pos m' = start_pos m ∧ end_pos m' = end_pos m;
  sol_wf : wf_maze m';
  sol_path :
    match b_visited st !! end_pos m with
    | Some _ =>
      length path = S (lv (end_pos m)) ∧
      head path = Some (start_pos m) ∧ last path = Some (end_pos m) ∧
      linked path ∧ (∀ x, x ∈ path → is_Some (b_visited st !! x)) ∧
      (∀ i x, path !! i = Some x → lv x = i)
    | None => path = [end_pos m]
    end;
  sol_cell : ∀ q,
    cell (maze m') q =
      if decide (q ∈ path ∧ q ≠ start_pos m ∧ q ≠ end_pos m)
      then Some OnPath else cell (b_maze st) q;
  sol_dequeued : ∀ q,
    q ∈ bfs_dequeued fuel (height m) (width m) (end_pos m) (bfs_start m) →
    is_Some (b_visited st !! q)
}.
Arguments sol_loop {m fuel st lv open m' path}.
Arguments sol_inv {m fuel st lv open m' path}.
Arguments sol_open {m fuel st lv open m' path}.
Arguments sol_result {m fuel st lv open m' path}.
Arguments sol_frame {m fuel st lv open m' path}.
Arguments sol_wf {m fuel st lv open m' path}.
Arguments sol_path {m fuel st lv open m' path}.
Arguments sol_cell {m fuel st lv open m' path}.
Arguments sol_dequeued {m fuel st lv open m' path}.

(** ** The invariant of the carving loop *)

(** Strictly inside the border: the test of the carving on a neighbour. *)
Definition interior (h w : Z) (p : pos) : Prop :=
  0 < p.1 < h - 1 ∧ 0 < p.2 < w - 1.

(** A cell of the coarse lattice: interior, with odd coordinates. *)
Definition coarse (h w : Z) (p : pos) : Prop :=
  interior h w p ∧ ∃ i j, p = (2 * i + 1, 2 * j + 1).

#[global] Instance interior_dec h w p : Decision (interior h w p).
Proof. unfold interior. apply _. Defined.

(** What [scan] appends for direction [d], if anything. *)
Definition pick (h w : Z) (g : grid) (c : pos) (d : Z * Z)
  : option (Z * Z * Z * Z) :=
  if decide (interior h w (nb_of c d) ∧ cell g (nb_of c d) = Some (-1))
  then Some ((nb_of c d).1, (nb_of c d).2, d.1 `div` 2, d.2 `div` 2)
  else None.

(** The grid of a freshly reset maze. *)
Definition all_walls (w h : Z) : grid :=
  replicate (Z.to_nat h) (replicate (Z.to_nat w) (-1)).

(** The state in which [generate_maze] enters its carving loop. *)
Definition carve_start {rng : Type} (w h : Z) (r : rng) : gen_state :=
  {| g_maze := upd (all_walls w h) (1, 1) 0;
     g_stack := [(1, 1)];
     g_dirs := carve_directions;
     g_rng := r |}.

(** A loop budget that is enough for [generate_maze]. *)
Definition gen_fuel (w h : Z) : nat := 2 * (Z.to_nat h * Z.to_nat w).

Record gen_inv {rng : Type} (h w : Z) (st : @gen_state rng) : Prop := {
  gi_dirs : g_dirs st ≡ₚ carve_directions;
  gi_wf : wf_grid h w (g_maze st);
  gi_cells : ∀ p v, cell (g_maze st) p = Some v → v = Wall ∨ v = Passage;
  gi_interior : ∀ p, cell (g_maze st) p = Some Passage → interior h w p;
  gi_stack : ∀ p, p ∈ g_stack st →
    coarse h w p ∧ cell (g_maze st) p = Some Passage;
  gi_done : ∀ p, coarse h w p → cell (g_maze st) p = Some Passage →
    p ∈ g_stack st ∨
    ∀ d, d ∈ carve_directions → coarse h w (nb_of p d) →
         cell (g_maze st) (nb_of p d) = Some Passage;
  gi_conn : ∀ p, cell (g_maze st) p = Some Passage →
    rtc (step h w (g_maze st)) (1, 1) p;
  gi_origin : cell (g_maze st) (1, 1) = Some Passage;
  gi_below : ∀ p, cell (g_maze st) p = Some Passage →
    ∃ c, coarse h w c ∧ p.1 ≤ c.1 ∧ p.2 ≤ c.2
}.
Arguments gi_dirs {rng h w st}.
Arguments gi_wf {rng h w st}.
Arguments gi_cells {rng h w st}.
Arguments gi_interior {rng h w st}.
Arguments gi_stack {rng h w st}.
Arguments gi_done {rng h w st}.
Arguments gi_conn {rng h w st}.
Arguments gi_origin {rng h w st}.
Arguments gi_below {rng h w st}.

(** The cells pushed on the stack by the carving loop, in order. *)
Fixpoint carve_pushes {rng : Type}
    (shuffle : rng → list (Z * Z) → list (Z * Z) * rng)
    (fuel : nat) (h w : Z) (st : gen_state) : list pos :=
  match fuel with
  | O => []
  | S fuel' =>
    match carve_step shuffle h w st with
    | Ok (Some st') =>
      (if decide (length (g_stack st) < length (g_stack st'))%nat
       then option_list (last (g_stack st')) else [])
      ++ carve_pushes shuffle fuel' h w st'
    | _ => []
    end
  end.

(** The termination measure of the carving loop. *)
Definition carve_measure {rng : Type} (st : @gen_state rng) : nat :=
  2 * count_cells (-1) (g_maze st) + length (g_stack st).

(** The grid [generate_maze] leaves: entrance and exit opened in the grid
    of the carving loop. *)
Definition open_ends (h w : Z) (g : grid) : grid :=
  upd (upd g (0, 1) 0) (h - 1, w - 2) 0.

(** ** Two deterministic random sources, for running the generator *)

(** [random.shuffle] leaving the list as it is. *)
Definition id_shuffle (r : unit) (l : list (Z * Z)) : list (Z * Z) * unit :=
  (l, r).

(** [random.shuffle] reversing the list. *)
Definition rev_shuffle (r : unit) (l : list (Z * Z)) : list (Z * Z) * unit :=
  (reverse l, r).

(** The maze [Maze(w, h)] constructs. *)
Definition blank_maze (w h : Z) : Maze :=
  {| width := w; height := h; maze := all_walls w h;
     start_pos := (0, 0); end_pos := (h - 1, w - 1) |}.

(** ** A reference breadth-first search, layer by layer *)

(** The four neighbours of a position. *)
Definition neighbours (p : pos) : list pos := nb_of p <$> solve_directions.

#[global] Instance passable_dec h w g p : Decision (passable h w g p).
Proof. unfold passable. apply _. Defined.

(** The next layer: the passable neighbours of the frontier that no earlier
    layer holds. *)
Definition next_layer (h w : Z) (g : grid) (seen frontier : list pos)
  : list pos :=
  remove_dups
    (filter (λ q, passable h w g q ∧ q ∉ seen) (frontier ≫= neighbours)).

(** The depth of the first layer that holds [e]. *)
Fixpoint ref_layers (fuel : nat) (h w : Z) (g : grid) (e : pos)
    (seen frontier : list pos) (depth : nat) : option nat :=
  if decide (e ∈ frontier) then Some depth
  else
    match fuel with
    | O => None
    | S fuel' =>
      match next_layer h w g seen frontier with
      | [] => None
      | next => ref_layers fuel' h w g e (next ++ seen) next (S depth)
      end
    end.

(** The breadth-first layer depth of the exit from the entrance. *)
Definition ref_depth (m : Maze) : option nat :=
  ref_layers (count0 (maze m) + 1) (height m) (width m) (maze m) (end_pos m)
    [start_pos m] [start_pos m] 0.

(** [p] is [n] steps from [s], and no fewer. *)
Definition at_level (h w : Z) (g : grid) (s : pos) (n : nat) (p : pos) : Prop :=
  nsteps (step h w g) n s p ∧ ∀ k, nsteps (step h w g) k s p → (n ≤ k)%nat.

(** The invariant of the reference search: the frontier is the layer at
    [depth], and [seen] is every layer up to it. *)
Record layer_inv (h w : Z) (g : grid) (s : pos)
    (seen frontier : list pos) (depth : nat) : Prop := {
  li_front : ∀ p, p ∈ frontier ↔ at_level h w g s depth p;
  li_seen : ∀ p, p ∈ seen ↔ ∃ k, (k ≤ depth)%nat ∧ nsteps (step h w g) k s p
}.
Arguments li_front {h w g s seen frontier depth}.
Arguments li_seen {h w g s seen frontier depth}.

(** ** Two mazes to run the solver on *)

(** The 5 by 5 maze [generate_maze] produces with [rev_shuffle]. *)
Definition demo_maze : Maze :=
  {| width := 5; height := 5;
     maze := [[-1;  0; -1; -1; -1];
              [-1;  0; -1;  0; -1];
              [-1;  0; -1;  0; -1];
              [-1;  0;  0;  0; -1];
              [-1; -1; -1;  0; -1]];
     start_pos := (0, 1); end_pos := (4, 3) |}.

(** The 4 by 4 maze [generate_maze] produces: the exit is walled in. *)
Definition walled_maze : Maze :=
  {| width := 4; height := 4;
     maze := [[-1;  0; -1; -1];
              [-1;  0; -1; -1];
              [-1; -1; -1; -1];
              [-1; -1;  0; -1]];
     start_pos := (0, 1); end_pos := (3, 2) |}.

(** A cell of the outer border: first or last row, first or last column. *)
Definition on_border (h w : Z) (p : pos) : Prop :=
  in_bounds h w p ∧ (p.1 = 0 ∨ p.1 = h - 1 ∨ p.2 = 0 ∨ p.2 = w - 1).

(** ** Further notions: distances and reachable cells *)

(** The Manhattan distance of two positions. *)
Definition manhattan (p q : pos) : Z :=
  Z.abs (p.1 - q.1) + Z.abs (p.2 - q.2).

(** [q] can be reached from the entrance by 4-adjacent steps onto passage
    cells. *)
Definition reachable (m : Maze) (q : pos) : Prop :=
  ∃ n, nsteps (step (height m) (width m) (maze m)) n (start_pos m) q.

(** ** Further notions: the shape of a carved grid *)

(** The cell between [c] and its neighbour in carving direction [d]:
    [(current[0] + wall_x, current[1] + wall_y)] with [wall_x = dx // 2]. *)
Definition mid (c : pos) (d : Z * Z) : pos :=
  (c.1 + d.1 `div` 2, c.2 + d.2 `div` 2).

(** [p] lies between two carved cells of the coarse lattice that are
    neighbours in a carving direction. *)
Definition between (h w : Z) (g : grid) (p : pos) : Prop :=
  ∃ c d, coarse h w c ∧ d ∈ carve_directions ∧ p = mid c d ∧
         cell g c = Some Passage ∧ cell g (nb_of c d) = Some Passage.

(** Every passage is a cell of the coarse lattice or a connection of two
    of them. *)
Definition lattice_shaped (h w : Z) (g : grid) : Prop :=
  ∀ p, cell g p = Some Passage → coarse h w p ∨ between h w g p.

(** The cells of the coarse lattice of an [h] by [w] grid, row by row. *)
Definition lattice (h w : Z) : list pos :=
  (λ ij : Z * Z, (2 * ij.1 + 1, 2 * ij.2 + 1))
    <$> list_prod (seqZ 0 ((h - 1) `div` 2)) (seqZ 0 ((w - 1) `div` 2)).

(** ** [visualize] and [main] *)

(** The colours of the rendering. Each stands for the RGB triple the
    source writes: [Black] is [0, 0, 0], also what [np.zeros] holds;
    [White] is [1, 1, 1]; [LightBlue] is [0.7, 0.7, 1]; [Green] is
    [0, 1, 0]; [Red] is [1, 0, 0]; [Orange] is [1, 0.5, 0]. *)
Inductive colour := Black | White | LightBlue | Green | Red | Orange.

(** The array handed to [plt.imshow]: rows of pixels. *)
Abbreviation image := (list (list colour)).

(** [visualize] can fail in one more way than the other methods:
    [np.zeros] raises [ValueError]. *)
Inductive error := ValueError | Builtin (e : exn).

Inductive outcome (A : Type) :=
  | Done (a : A)
  | Failed (e : error)
  | Unfinished.
Arguments Done {A} a.
Arguments Failed {A} e.
Arguments Unfinished {A}.

#[global] Instance outcome_ret : MRet outcome := @Done.
#[global] Instance outcome_bind : MBind outcome := λ A B k r,
  match r with
  | Done a => k a
  | Failed e => Failed e
  | Unfinished => Unfinished
  end.

Definition lift {A : Type} (r : result A) : outcome A :=
  match r with
  | Ok a => Done a
  | Raise e => Failed (Builtin e)
  | OutOfFuel => Unfinished
  end.

(** [np.zeros((h, w, 3))]: a negative dimension is refused with
    [ValueError]. numpy refuses with the same error a shape whose size in
    bytes (8 for each of the [3 * h * w] numbers, dimensions of 0 left
    out of the product) does not fit its size type, of at least 32 bits.
    A grid of such a size does not fit in memory, and that second check is
    left out here; where a maze need not hold a grid of its size, the
    properties of [visualize] are stated within that limit. *)
Definition np_zeros (h w : Z) : outcome image :=
  if (h <? 0) || (w <? 0) then Failed ValueError
  else Done (replicate (Z.to_nat h) (replicate (Z.to_nat w) Black)).

(** [colored_maze[x, y] = c]: numpy normalizes each index as Python does
    and raises [IndexError] out of range. *)
Definition img_set (img : image) (x y : Z) (c : colour) : result image :=
  row ← getitem img x; row' ← setitem row y c; setitem img x row'.

(** The body of the inner loop: the [if]/[elif] chain on [self.maze[i][j]];
    a value that matches no branch leaves the pixel as it is. *)
Definition paint (g : grid) (i : Z) (img : image) (j : Z) : result image :=
  c ← grid_get g i j;
  if c =? -1 then img_set img i j Black
  else if c =? 0 then img_set img i j White
  else if c =? 2 then img_set img i j LightBlue
  else if c =? 3 then img_set img i j Green
  else Ok img.

(** [visualize]: the image it shows. The calls of [matplotlib] that
    display it have no result and are left out. *)
Definition visualize (m : Maze) : outcome image :=
  img0 ← np_zeros (height m) (width m);
  img1 ← lift (for_each
                 (λ img i, for_each (paint (maze m) i) (seqZ 0 (width m)) img)
                 (seqZ 0 (height m)) img0);
  img2 ← lift (img_set img1 (start_pos m).1 (start_pos m).2 Red);
  img3 ← lift (img_set img2 (end_pos m).1 (end_pos m).2 Orange);
  Done img3.

(** [main]: what it shows and prints, that is the image of the generated
    maze, the image of the solved maze and the path length. The measured
    time, which also goes into the second title, is left out. *)
Definition main {rng : Type}
    (shuffle : rng → list (Z * Z) → list (Z * Z) * rng)
    (fuel : nat) (r : rng) : outcome (image * image * nat) :=
  m0 ← lift (__init__ 31 31);
  generated ← lift (generate_maze shuffle fuel m0 r);
  img1 ← visualize generated.1;
  solved ← lift (solve_sequential fuel generated.1);
  img2 ← visualize solved.1;
  Done (img1, img2, length solved.2).

(** The pixel at a position of the image proper (no wrap-around). *)
Definition pixel (img : image) (p : pos) : option colour :=
  if (0 <=? p.1) && (0 <=? p.2) then
    row ← img !! Z.to_nat p.1; row !! Z.to_nat p.2
  else None.

(** The image with the pixel at [p] replaced by [c]. *)
Definition img_upd (img : image) (p : pos) (c : colour) : image :=
  alter (λ row, <[Z.to_nat p.2 := c]> row) (Z.to_nat p.1) img.

(** The image has [h] rows of [w] pixels. *)
Definition wf_image (h w : Z) (img : image) : Prop :=
  length img = Z.to_nat h ∧ Forall (λ row, length row = Z.to_nat w) img.

(** The cell values the rendering has a colour for. *)
Definition known (c : Z) : bool :=
  (c =? -1) || (c =? 0) || (c =? 2) || (c =? 3).

(** The colour a cell value is rendered in; a value that is not [known]
    keeps the black of [np.zeros]. *)
Definition shade (c : Z) : colour :=
  if c =? -1 then Black
  else if c =? 0 then White
  else if c =? 2 then LightBlue
  else if c =? 3 then Green
  else Black.

(** What [visualize] shows at [p]: the exit marker over the entrance
    marker over the colour of the cell. *)
Definition shown (m : Maze) (p : pos) : option colour :=
  if decide (p = end_pos m) then Some Orange
  else if decide (p = start_pos m) then Some Red
  else shade <$> cell (maze m) p.

(** The pixels whose cell has no colour are black: they have not been
    painted. *)
Definition blank_rest (g : grid) (img : image) : Prop :=
  ∀ q v, cell g q = Some v → known v = false → pixel img q = Some Black.


(** * Lists and grids *)

Section ListFacts.
Context {A : Type}.
Implicit Types (l : list A) (i : Z).

Lemma norm_index_nonneg len i :
  0 ≤ i →
  norm_index len i = if i <? Z.of_nat len then Some (Z.to_nat i) else None.
Proof. intros Hi. unfold norm_index. by rewrite (proj2 (Z.leb_le 0 i) Hi). Qed.

Lemma getitem_nonneg l i :
  0 ≤ i →
  getitem l i = match l !! Z.to_nat i with Some x => Ok x | None => Raise IndexError end.
Proof.
  intros Hi. unfold getitem. rewrite norm_index_nonneg by done.
  destruct (Z.ltb_spec i (Z.of_nat (length l))) as [Hlt|Hge]; [done|].
  rewrite lookup_ge_None_2; [done|lia].
Qed.

Lemma setitem_nonneg l i x :
  0 ≤ i →
  setitem l i x = match l !! Z.to_nat i with
                  | Some _ => Ok (<[Z.to_nat i := x]> l)
                  | None => Raise IndexError
                  end.
Proof.
  intros Hi. unfold setitem. rewrite norm_index_nonneg by done.
  destruct (Z.ltb_spec i (Z.of_nat (length l))) as [Hlt|Hge].
  - destruct (lookup_lt_is_Some_2 l (Z.to_nat i)) as [y ->]; [lia|done].
  - rewrite lookup_ge_None_2; [done|lia].
Qed.
End ListFacts.

Section GridFacts.
Implicit Types (g : grid) (p q : pos) (v : Z).

Lemma grid_get_cell g x y :
  0 ≤ x → 0 ≤ y →
  grid_get g x y = match cell g (x, y) with
                   | Some v => Ok v
                   | None => Raise IndexError
                   end.
Proof.
  intros Hx Hy. unfold grid_get, cell. cbn [fst snd].
  rewrite (proj2 (Z.leb_le 0 x) Hx), (proj2 (Z.leb_le 0 y) Hy).
  cbn [andb]. rewrite getitem_nonneg by done.
  destruct (g !! Z.to_nat x) as [row|]; [|done].
  cbn. by rewrite getitem_nonneg.
Qed.

Lemma grid_set_cell g x y v :
  0 ≤ x → 0 ≤ y →
  grid_set g x y v = match cell g (x, y) with
                     | Some _ => Ok (upd g (x, y) v)
                     | None => Raise IndexError
                     end.
Proof.
  intros Hx Hy. unfold grid_set, cell, upd. cbn [fst snd].
  rewrite (proj2 (Z.leb_le 0 x) Hx), (proj2 (Z.leb_le 0 y) Hy).
  cbn [andb]. rewrite getitem_nonneg by done.
  destruct (g !! Z.to_nat x) as [row|] eqn:Hrow; [|done].
  cbn. rewrite setitem_nonneg by done.
  destruct (row !! Z.to_nat y) as [c|] eqn:Hc; [|done].
  cbn. rewrite setitem_nonneg by done. rewrite Hrow.
  f_equal. apply list_eq. intros i.
  destruct (decide (i = Z.to_nat x)) as [->|Hne].
  - rewrite list_lookup_insert_eq by (by eapply lookup_lt_Some).
    by rewrite list_lookup_alter_eq, Hrow.
  - by rewrite list_lookup_insert_ne, list_lookup_alter_ne.
Qed.

Lemma cell_upd_eq g p v :
  is_Some (cell g p) → cell (upd g p v) p = Some v.
Proof.
  unfold cell, upd. destruct ((0 <=? p.1) && (0 <=? p.2)); [|by intros [? ?]].
  rewrite list_lookup_alter_eq.
  destruct (g !! Z.to_nat p.1) as [row|]; simpl; [|by intros [? ?]].
  intros [c Hc]. apply list_lookup_insert_eq. by eapply lookup_lt_Some.
Qed.

Lemma cell_upd_ne g p q v :
  0 ≤ p.1 → 0 ≤ p.2 → p ≠ q → cell (upd g p v) q = cell g q.
Proof.
  intros Hp1 Hp2 Hne. unfold cell, upd.
  destruct (Z.leb_spec 0 q.1) as [H1|]; [|done].
  destruct (Z.leb_spec 0 q.2) as [H2|]; [|done]. simpl.
  destruct (decide (Z.to_nat p.1 = Z.to_nat q.1)) as [Heq|Hd].
  - rewrite Heq, list_lookup_alter_eq.
    destruct (g !! Z.to_nat q.1) as [row|]; simpl; [|done].
    rewrite list_lookup_insert_ne; [done|].
    intros Heq2. apply Hne. destruct p, q; simpl in *. f_equal; lia.
  - by rewrite list_lookup_alter_ne.
Qed.

Lemma cell_Some_nonneg g p c : cell g p = Some c → 0 ≤ p.1 ∧ 0 ≤ p.2.
Proof.
  unfold cell. destruct (Z.leb_spec 0 p.1), (Z.leb_spec 0 p.2); simpl; try done.
Qed.

Lemma cell_upd g p q v :
  is_Some (cell g p) →
  cell (upd g p v) q = if decide (p = q) then Some v else cell g q.
Proof.
  intros Hp. destruct (decide (p = q)) as [<-|Hne].
  - by apply cell_upd_eq.
  - destruct Hp as [c Hc]. apply cell_Some_nonneg in Hc as [? ?].
    by apply cell_upd_ne.
Qed.

Lemma wf_grid_upd h w g p v : wf_grid h w g → wf_grid h w (upd g p v).
Proof.
  intros [Hlen Hrows]. split.
  - unfold upd. by rewrite length_alter.
  - unfold upd. apply Forall_alter; [done|].
    intros row Hrow Hlenrow. by rewrite length_insert.
Qed.

Lemma wf_grid_cell h w g p :
  wf_grid h w g → in_bounds h w p → is_Some (cell g p).
Proof.
  intros [Hlen Hrows] [[H1 H1'] [H2 H2']]. unfold cell.
  rewrite (proj2 (Z.leb_le 0 p.1) H1), (proj2 (Z.leb_le 0 p.2) H2). simpl.
  destruct (lookup_lt_is_Some_2 g (Z.to_nat p.1)) as [row Hrow]; [lia|].
  rewrite Hrow. simpl. apply lookup_lt_is_Some_2.
  rewrite Forall_lookup in Hrows. rewrite (Hrows _ _ Hrow). lia.
Qed.

Lemma wf_grid_cell_inv h w g p c :
  wf_grid h w g → cell g p = Some c → in_bounds h w p.
Proof.
  intros [Hlen Hrows] Hc. pose proof (cell_Some_nonneg _ _ _ Hc) as [H1 H2].
  unfold cell in Hc.
  rewrite (proj2 (Z.leb_le 0 p.1) H1), (proj2 (Z.leb_le 0 p.2) H2) in Hc.
  simpl in Hc.
  destruct (g !! Z.to_nat p.1) as [row|] eqn:Hrow; simpl in Hc; [|done].
  apply lookup_lt_Some in Hc. rewrite Forall_lookup in Hrows.
  rewrite (Hrows _ _ Hrow) in Hc. apply lookup_lt_Some in Hrow.
  unfold in_bounds. lia.
Qed.
End GridFacts.

Section CountFacts.
Implicit Types (g : grid) (row : list Z).

Lemma count_row_insert (c : Z) row n v :
  row !! n = Some c → v ≠ c →
  S (length (filter (λ x, x = c) (<[n := v]> row)))
  = length (filter (λ x, x = c) row).
Proof.
  revert n. induction row as [|x row IH]; intros [|n] Hn Hv; try done.
  - injection Hn as ->. change (<[0%nat := v]> (c :: row)) with (v :: row).
    rewrite filter_cons_False by done. by rewrite filter_cons_True.
  - change (<[S n := v]> (x :: row)) with (x :: <[n := v]> row).
    change ((x :: row) !! S n) with (row !! n) in Hn.
    rewrite !filter_cons. destruct (decide (x = c)); simpl;
      by rewrite <- (IH n).
Qed.

Lemma count_row_insert_le (c : Z) row n v :
  v ≠ c →
  (length (filter (λ x, x = c) (<[n := v]> row))
   ≤ length (filter (λ x, x = c) row))%nat.
Proof.
  intros Hv. revert n. induction row as [|x row IH]; intros [|n]; try done.
  - change (<[0%nat := v]> (x :: row)) with (v :: row).
    rewrite filter_cons_False by done. rewrite filter_cons.
    destruct (decide (x = c)); simpl; lia.
  - change (<[S n := v]> (x :: row)) with (x :: <[n := v]> row).
    rewrite !filter_cons. specialize (IH n).
    destruct (decide (x = c)); simpl; lia.
Qed.

Lemma count_cells_alter (c : Z) g i row f :
  g !! i = Some row →
  (count_cells c (alter f i g) + length (filter (λ x : Z, x = c) row)
   = count_cells c g + length (filter (λ x : Z, x = c) (f row)))%nat.
Proof.
  unfold count_cells. revert i. induction g as [|r g IH]; intros [|i] Hi; try done.
  - injection Hi as ->. cbn. lia.
  - change ((r :: g) !! S i) with (g !! i) in Hi.
    specialize (IH i Hi). cbn in *. lia.
Qed.

Lemma count_cells_upd (c : Z) g p v :
  cell g p = Some c → v ≠ c → S (count_cells c (upd g p v)) = count_cells c g.
Proof.
  intros Hc Hv. pose proof (cell_Some_nonneg _ _ _ Hc) as [H1 H2].
  unfold cell in Hc.
  rewrite (proj2 (Z.leb_le 0 p.1) H1), (proj2 (Z.leb_le 0 p.2) H2) in Hc.
  cbn [andb] in Hc.
  destruct (g !! Z.to_nat p.1) as [row|] eqn:Hrow; [|done]. cbn in Hc.
  pose proof (count_cells_alter c g _ row (λ row, <[Z.to_nat p.2 := v]> row) Hrow) as Ha.
  pose proof (count_row_insert c row _ v Hc Hv) as Hr.
  unfold upd. lia.
Qed.

Lemma count_cells_upd_le (c : Z) g p v :
  v ≠ c → (count_cells c (upd g p v) ≤ count_cells c g)%nat.
Proof.
  intros Hv. unfold upd.
  destruct (g !! Z.to_nat p.1) as [row|] eqn:Hrow.
  - pose proof (count_cells_alter c g _ row (λ row, <[Z.to_nat p.2 := v]> row) Hrow) as Ha.
    pose proof (count_row_insert_le c row (Z.to_nat p.2) v Hv) as Hr. lia.
  - assert (alter (λ row, <[Z.to_nat p.2 := v]> row) (Z.to_nat p.1) g = g) as ->; [|done].
    apply list_eq. intros j. rewrite list_lookup_alter.
    case_decide; [subst; by rewrite Hrow|done].
Qed.

Lemma count0_upd g p v :
  cell g p = Some 0 → v ≠ 0 → S (count0 (upd g p v)) = count0 g.
Proof. apply count_cells_upd. Qed.

Lemma count_row_replicate (c : Z) (k : nat) :
  length (filter (λ x, x = c) (replicate k c)) = k.
Proof.
  induction k as [|k IH]; [done|]. cbn [replicate].
  rewrite filter_cons_True by done. cbn [length]. by rewrite IH.
Qed.

Lemma count_cells_replicate (c : Z) (n k : nat) :
  (count_cells c (replicate n (replicate k c)) = n * k)%nat.
Proof.
  unfold count_cells. induction n as [|n IH]; [done|].
  cbn [replicate map sum_list]. rewrite IH, count_row_replicate.
  unfold id. lia.
Qed.
End CountFacts.


(** * The search *)

Section Moves.
Implicit Types (p q : pos) (d : Z * Z).

Lemma adjacent_sym p q : adjacent p q → adjacent q p.
Proof. unfold adjacent. lia. Qed.

Lemma adjacent_ne p q : adjacent p q → p ≠ q.
Proof. unfold adjacent. intros H ->. lia. Qed.

Lemma adjacent_nb_of p d : d ∈ solve_directions → adjacent p (nb_of p d).
Proof.
  unfold solve_directions, adjacent, nb_of. rewrite !elem_of_cons, elem_of_nil.
  intros [->|[->|[->|[->|[]]]]]; simpl; lia.
Qed.

Lemma adjacent_inv p q :
  adjacent p q → ∃ d, d ∈ solve_directions ∧ q = nb_of p d.
Proof.
  unfold adjacent, nb_of, solve_directions. destruct p as [x y], q as [x' y'].
  simpl. intros H.
  destruct (decide (x' = x)) as [->|Hx].
  - destruct (decide (y' = y + 1)) as [->|Hy].
    + exists (0, 1). split; [set_solver|]. simpl. f_equal; lia.
    + exists (0, -1). split; [set_solver|]. simpl. f_equal; lia.
  - destruct (decide (x' = x + 1)) as [->|Hx'].
    + exists (1, 0). split; [set_solver|]. simpl. f_equal; lia.
    + exists (-1, 0). split; [set_solver|]. simpl. f_equal; lia.
Qed.
End Moves.

Section Visit.
Variables (h w : Z).

Lemma guard_spec x y :
  (0 <=? x) && (x <? h) && (0 <=? y) && (y <? w) = true ↔ in_bounds h w (x, y).
Proof.
  unfold in_bounds. cbn [fst snd].
  rewrite !andb_true_iff, !Z.leb_le, !Z.ltb_lt. tauto.
Qed.

Lemma visit_unfold c st d :
  wf_grid h w (b_maze st) →
  visit h w c st d =
    Ok (if decide (fresh_passage h w st (nb_of c d))
        then discover c st (nb_of c d) else st).
Proof.
  intros Hwf. unfold visit. fold (nb_of c d).
  change (c.1 + d.1) with (nb_of c d).1. change (c.2 + d.2) with (nb_of c d).2.
  destruct (nb_of c d) as [nx ny] eqn:Hnb. cbn [fst snd].
  destruct ((0 <=? nx) && (nx <? h) && (0 <=? ny) && (ny <? w)) eqn:Hg.
  - apply guard_spec in Hg.
    pose proof Hg as [[? ?] [? ?]]. cbn [fst snd] in *.
    rewrite grid_get_cell by done.
    destruct (wf_grid_cell h w (b_maze st) (nx, ny) Hwf Hg) as [c0 Hc0].
    rewrite Hc0. cbn.
    destruct (Z.eqb_spec c0 0) as [->|Hne]; cbn [andb].
    + destruct (b_visited st !! (nx, ny)) as [o|] eqn:Hv.
      * rewrite bool_decide_eq_false_2 by done.
        rewrite decide_False; [done|]. intros (_ & _ & ?). congruence.
      * rewrite bool_decide_eq_true_2 by done.
        rewrite grid_set_cell, Hc0 by done. cbn.
        rewrite decide_True; [done|]. by repeat split.
    + rewrite decide_False; [done|]. intros (_ & ? & _). congruence.
  - rewrite decide_False; [done|]. intros (Hb & _ & _).
    apply guard_spec in Hb. congruence.
Qed.
End Visit.

Section Search.
Variables (h w : Z) (s e : pos) (g0 : grid).
Implicit Types (p q c nb : pos) (g : grid) (v : gmap pos (option pos))
  (lv : pos → nat) (open : list pos).

Lemma lv_discover_old lv c nb v p :
  v !! nb = None → is_Some (v !! p) → lv_discover lv c nb p = lv p.
Proof.
  intros Hnb [o Hp]. unfold lv_discover.
  rewrite decide_False; [done|]. intros ->. congruence.
Qed.

Lemma discover_inv c open lv g v nb :
  bfs_inv h w s e g0 (c :: open) lv g v →
  in_bounds h w nb → cell g nb = Some 0 → v !! nb = None → adjacent c nb →
  bfs_inv h w s e g0 (c :: open ++ [nb]) (lv_discover lv c nb)
    (upd g nb 2) (<[nb := Some c]> v).
Proof.
  intros I Hb Hcell Hv Hadj.
  assert (Hold : ∀ p, is_Some (v !! p) → lv_discover lv c nb p = lv p)
    by (intros p; by apply lv_discover_old).
  assert (Hnew : lv_discover lv c nb nb = S (lv c))
    by (unfold lv_discover; by rewrite decide_True).
  assert (Hc : is_Some (v !! c))
    by (apply (inv_queue I); apply list_elem_of_here).
  assert (Hnn : 0 ≤ nb.1 ∧ 0 ≤ nb.2) by (destruct Hb; lia).
  assert (Hs : nb ≠ s) by (intros ->; destruct (inv_start I); congruence).
  assert (Hmono : ∀ p, is_Some (v !! p) → is_Some (<[nb := Some c]> v !! p)).
  { intros p Hp. rewrite lookup_insert_is_Some. destruct (decide (nb = p)); auto. }
  assert (Hhead : ∀ x, x ∈ c :: open → (lv c ≤ lv x)%nat).
  { intros x Hx. apply list_elem_of_lookup in Hx as [j Hj].
    apply (inv_sorted I 0%nat j); [done|done|lia]. }
  split.
  - apply wf_grid_upd, I.
  - destruct (inv_start I) as [H1 H2]. split.
    + by rewrite lookup_insert_ne.
    + rewrite Hold; [done|]. by rewrite H1.
  - rewrite cell_upd_ne by (done || lia). apply I.
  - intros p Hp. apply lookup_insert_None in Hp as [Hp Hne].
    rewrite cell_upd_ne by (done || lia). by apply I.
  - intros p c0 Hp. apply lookup_insert_Some in Hp as [[<- Hp]|[Hne Hp]].
    + injection Hp as <-. split_and!; try done.
      * split; [done|]. rewrite <- (inv_fresh I nb Hv). exact Hcell.
      * apply cell_upd_eq. by rewrite Hcell.
      * by apply Hmono.
      * rewrite Hnew. by rewrite Hold.
    + destruct (inv_seen I p c0 Hp) as (? & ? & ? & ? & ? & ?).
      split_and!; try done.
      * by rewrite cell_upd_ne by (done || lia).
      * by apply Hmono.
      * rewrite !Hold; [done|done|by rewrite Hp].
  - intros p Hp. apply lookup_insert_Some in Hp as [[_ Hp]|[Hne Hp]]; [done|].
    by apply I.
  - intros i j x y Hi Hj Hij.
    change (c :: open ++ [nb]) with ((c :: open) ++ [nb]) in Hi, Hj.
    apply lookup_app_Some in Hj as [Hj|[Hlen Hj]].
    + assert (Hi' : (c :: open) !! i = Some x).
      { apply lookup_lt_Some in Hj. rewrite lookup_app_l in Hi by lia. done. }
      rewrite !Hold.
      * by apply (inv_sorted I i j).
      * apply (inv_queue I). by eapply list_elem_of_lookup_2.
      * apply (inv_queue I). by eapply list_elem_of_lookup_2.
    + apply list_lookup_singleton_Some in Hj as [_ <-]. rewrite Hnew.
      apply lookup_app_Some in Hi as [Hi|[_ Hi]].
      * assert (Hx : is_Some (v !! x)).
        { apply (inv_queue I). by eapply list_elem_of_lookup_2. }
        rewrite Hold by done.
        apply (inv_span I); [done|apply list_elem_of_here].
      * apply list_lookup_singleton_Some in Hi as [_ <-]. by rewrite Hnew.
  - intros p x Hp Hx.
    change (c :: open ++ [nb]) with ((c :: open) ++ [nb]) in Hx.
    apply elem_of_app in Hx as [Hx|Hx].
    + assert (Hxv : is_Some (v !! x)) by by apply (inv_queue I).
      rewrite (Hold x) by done.
      apply lookup_insert_is_Some in Hp as [<-|[Hne Hp]].
      * rewrite Hnew. specialize (Hhead x Hx). lia.
      * rewrite Hold by done. by apply (inv_span I).
    + apply list_elem_of_singleton in Hx as ->. rewrite Hnew.
      apply lookup_insert_is_Some in Hp as [<-|[Hne Hp]].
      * rewrite Hnew. lia.
      * rewrite Hold by done.
        assert (lv p ≤ S (lv c))%nat; [|lia].
        apply (inv_span I); [done|apply list_elem_of_here].
  - intros p Hp.
    change (c :: open ++ [nb]) with ((c :: open) ++ [nb]).
    apply lookup_insert_is_Some in Hp as [<-|[Hne Hp]].
    { left. apply elem_of_app. right. apply list_elem_of_here. }
    destruct (inv_open I p Hp) as [Hin|[Hpe Hcl]].
    + left. apply elem_of_app. by left.
    + right. split; [done|]. intros q Hq.
      destruct (Hcl q Hq) as [Hqv Hql]. split; [by apply Hmono|].
      by rewrite !Hold.
  - intros p Hp.
    change (c :: open ++ [nb]) with ((c :: open) ++ [nb]) in Hp.
    apply elem_of_app in Hp as [Hp|Hp].
    + apply Hmono. by apply (inv_queue I).
    + apply list_elem_of_singleton in Hp as ->. by rewrite lookup_insert_eq.
  - cbn [tail]. intros Hin. apply elem_of_app in Hin as [Hin|Hin].
    + by apply (inv_tail I).
    + apply list_elem_of_singleton in Hin. congruence.
  - rewrite map_size_insert_None by done.
    pose proof (count0_upd g nb 2 Hcell) as Hcnt.
    pose proof (inv_count I). lia.
  - intros p Hp. rewrite map_size_insert_None by done.
    apply lookup_insert_is_Some in Hp as [<-|[Hne Hp]].
    + rewrite Hnew. pose proof (inv_depth I c Hc). lia.
    + rewrite Hold by done. pose proof (inv_depth I p Hp). lia.
Qed.

Lemma visit_inv c lv st d :
  d ∈ solve_directions →
  bfs_inv h w s e g0 (c :: b_queue st) lv (b_maze st) (b_visited st) →
  ∃ st' lv',
    visit h w c st d = Ok st' ∧
    bfs_inv h w s e g0 (c :: b_queue st') lv' (b_maze st') (b_visited st') ∧
    (count0 (b_maze st') + length (b_queue st')
     = count0 (b_maze st) + length (b_queue st))%nat ∧
    (∀ p, is_Some (b_visited st !! p) →
          is_Some (b_visited st' !! p) ∧ lv' p = lv p) ∧
    (passable h w g0 (nb_of c d) →
     is_Some (b_visited st' !! nb_of c d) ∧
     (lv' (nb_of c d) ≤ S (lv' c))%nat).
Proof.
  intros Hd I. rewrite visit_unfold by apply I.
  assert (Hc : is_Some (b_visited st !! c)).
  { apply (inv_queue I). apply list_elem_of_here. }
  destruct (decide (fresh_passage h w st (nb_of c d))) as [(Hb & Hcell & Hv)|Hn].
  - exists (discover c st (nb_of c d)), (lv_discover lv c (nb_of c d)).
    split_and!.
    + done.
    + apply discover_inv; try done. by apply adjacent_nb_of.
    + unfold discover. cbn [b_maze b_queue]. rewrite length_app.
      cbn [length].
      pose proof (count0_upd (b_maze st) (nb_of c d) 2 Hcell). lia.
    + intros p Hp. split.
      * cbn. rewrite lookup_insert_is_Some.
        destruct (decide (nb_of c d = p)); auto.
      * by eapply lv_discover_old.
    + intros _. cbn. rewrite lookup_insert_eq. split; [done|].
      rewrite (lv_discover_old lv c (nb_of c d) _ c Hv Hc).
      unfold lv_discover. by rewrite decide_True.
  - exists st, lv. split_and!; try done.
    intros [Hb Hp].
    destruct (b_visited st !! nb_of c d) as [o|] eqn:Hv.
    + split; [done|].
      apply (inv_span I); [by rewrite Hv|apply list_elem_of_here].
    + exfalso. apply Hn. split_and!; try done.
      rewrite (inv_fresh I _ Hv). exact Hp.
Qed.

Lemma visits_inv c ds : ∀ lv st,
  (∀ d, d ∈ ds → d ∈ solve_directions) →
  bfs_inv h w s e g0 (c :: b_queue st) lv (b_maze st) (b_visited st) →
  ∃ st' lv',
    for_each (visit h w c) ds st = Ok st' ∧
    bfs_inv h w s e g0 (c :: b_queue st') lv' (b_maze st') (b_visited st') ∧
    (count0 (b_maze st') + length (b_queue st')
     = count0 (b_maze st) + length (b_queue st))%nat ∧
    (∀ p, is_Some (b_visited st !! p) →
          is_Some (b_visited st' !! p) ∧ lv' p = lv p) ∧
    (∀ d, d ∈ ds → passable h w g0 (nb_of c d) →
     is_Some (b_visited st' !! nb_of c d) ∧
     (lv' (nb_of c d) ≤ S (lv' c))%nat).
Proof.
  induction ds as [|d ds IH]; intros lv st Hds I.
  - exists st, lv. split_and!; try done. intros d Hd. by apply elem_of_nil in Hd.
  - destruct (visit_inv c lv st d) as (st1 & lv1 & Hv & I1 & Hm1 & Hext1 & Hnb1);
      [apply Hds, list_elem_of_here|done|].
    destruct (IH lv1 st1) as (st2 & lv2 & Hf & I2 & Hm2 & Hext2 & Hnb2);
      [intros d' Hd'; by apply Hds, list_elem_of_further|done|].
    exists st2, lv2. split_and!.
    + cbn. rewrite Hv. cbn. exact Hf.
    + done.
    + lia.
    + intros p Hp. destruct (Hext1 p Hp) as [Hp1 Hl1].
      destruct (Hext2 p Hp1) as [Hp2 Hl2]. split; [done|congruence].
    + intros d' Hd' Hpass. apply elem_of_cons in Hd' as [->|Hd'].
      * destruct (Hnb1 Hpass) as [Hn1 Hl1].
        destruct (Hext2 _ Hn1) as [Hn2 Hl2]. split; [done|].
        assert (Hc1 : is_Some (b_visited st1 !! c)).
        { apply (inv_queue I1). apply list_elem_of_here. }
        destruct (Hext2 _ Hc1) as [_ Hlc]. lia.
      * by apply Hnb2.
Qed.

Lemma expand_inv c lv st :
  c ≠ e →
  bfs_inv h w s e g0 (c :: b_queue st) lv (b_maze st) (b_visited st) →
  ∃ st' lv',
    for_each (visit h w c) solve_directions st = Ok st' ∧
    bfs_inv h w s e g0 (b_queue st') lv' (b_maze st') (b_visited st') ∧
    (count0 (b_maze st') + length (b_queue st')
     = count0 (b_maze st) + length (b_queue st))%nat ∧
    (∀ p, is_Some (b_visited st !! p) → is_Some (b_visited st' !! p)).
Proof.
  intros Hce I.
  destruct (visits_inv c solve_directions lv st) as (st' & lv' & Hf & I' & Hm & Hext & Hnb);
    [done|done|].
  exists st', lv'. split_and!; try done; [|intros p Hp; by apply Hext].
  destruct I' as [Hwf Hst Hsc Hfr Hseen Hnone Hsort Hspan Hopen Hq Htl Hcnt Hdep].
  split; try done.
  - intros i j x y Hi Hj Hij. apply (Hsort (S i) (S j)); [done|done|lia].
  - intros p x Hp Hx. apply Hspan; [done|by apply list_elem_of_further].
  - intros p Hp. destruct (Hopen p Hp) as [Hin|Hcl]; [|by right].
    apply elem_of_cons in Hin as [->|Hin]; [|by left].
    right. split; [done|]. intros q [Hadj Hpass].
    apply adjacent_inv in Hadj as (d & Hd & ->). by apply Hnb.
  - intros p Hp. apply Hq. by apply list_elem_of_further.
  - intros Hin. apply Htl. cbn [tail].
    destruct (b_queue st') as [|y l]; [done|]. by apply list_elem_of_further.
Qed.

Lemma bfs_loop_S fuel st :
  bfs_loop (S fuel) h w e st =
    match b_queue st with
    | [] => Ok st
    | current :: rest =>
      let st0 := {| b_maze := b_maze st; b_queue := rest;
                    b_visited := b_visited st |} in
      if decide (current = e) then Ok st0
      else for_each (visit h w current) solve_directions st0
             ≫= bfs_loop fuel h w e
    end.
Proof. done. Qed.

Lemma bfs_dequeued_S fuel st :
  bfs_dequeued (S fuel) h w e st =
    match b_queue st with
    | [] => []
    | current :: rest =>
      let st0 := {| b_maze := b_maze st; b_queue := rest;
                    b_visited := b_visited st |} in
      current ::
        (if decide (current = e) then []
         else match for_each (visit h w current) solve_directions st0 with
              | Ok st' => bfs_dequeued fuel h w e st'
              | _ => []
              end)
    end.
Proof. done. Qed.

(** The loop runs to its end within the budget, and the invariant holds
    there with an open list that is either empty (the queue ran dry) or
    headed by the exit (the [break]). Nothing leaves [visited], and every
    position taken from the queue is in it. *)
Lemma bfs_loop_inv fuel : ∀ lv st,
  bfs_inv h w s e g0 (b_queue st) lv (b_maze st) (b_visited st) →
  (count0 (b_maze st) + length (b_queue st) < fuel)%nat →
  ∃ st' lv' open,
    bfs_loop fuel h w e st = Ok st' ∧
    bfs_inv h w s e g0 open lv' (b_maze st') (b_visited st') ∧
    (open = [] ∨ ∃ rest, open = e :: rest) ∧
    (∀ p, is_Some (b_visited st !! p) → is_Some (b_visited st' !! p)) ∧
    (∀ p, p ∈ bfs_dequeued fuel h w e st → is_Some (b_visited st' !! p)).
Proof.
  induction fuel as [|fuel IH]; intros lv st I Hfuel; [lia|].
  rewrite bfs_loop_S, bfs_dequeued_S.
  destruct (b_queue st) as [|c rest] eqn:Hq.
  - exists st, lv, []. split_and!; try done; [by left|].
    intros p Hp. by apply elem_of_nil in Hp.
  - assert (Hc : is_Some (b_visited st !! c)).
    { apply (inv_queue I). apply list_elem_of_here. }
    cbn zeta.
    destruct (decide (c = e)) as [->|Hce].
    + eexists _, lv, (e :: rest).
      split_and!; [done|exact I|right; by eexists|done|].
      intros p Hp. by apply list_elem_of_singleton in Hp as ->.
    + set (st0 := {| b_maze := b_maze st; b_queue := rest; b_visited := b_visited st |}).
      destruct (expand_inv c lv st0 Hce I) as (st' & lv' & Hf & I' & Hm & Hmono).
      rewrite Hf. cbn [mbind result_bind].
      destruct (IH lv' st' I') as (st2 & lv2 & open & Hloop & I2 & Hopen & Hmono2 & Hdeq).
      { cbn [b_maze b_queue st0 length] in Hm, Hfuel. lia. }
      exists st2, lv2, open. split_and!; try done.
      * intros p Hp. by apply Hmono2, Hmono.
      * intros p Hp. apply elem_of_cons in Hp as [->|Hp]; [|by apply Hdeq].
        by apply Hmono2, Hmono.
Qed.

(** *** What the invariant says about distances *)

Lemma bfs_level_reach open lv g v :
  bfs_inv h w s e g0 open lv g v →
  ∀ n p, is_Some (v !! p) → lv p = n → nsteps (step h w g0) n s p.
Proof.
  intros I n. induction n as [|n IH]; intros p [o Hp] Hlv.
  - destruct o as [c|].
    + destruct (inv_seen I p c Hp) as (_ & _ & _ & _ & _ & Hl). lia.
    + rewrite (inv_none I p Hp). constructor.
  - destruct o as [c|].
    + destruct (inv_seen I p c Hp) as (_ & Hpass & _ & Hadj & Hc & Hl).
      eapply nsteps_r; [apply (IH c Hc); lia|]. by split.
    + rewrite (inv_none I p Hp) in Hlv.
      destruct (inv_start I). lia.
Qed.

Lemma bfs_lower_bound open lv g v :
  bfs_inv h w s e g0 open lv g v →
  ∀ n p, nsteps (step h w g0) n s p →
  (is_Some (v !! p) ∧ (lv p ≤ n)%nat) ∨ (∃ x, x ∈ open ∧ (lv x < n)%nat).
Proof.
  intros I n. induction n as [|n IH]; intros p Hn.
  - inversion Hn; subst. left.
    destruct (inv_start I) as [-> ->]. split; [done|lia].
  - apply nsteps_inv_r in Hn as (y & Hy & Hstep).
    destruct (IH y Hy) as [[Hyv Hyl]|(x & Hx & Hxl)].
    + destruct (inv_open I y Hyv) as [Hin|[_ Hcl]].
      * right. exists y. split; [done|lia].
      * destruct (Hcl p Hstep) as [Hpv Hpl]. left. split; [done|lia].
    + right. exists x. split; [done|lia].
Qed.

(** At the end of the loop the exit has been discovered exactly when it
    can be reached, and its level is then the least number of steps. *)
Lemma bfs_exit_level open lv g v n :
  bfs_inv h w s e g0 open lv g v →
  (open = [] ∨ ∃ rest, open = e :: rest) →
  nsteps (step h w g0) n s e →
  is_Some (v !! e) ∧ (lv e ≤ n)%nat.
Proof.
  intros I Hopen Hn.
  destruct (bfs_lower_bound open lv g v I n e Hn) as [H|(x & Hx & Hxl)]; [done|].
  destruct Hopen as [->|[rest ->]]; [by apply elem_of_nil in Hx|].
  split.
  - apply (inv_queue I). apply list_elem_of_here.
  - apply list_elem_of_lookup in Hx as [j Hj].
    pose proof (inv_sorted I 0%nat j e x eq_refl Hj). lia.
Qed.

Lemma bfs_inv_init :
  wf_grid h w g0 →
  bfs_inv h w s e g0 [s] (λ _, 0%nat) g0 {[ s := None ]}.
Proof.
  intros Hwf. split; try done.
  - by rewrite lookup_singleton_eq.
  - intros p c Hp. apply lookup_singleton_Some in Hp as [_ ?]. done.
  - intros p Hp. by apply lookup_singleton_Some in Hp as [? _].
  - intros p x _ _. lia.
  - intros p [o Hp]. apply lookup_singleton_Some in Hp as [<- _].
    left. apply list_elem_of_here.
  - intros p Hp. apply list_elem_of_singleton in Hp as ->.
    by rewrite lookup_singleton_eq.
  - cbn [tail]. apply not_elem_of_nil.
  - by rewrite map_size_singleton.
  - intros p _. rewrite map_size_singleton. lia.
Qed.
End Search.

Section Paths.
Implicit Types (p q c : pos) (l : list pos).

Lemma linked_snoc l c p :
  linked l → last l = Some c → adjacent c p → linked (l ++ [p]).
Proof.
  induction l as [|x l IH]; [done|]. intros Hl Hlast Hadj.
  destruct l as [|y l].
  - injection Hlast as ->. by split.
  - destruct Hl as [Hxy Hl]. split; [done|]. by apply IH.
Qed.

Lemma head_snoc l p : l ≠ [] → head (l ++ [p]) = head l.
Proof. by destruct l. Qed.
End Paths.

Section Reconstruct.
Variables (h w : Z) (s e : pos) (g0 : grid).

Lemma reconstruct_Some (fuel : nat) (v : gmap pos (option pos)) c path :
  reconstruct (S fuel) v (Some c) path
  = reconstruct fuel v (dict_get v c) (path ++ [c]).
Proof. done. Qed.

Lemma reconstruct_None (fuel : nat) (v : gmap pos (option pos)) path :
  reconstruct (S fuel) v None path = Ok path.
Proof. done. Qed.

(** Walking the predecessors back from a discovered position reaches the
    entrance; [l] is the walk in entrance-first order. *)
Lemma reconstruct_chain (open : list pos) (lv : pos → nat) (g : grid)
    (v : gmap pos (option pos)) :
  bfs_inv h w s e g0 open lv g v →
  ∀ n p acc fuel, is_Some (v !! p) → lv p = n → (n + 2 ≤ fuel)%nat →
  ∃ l, reconstruct fuel v (Some p) acc = Ok (acc ++ reverse l) ∧
       length l = S n ∧ head l = Some s ∧ last l = Some p ∧ linked l ∧
       (∀ x, x ∈ l → is_Some (v !! x)) ∧
       (∀ i x, l !! i = Some x → lv x = i).
Proof.
  intros I n. induction n as [|n IH]; intros p acc fuel [o Hp] Hlv Hfuel.
  - destruct fuel as [|[|fuel]]; [lia|lia|].
    destruct o as [c|].
    { destruct (inv_seen I p c Hp) as (_ & _ & _ & _ & _ & Hl). lia. }
    exists [p]. rewrite reconstruct_Some. unfold dict_get. rewrite Hp.
    rewrite reconstruct_None.
    rewrite (inv_none I p Hp) in *.
    split_and!; try done.
    + intros x Hx. apply list_elem_of_singleton in Hx as ->.
      destruct (inv_start I) as [Hs _]. by rewrite Hs.
    + intros i x Hi. apply list_lookup_singleton_Some in Hi as [-> <-]. done.
  - destruct fuel as [|fuel]; [lia|].
    destruct o as [c|]; cycle 1.
    { rewrite (inv_none I p Hp) in Hlv.
      destruct (inv_start I). lia. }
    destruct (inv_seen I p c Hp) as (_ & _ & _ & Hadj & Hc & Hl).
    destruct (IH c (acc ++ [p]) fuel Hc)
      as (l & Hrec & Hlen & Hhd & Hlast & Hlink & Hall & Hidx); [lia|lia|].
    exists (l ++ [p]). rewrite reconstruct_Some. unfold dict_get.
    rewrite Hp, Hrec.
    split_and!.
    + by rewrite reverse_snoc, <- app_assoc.
    + rewrite length_app. cbn. lia.
    + rewrite head_snoc; [done|]. by intros ->.
    + by rewrite last_snoc.
    + by eapply linked_snoc.
    + intros x Hx. apply elem_of_app in Hx as [Hx|Hx]; [by apply Hall|].
      apply list_elem_of_singleton in Hx as ->. by rewrite Hp.
    + intros k x Hk. apply lookup_app_Some in Hk as [Hk|[Hge Hk]].
      * by apply Hidx.
      * apply list_lookup_singleton_Some in Hk as [Hk <-]. lia.
Qed.

Lemma reconstruct_missing (v : gmap pos (option pos)) p fuel :
  v !! p = None → (2 ≤ fuel)%nat →
  reconstruct fuel v (Some p) [] = Ok [p].
Proof.
  intros Hp Hfuel. destruct fuel as [|[|fuel]]; [lia|lia|].
  rewrite reconstruct_Some. unfold dict_get. by rewrite Hp.
Qed.

Lemma mark_unfold (g : grid) (p : pos) :
  mark s e g p
  = if decide (p ≠ s ∧ p ≠ e) then grid_set g p.1 p.2 3 else Ok g.
Proof.
  unfold mark. destruct (decide (p ≠ s ∧ p ≠ e)) as [[? ?]|Hn].
  - by rewrite !bool_decide_eq_true_2.
  - destruct (decide (p = s)) as [->|?].
    + by rewrite bool_decide_eq_false_2 by auto.
    + rewrite (bool_decide_eq_false_2 (p ≠ e)); [by rewrite andb_false_r|].
      intros ?. by apply Hn.
Qed.

Lemma mark_all path : ∀ g,
  wf_grid h w g →
  (∀ x, x ∈ path → x ≠ s → x ≠ e → in_bounds h w x) →
  ∃ g', for_each (mark s e) path g = Ok g' ∧ wf_grid h w g' ∧
        ∀ q, cell g' q = if decide (q ∈ path ∧ q ≠ s ∧ q ≠ e)
                         then Some OnPath else cell g q.
Proof.
  induction path as [|x path IH]; intros g Hwf Hin.
  - exists g. split_and!; [done|done|]. intros q.
    rewrite decide_False; [done|]. intros [Hq _]. by apply elem_of_nil in Hq.
  - assert (Hin' : ∀ y, y ∈ path → y ≠ s → y ≠ e → in_bounds h w y).
    { intros y Hy. apply Hin. by apply list_elem_of_further. }
    cbn [for_each]. rewrite mark_unfold.
    destruct (decide (x ≠ s ∧ x ≠ e)) as [[Hxs Hxe]|Hx].
    + assert (Hb : in_bounds h w x) by (apply Hin; [apply list_elem_of_here|done..]).
      destruct (wf_grid_cell h w g x Hwf Hb) as [c Hc].
      destruct x as [x1 x2]. cbn [fst snd].
      rewrite grid_set_cell, Hc by apply Hb. cbn [mbind result_bind].
      destruct (IH (upd g (x1, x2) 3)) as (g' & Hfor & Hwf' & Hcell);
        [by apply wf_grid_upd|done|].
      exists g'. split_and!; try done. intros q. rewrite Hcell.
      rewrite cell_upd by by rewrite Hc.
      destruct (decide (q ∈ path ∧ q ≠ s ∧ q ≠ e)) as [Hq|Hq].
      * rewrite decide_True; [done|]. destruct Hq. split; [|done].
        by apply list_elem_of_further.
      * destruct (decide ((x1, x2) = q)) as [<-|Hne].
        -- rewrite decide_True; [done|]. split; [apply list_elem_of_here|done].
        -- rewrite decide_False; [done|]. intros [Hq' ?].
           apply elem_of_cons in Hq' as [->|Hq']; [done|]. by apply Hq.
    + cbn [mbind result_bind].
      destruct (IH g Hwf Hin') as (g' & Hfor & Hwf' & Hcell).
      exists g'. split_and!; try done. intros q. rewrite Hcell.
      destruct (decide (q ∈ path ∧ q ≠ s ∧ q ≠ e)) as [Hq|Hq].
      * rewrite decide_True; [done|]. destruct Hq. split; [|done].
        by apply list_elem_of_further.
      * rewrite decide_False; [done|]. intros [Hq' [? ?]].
        apply elem_of_cons in Hq' as [->|Hq']; [by apply Hx|]. by apply Hq.
Qed.
End Reconstruct.

Section Solve.
Implicit Types (m : Maze) (p q : pos).

Lemma solve_spec m fuel :
  wf_maze m → (solve_fuel m ≤ fuel)%nat →
  ∃ st lv open m' path, solved m fuel st lv open m' path.
Proof.
  intros Hwf Hfuel. unfold solve_fuel in Hfuel.
  set (h := height m). set (w := width m).
  set (s := start_pos m). set (e := end_pos m).
  pose proof (bfs_inv_init h w s e (maze m) Hwf) as I0.
  destruct (bfs_loop_inv h w s e (maze m) fuel (λ _, 0%nat) (bfs_start m) I0)
    as (st & lv & open & Hloop & I & Hopen & _ & Hdeq).
  { cbn [bfs_start b_maze b_queue length]. lia. }
  assert (Hpathb : ∀ x, is_Some (b_visited st !! x) → x ≠ s → in_bounds h w x).
  { intros x [[c|] Hx] Hxs.
    - by destruct (inv_seen I x c Hx) as (_ & [? _] & _).
    - by apply (inv_none I) in Hx. }
  assert (Hsolve : ∀ rpath g2,
    reconstruct fuel (b_visited st) (Some e) [] = Ok rpath →
    for_each (mark s e) rpath (b_maze st) = Ok g2 →
    solve_sequential fuel m
    = Ok ({| width := w; height := h; maze := g2; start_pos := s; end_pos := e |},
          reverse rpath)).
  { intros rpath g2 Hrec Hmark. unfold solve_sequential.
    fold (bfs_start m). fold h w s e. rewrite Hloop. cbn [mbind result_bind].
    rewrite Hrec. cbn [mbind result_bind]. by rewrite Hmark. }
  destruct (b_visited st !! e) as [o|] eqn:He.
  - destruct (reconstruct_chain h w s e (maze m) open lv _ _ I (lv e) e [] fuel)
      as (l & Hrec & Hlen & Hhd & Hlast & Hlink & Hall & Hlv); [by rewrite He|done| |].
    { pose proof (inv_depth I e) as Hd.
      pose proof (inv_count I) as Hc.
      rewrite He in Hd. specialize (Hd (mk_is_Some _ _ eq_refl)). lia. }
    rewrite app_nil_l in Hrec.
    destruct (mark_all h w s e (reverse l) (b_maze st)) as (g2 & Hmark & Hwf2 & Hcell).
    { apply I. }
    { intros x Hx Hxs _. rewrite elem_of_reverse in Hx. apply Hpathb; [by apply Hall|done]. }
    exists st, lv, open,
      {| width := w; height := h; maze := g2; start_pos := s; end_pos := e |}, l.
    split; try done.
    + rewrite <- (reverse_involutive l). by apply Hsolve.
    + fold e. by rewrite He.
    + intros q. cbn [maze]. rewrite Hcell. fold s e.
      destruct (decide (q ∈ l ∧ q ≠ s ∧ q ≠ e)) as [[Hq ?]|Hq].
      * rewrite decide_True; [done|]. split; [|done]. by rewrite elem_of_reverse.
      * rewrite decide_False; [done|]. intros [Hq' ?]. apply Hq.
        split; [|done]. by rewrite elem_of_reverse in Hq'.
  - pose proof (reconstruct_missing (b_visited st) e fuel He) as Hrec.
    destruct (mark_all h w s e [e] (b_maze st)) as (g2 & Hmark & Hwf2 & Hcell).
    { apply I. }
    { intros x Hx _ Hxe. by apply list_elem_of_singleton in Hx. }
    exists st, lv, open,
      {| width := w; height := h; maze := g2; start_pos := s; end_pos := e |}, [e].
    split; try done.
    + apply (Hsolve [e] g2); [apply Hrec; lia|done].
    + fold e. by rewrite He.
Qed.
End Solve.

Section Routes.
Variables (h w : Z) (g : grid).
Implicit Types (a b p q : pos) (l : list pos).

Lemma linked_nsteps l : ∀ a b,
  linked (a :: l) → Forall (passable h w g) l → last (a :: l) = Some b →
  nsteps (step h w g) (length l) a b.
Proof.
  induction l as [|x l IH]; intros a b Hlink Hpass Hlast.
  - injection Hlast as ->. constructor.
  - destruct Hlink as [Hadj Hlink]. apply Forall_cons in Hpass as [Hx Hpass].
    rewrite last_cons_cons in Hlast.
    eapply nsteps_l; [by split|]. by apply IH.
Qed.
End Routes.

Lemma route_nsteps (m : Maze) (l : list pos) :
  route m l →
  nsteps (step (height m) (width m) (maze m)) (length l - 1)
    (start_pos m) (end_pos m).
Proof.
  intros (Hhd & Hlast & Hlink & Hpass). destruct l as [|a l]; [done|].
  injection Hhd as ->. cbn [length tail] in *.
  replace (S (length l) - 1)%nat with (length l) by lia.
  by apply linked_nsteps.
Qed.

Section Solved.
Context {m : Maze} {fuel : nat} {st : bfs_state} {lv : pos → nat}
  {open : list pos} {m' : Maze} {path : list pos}.
Hypothesis S : solved m fuel st lv open m' path.
Implicit Types (p q : pos).

Lemma solved_found_iff :
  is_Some (b_visited st !! end_pos m) ↔
  ∃ n, nsteps (step (height m) (width m) (maze m)) n (start_pos m) (end_pos m).
Proof.
  split.
  - intros He. eexists. by eapply bfs_level_reach; [apply S|..].
  - intros [n Hn]. by eapply bfs_exit_level; [apply S|apply S|].
Qed.

Lemma solved_visited q c :
  b_visited st !! q = Some (Some c) →
  q ≠ start_pos m ∧ passable (height m) (width m) (maze m) q ∧
  cell (b_maze st) q = Some Visited.
Proof.
  intros Hq.
  by destruct (inv_seen (sol_inv S) q c Hq)
    as (? & ? & ? & _).
Qed.

Lemma solved_visited_ne q :
  is_Some (b_visited st !! q) → q ≠ start_pos m →
  passable (height m) (width m) (maze m) q ∧ cell (b_maze st) q = Some Visited.
Proof.
  intros [[c|] Hq] Hne.
  - by destruct (solved_visited q c Hq) as (_ & ? & ?).
  - by apply (inv_none (sol_inv S)) in Hq.
Qed.

Lemma solved_path_visited q :
  q ∈ path → q ≠ end_pos m → is_Some (b_visited st !! q).
Proof.
  intros Hq Hne. pose proof (sol_path S) as Hp.
  destruct (b_visited st !! end_pos m) as [o|].
  - destruct Hp as (_ & _ & _ & _ & Hall & _). by apply Hall.
  - subst path. by apply list_elem_of_singleton in Hq.
Qed.

(** The cells of the maze after the call, in terms of the search. *)
Lemma solved_cell q :
  cell (maze m') q =
    if decide (q ∈ path ∧ q ≠ start_pos m ∧ q ≠ end_pos m) then Some OnPath
    else if decide (is_Some (b_visited st !! q) ∧ q ≠ start_pos m)
         then Some Visited
         else cell (maze m) q.
Proof.
  rewrite (sol_cell S). case_decide; [done|].
  pose proof (sol_inv S) as I.
  case_decide as Hv.
  - destruct Hv as [Hv Hne]. by apply solved_visited_ne.
  - destruct (b_visited st !! q) as [[c|]|] eqn:Hq.
    + exfalso. apply Hv. split; [done|]. by apply (solved_visited q c).
    + apply (inv_none I) in Hq as ->. apply I.
    + by apply I.
Qed.

(** A cell either keeps its value or is a passage that received a mark. *)
Lemma solved_cell_cases q :
  cell (maze m') q = cell (maze m) q ∨
  (cell (maze m) q = Some Passage ∧
   (cell (maze m') q = Some Visited ∨ cell (maze m') q = Some OnPath)).
Proof.
  rewrite solved_cell. case_decide as Hp; [|case_decide as Hv].
  - right. destruct Hp as (Hq & Hs & He). split; [|by right].
    by apply solved_visited_ne; [apply solved_path_visited|].
  - right. destruct Hv as [Hv Hne]. split; [|by left].
    by apply solved_visited_ne.
  - by left.
Qed.

(** When the exit has been discovered the path is a shortest route. *)
Lemma solved_route :
  is_Some (b_visited st !! end_pos m) →
  route m path ∧ length path = Datatypes.S (lv (end_pos m)).
Proof.
  intros [o He]. pose proof (sol_path S) as Hp.
  rewrite He in Hp. destruct Hp as (Hlen & Hhd & Hlast & Hlink & Hall & Hidx).
  split; [|done]. split_and!; try done.
  apply Forall_forall. intros x Hx.
  apply list_elem_of_lookup in Hx as [i Hi]. rewrite lookup_tail in Hi.
  apply solved_visited_ne.
  - apply Hall. by eapply list_elem_of_lookup_2.
  - intros ->. apply Hidx in Hi.
    destruct (inv_start (sol_inv S)) as [_ H0]. lia.
Qed.

Lemma solved_start_closed :
  start_pos m ≠ end_pos m →
  closed (height m) (width m) (maze m) (b_visited st) lv (start_pos m).
Proof.
  intros Hne. pose proof (sol_inv S) as I.
  assert (Hs : is_Some (b_visited st !! start_pos m)).
  { destruct (inv_start I) as [-> _]. done. }
  destruct (inv_open I (start_pos m) Hs) as [Hin|[_ Hcl]]; [|done].
  exfalso. destruct (sol_open S) as [->|[rest ->]].
  - by apply elem_of_nil in Hin.
  - apply elem_of_cons in Hin as [?|Hin]; [done|].
    by apply (inv_tail I).
Qed.
End Solved.

Section Fuel.
Variables (h w : Z) (e : pos).

(** A run that ended keeps its outcome under a larger budget. *)
Lemma bfs_loop_stable fuel : ∀ st r k,
  bfs_loop fuel h w e st = r → r ≠ OutOfFuel →
  bfs_loop (fuel + k) h w e st = r.
Proof.
  induction fuel as [|fuel IH]; intros st r k Hr Hne.
  - cbn in Hr. congruence.
  - change (S fuel + k)%nat with (S (fuel + k)).
    rewrite bfs_loop_S in Hr |- *.
    destruct (b_queue st) as [|c rest]; [done|]. cbn zeta in *.
    destruct (decide (c = e)); [done|].
    destruct (for_each (visit h w c) solve_directions _) as [st'| |]; try done.
    cbn [mbind result_bind] in *. by apply IH.
Qed.

Lemma reconstruct_stable fuel : ∀ (v : gmap pos (option pos)) cur acc r k,
  reconstruct fuel v cur acc = r → r ≠ OutOfFuel →
  reconstruct (fuel + k) v cur acc = r.
Proof.
  induction fuel as [|fuel IH]; intros v cur acc r k Hr Hne.
  - cbn in Hr. congruence.
  - change (S fuel + k)%nat with (S (fuel + k)).
    destruct cur as [c|].
    + rewrite reconstruct_Some in Hr |- *. by apply IH.
    + by rewrite reconstruct_None in Hr |- *.
Qed.
End Fuel.

Lemma solve_stable (m : Maze) (fuel k : nat) r :
  solve_sequential fuel m = r → r ≠ OutOfFuel →
  solve_sequential (fuel + k) m = r.
Proof.
  unfold solve_sequential. intros Hr Hne.
  destruct (bfs_loop fuel _ _ _ _) as [st|x|] eqn:Hloop;
    cbn [mbind result_bind] in Hr; [| |by subst].
  2: { by rewrite (bfs_loop_stable _ _ _ fuel _ (Raise x) k Hloop). }
  rewrite (bfs_loop_stable _ _ _ fuel _ (Ok st) k Hloop) by done.
  cbn [mbind result_bind].
  destruct (reconstruct fuel _ _ _) as [p| |] eqn:Hrec;
    cbn [mbind result_bind] in Hr.
  - rewrite (reconstruct_stable fuel _ _ _ (Ok p) k Hrec) by done. done.
  - rewrite (reconstruct_stable fuel _ _ _ (Raise e) k Hrec) by done. done.
  - by subst.
Qed.

(** On a well-formed maze the search never raises, whatever the budget. *)
Lemma solve_no_raise (m : Maze) (fuel : nat) (x : exn) :
  wf_maze m → solve_sequential fuel m ≠ Raise x.
Proof.
  intros Hwf Hr.
  apply (solve_stable m fuel (solve_fuel m)) in Hr; [|done].
  destruct (solve_spec m (fuel + solve_fuel m) Hwf) as (st & lv & open & m' & path & S);
    [lia|].
  rewrite (sol_result S) in Hr. done.
Qed.

Lemma for_each_id {A S : Type} (body : S → A → result S) (l : list A) (s : S) :
  (∀ x, x ∈ l → body s x = Ok s) → for_each body l s = Ok s.
Proof.
  induction l as [|x l IH]; intros Hid; [done|].
  cbn [for_each]. rewrite Hid by apply list_elem_of_here.
  cbn [mbind result_bind]. apply IH. intros y Hy. by apply Hid, list_elem_of_further.
Qed.

(** A second call finds every neighbour of the entrance marked: it returns
    the exit alone and changes nothing. *)
Lemma solve_again (m : Maze) (fuel : nat) (st : bfs_state) (lv : pos → nat)
    (open : list pos) (m' : Maze) (path : list pos) (fuel' : nat) :
  solved m fuel st lv open m' path →
  start_pos m ≠ end_pos m → (2 ≤ fuel')%nat →
  solve_sequential fuel' m' = Ok (m', [end_pos m]).
Proof.
  intros S Hne Hfuel.
  pose proof (sol_frame S) as (Hw & Hh & Hs & He).
  pose proof (sol_wf S) as Hwf'. unfold wf_maze in Hwf'.
  pose proof (solved_start_closed S Hne) as Hcl.
  set (st0 := {| b_maze := maze m'; b_queue := [];
                 b_visited := {[ start_pos m' := None ]} |}).
  assert (Hvisit : ∀ d, d ∈ solve_directions →
            visit (height m') (width m') (start_pos m') st0 d = Ok st0).
  { intros d Hd. rewrite visit_unfold by done.
    rewrite decide_False; [done|]. intros (Hb & Hc & Hv).
    cbn [st0 b_maze b_visited] in Hc, Hv. rewrite Hh, Hw, Hs in *.
    set (nb := nb_of (start_pos m) d) in *.
    assert (Hadj : adjacent (start_pos m) nb) by by apply adjacent_nb_of.
    rewrite (solved_cell S) in Hc.
    case_decide; [done|]. case_decide as Hvis; [done|].
    destruct (Hcl nb) as [Hnbv _]; [by split|].
    apply Hvis. split; [done|]. intros Heq. by apply adjacent_ne in Hadj. }
  unfold solve_sequential. destruct fuel' as [|[|f]]; [lia|lia|].
  rewrite bfs_loop_S. cbn [b_queue]. cbn zeta.
  rewrite decide_False by (rewrite Hs, He; done).
  fold st0. rewrite for_each_id by done. cbn [mbind result_bind].
  rewrite bfs_loop_S. cbn [st0 b_queue b_visited b_maze mbind result_bind].
  rewrite reconstruct_missing; [|apply lookup_singleton_ne; by rewrite Hs, He|lia].
  cbn [mbind result_bind for_each]. rewrite mark_unfold.
  rewrite decide_False by (intros [_ ?]; done). cbn [mbind result_bind].
  rewrite <- He. by destruct m'.
Qed.

Section Reference.
Variables (h w : Z) (g : grid) (s e : pos).
Implicit Types (p q : pos) (seen frontier : list pos).

Lemma layer_inv_init : layer_inv h w g s [s] [s] 0.
Proof.
  split; intros p; rewrite list_elem_of_singleton.
  - split.
    + intros ->. split; [constructor|]. intros k _. lia.
    + intros [Hn _]. by inversion Hn.
  - split.
    + intros ->. exists 0%nat. split; [done|]. constructor.
    + intros (k & Hk & Hn). assert (k = 0%nat) as -> by lia. by inversion Hn.
Qed.

Lemma elem_of_next_layer seen frontier p :
  p ∈ next_layer h w g seen frontier ↔
  passable h w g p ∧ (p ∉ seen) ∧ ∃ q, q ∈ frontier ∧ adjacent q p.
Proof.
  unfold next_layer. rewrite elem_of_remove_dups, list_elem_of_filter.
  rewrite list_elem_of_bind. unfold neighbours. split.
  - intros [[Hp Hs] (q & Hq & Hf)]. split_and!; try done.
    apply list_elem_of_fmap in Hq as (d & -> & Hd).
    exists q. split; [done|]. by apply adjacent_nb_of.
  - intros (Hp & Hs & q & Hf & Hadj). split; [done|].
    exists q. split; [|done].
    apply adjacent_inv in Hadj as (d & Hd & ->). by apply list_elem_of_fmap_2.
Qed.

Lemma layer_inv_next seen frontier depth :
  layer_inv h w g s seen frontier depth →
  layer_inv h w g s (next_layer h w g seen frontier ++ seen)
    (next_layer h w g seen frontier) (S depth).
Proof.
  intros [Hfront Hseen].
  assert (Hnext : ∀ p, p ∈ next_layer h w g seen frontier
                       ↔ at_level h w g s (S depth) p).
  { intros p. rewrite elem_of_next_layer. split.
    - intros (Hp & Hs & q & Hq & Hadj). apply Hfront in Hq as [Hq _]. split.
      + eapply nsteps_r; [exact Hq|]. by split.
      + intros k Hk. destruct (decide (S depth ≤ k)%nat); [done|].
        exfalso. apply Hs, Hseen. exists k. split; [lia|done].
    - intros [Hn Hmin]. apply nsteps_inv_r in Hn as (q & Hq & Hadj & Hp).
      split_and!; [done| |].
      + intros Hs. apply Hseen in Hs as (k & Hk & Hn). apply Hmin in Hn. lia.
      + exists q. split; [|done]. apply Hfront. split; [done|].
        intros k Hk. destruct (decide (depth ≤ k)%nat); [done|]. exfalso.
        assert (Hn : nsteps (step h w g) (S k) s p).
        { eapply nsteps_r; [exact Hk|]. by split. }
        apply Hmin in Hn. lia. }
  split; [done|]. intros p. rewrite elem_of_app, Hnext. split.
  - intros [[Hn _]|Hs].
    + by exists (S depth).
    + apply Hseen in Hs as (k & Hk & Hn). exists k. split; [lia|done].
  - intros (k & Hk & Hn).
    destruct (decide (p ∈ seen)) as [Hs|Hs]; [by right|].
    assert (Hmin : ∀ k', nsteps (step h w g) k' s p → (S depth ≤ k')%nat).
    { intros k' Hk'. destruct (decide (S depth ≤ k')%nat); [done|].
      exfalso. apply Hs, Hseen. exists k'. split; [lia|done]. }
    left. split; [|done]. pose proof (Hmin k Hn).
    by assert (k = S depth) as <- by lia.
Qed.

Lemma at_level_unique n n' p :
  at_level h w g s n p → at_level h w g s n' p → n = n'.
Proof.
  intros [Hn Hmin] [Hn' Hmin']. apply Hmin in Hn'. apply Hmin' in Hn. lia.
Qed.

Lemma ref_layers_unfold fuel seen frontier depth :
  ref_layers fuel h w g e seen frontier depth =
    if decide (e ∈ frontier) then Some depth
    else match fuel with
         | O => None
         | S fuel' =>
           match next_layer h w g seen frontier with
           | [] => None
           | next => ref_layers fuel' h w g e (next ++ seen) next (S depth)
           end
         end.
Proof. by destruct fuel. Qed.

(** The reference search returns the least number of steps to [e]. *)
Lemma ref_layers_spec fuel : ∀ seen frontier depth n,
  layer_inv h w g s seen frontier depth →
  at_level h w g s n e → (depth ≤ n)%nat → (n - depth ≤ fuel)%nat →
  ref_layers fuel h w g e seen frontier depth = Some n.
Proof.
  induction fuel as [|fuel IH]; intros seen frontier depth n J He Hle Hfuel;
    rewrite ref_layers_unfold; destruct (decide (e ∈ frontier)) as [Hin|Hnin];
    try (apply (li_front J) in Hin;
         by rewrite (at_level_unique _ _ _ Hin He)).
  - exfalso. apply Hnin, (li_front J).
    by assert (depth = n) as -> by lia.
  - assert (Hlt : (depth < n)%nat).
    { destruct (decide (depth = n)) as [->|]; [|lia].
      exfalso. by apply Hnin, (li_front J). }
    pose proof He as [Hn Hmin].
    assert (Hsplit : (n = S depth + (n - S depth))%nat) by lia.
    rewrite Hsplit in Hn. apply nsteps_add_inv in Hn as (y & Hy & Hye).
    assert (Hylev : at_level h w g s (S depth) y).
    { split; [done|]. intros k Hk.
      pose proof (Hmin _ (nsteps_trans _ _ _ _ _ Hk Hye)). lia. }
    pose proof (layer_inv_next _ _ _ J) as J'.
    apply (li_front J') in Hylev.
    destruct (next_layer h w g seen frontier) as [|x next] eqn:Hnext.
    { by apply elem_of_nil in Hylev. }
    cbn zeta. apply IH; [done|done|lia|lia].
Qed.
End Reference.

(** The reference search agrees with the level of the exit in the search
    of [solve_sequential]. *)
Lemma ref_depth_solved {m : Maze} {fuel : nat} {st : bfs_state} {lv : pos → nat}
    {open : list pos} {m' : Maze} {path : list pos} :
  solved m fuel st lv open m' path →
  is_Some (b_visited st !! end_pos m) →
  ref_depth m = Some (lv (end_pos m)).
Proof.
  intros S He. pose proof (sol_inv S) as I.
  unfold ref_depth. apply (ref_layers_spec _ _ _ (start_pos m)).
  - apply layer_inv_init.
  - split.
    + by eapply bfs_level_reach.
    + intros k Hk. by eapply bfs_exit_level; [exact I|apply S|].
  - lia.
  - pose proof (inv_depth I _ He).
    pose proof (inv_count I). lia.
Qed.

(** ** The queue when the search loop ends *)

Section Queue.
Variables (h w : Z) (s e : pos) (g0 : grid).
Implicit Types (p q c : pos) (st : bfs_state).

(** The search loop, with what is left of the queue: the open list of
    the invariant is the queue itself when it ran dry, and the exit
    followed by the queue at the [break]. *)
Lemma bfs_loop_queue fuel : ∀ lv st,
  bfs_inv h w s e g0 (b_queue st) lv (b_maze st) (b_visited st) →
  (count0 (b_maze st) + length (b_queue st) < fuel)%nat →
  ∃ st' lv' open,
    bfs_loop fuel h w e st = Ok st' ∧
    bfs_inv h w s e g0 open lv' (b_maze st') (b_visited st') ∧
    ((open = [] ∧ b_queue st' = []) ∨ open = e :: b_queue st').
Proof.
  induction fuel as [|fuel IH]; intros lv st I Hfuel; [lia|].
  rewrite bfs_loop_S.
  destruct (b_queue st) as [|c rest] eqn:Hq.
  - exists st, lv, []. split_and!; [done|done|]. by left.
  - cbn zeta.
    destruct (decide (c = e)) as [->|Hce].
    + eexists _, lv, (e :: rest). split_and!; [done|exact I|by right].
    + set (st0 := {| b_maze := b_maze st; b_queue := rest; b_visited := b_visited st |}).
      destruct (expand_inv h w s e g0 c lv st0 Hce I) as (st' & lv' & Hf & I' & Hm & _).
      rewrite Hf. cbn [mbind result_bind].
      apply (IH lv' st' I').
      cbn [b_maze b_queue st0 length] in Hm, Hfuel. lia.
Qed.

(** One neighbour test appends to the queue what it adds to [visited]. *)
Lemma visit_queue c st d :
  wf_grid h w (b_maze st) →
  ∃ st',
    visit h w c st d = Ok st' ∧ wf_grid h w (b_maze st') ∧
    (∀ q, q ∈ b_queue st → q ∈ b_queue st') ∧
    (∀ q, is_Some (b_visited st' !! q) →
          is_Some (b_visited st !! q) ∨ q ∈ b_queue st').
Proof.
  intros Hwf. rewrite visit_unfold by done.
  destruct (decide (fresh_passage h w st (nb_of c d))) as [Hf|Hn].
  - eexists. split; [done|]. unfold discover. cbn [b_maze b_queue b_visited].
    split_and!.
    + by apply wf_grid_upd.
    + intros q Hq. apply elem_of_app. by left.
    + intros q Hq. apply lookup_insert_is_Some in Hq as [<-|[_ Hq]]; [|by left].
      right. apply elem_of_app. right. apply list_elem_of_here.
  - exists st. split_and!; try done. intros q Hq. by left.
Qed.

Lemma visits_queue c ds : ∀ st,
  wf_grid h w (b_maze st) →
  ∃ st',
    for_each (visit h w c) ds st = Ok st' ∧ wf_grid h w (b_maze st') ∧
    (∀ q, q ∈ b_queue st → q ∈ b_queue st') ∧
    (∀ q, is_Some (b_visited st' !! q) →
          is_Some (b_visited st !! q) ∨ q ∈ b_queue st').
Proof.
  induction ds as [|d ds IH]; intros st Hwf.
  - exists st. split_and!; try done. intros q Hq. by left.
  - destruct (visit_queue c st d Hwf) as (st1 & Hv & Hwf1 & Hq1 & Hk1).
    destruct (IH st1 Hwf1) as (st2 & Hf & Hwf2 & Hq2 & Hk2).
    exists st2. split_and!.
    + cbn [for_each]. rewrite Hv. cbn [mbind result_bind]. exact Hf.
    + done.
    + intros q Hq. by apply Hq2, Hq1.
    + intros q Hq. destruct (Hk2 q Hq) as [Hq'|Hq']; [|by right].
      destruct (Hk1 q Hq') as [?|?]; [by left|]. right. by apply Hq2.
Qed.

(** Every key of [visited] has been on the queue: when the loop ends it
    has been taken from the queue or is still in it. *)
Lemma bfs_loop_enqueued fuel : ∀ st st',
  wf_grid h w (b_maze st) →
  bfs_loop fuel h w e st = Ok st' →
  ∀ q, is_Some (b_visited st' !! q) →
    (is_Some (b_visited st !! q) ∧ q ∉ b_queue st) ∨
    q ∈ bfs_dequeued fuel h w e st ∨ q ∈ b_queue st'.
Proof.
  induction fuel as [|fuel IH]; intros st st' Hwf Hloop q Hq; [done|].
  rewrite bfs_loop_S in Hloop. rewrite bfs_dequeued_S.
  destruct (b_queue st) as [|c rest] eqn:Hqueue.
  - injection Hloop as <-. left. split; [done|]. apply not_elem_of_nil.
  - cbn zeta in *.
    destruct (decide (c = e)) as [->|Hce].
    + injection Hloop as <-. cbn [b_visited b_queue] in *.
      destruct (decide (q ∈ e :: rest)) as [Hin|Hout]; [|by left].
      apply elem_of_cons in Hin as [->|Hin].
      * right. left. apply list_elem_of_here.
      * right. by right.
    + set (st0 := {| b_maze := b_maze st; b_queue := rest;
                     b_visited := b_visited st |}) in *.
      destruct (visits_queue c solve_directions st0 Hwf)
        as (st1 & Hf & Hwf1 & Hq1 & Hk1).
      rewrite Hf in Hloop |- *. cbn [mbind result_bind] in Hloop.
      destruct (IH st1 st' Hwf1 Hloop q Hq) as [[Hv1 Hn1]|[Hd|Hin]].
      * destruct (Hk1 q Hv1) as [Hv0|?]; [|done].
        cbn [st0 b_visited] in Hv0.
        destruct (decide (q = c)) as [->|Hqc].
        { right. left. apply list_elem_of_here. }
        left. split; [done|]. intros Hin.
        apply elem_of_cons in Hin as [?|Hin]; [done|].
        apply Hn1, Hq1. by cbn [st0 b_queue].
      * right. left. by apply list_elem_of_further.
      * right. by right.
Qed.
End Queue.

(** The queue and the keys of [visited] when the search of
    [solve_sequential] ends. *)
Lemma solve_queue (m : Maze) (fuel : nat) (st : bfs_state) :
  wf_maze m → (solve_fuel m ≤ fuel)%nat →
  bfs_loop fuel (height m) (width m) (end_pos m) (bfs_start m) = Ok st →
  (∀ q, q ∈ b_queue st →
        is_Some (b_visited st !! q) ∧ q ≠ start_pos m) ∧
  (∀ q, is_Some (b_visited st !! q) →
        q ∈ bfs_dequeued fuel (height m) (width m) (end_pos m) (bfs_start m) ∨
        q ∈ b_queue st).
Proof.
  intros Hwf Hfuel Hloop. unfold solve_fuel in Hfuel. split.
  - pose proof (bfs_inv_init (height m) (width m) (start_pos m) (end_pos m)
                  (maze m) Hwf) as I0.
    destruct (bfs_loop_queue (height m) (width m) (start_pos m) (end_pos m)
                (maze m) fuel (λ _, 0%nat) (bfs_start m) I0)
      as (st' & lv & open & Hloop' & I & Hopen).
    { cbn [bfs_start b_maze b_queue length]. lia. }
    rewrite Hloop in Hloop'. injection Hloop' as <-.
    intros q Hq. destruct Hopen as [[_ Hempty]|Hopen].
    { rewrite Hempty in Hq. by apply elem_of_nil in Hq. }
    split.
    + apply (inv_queue I). rewrite Hopen. by apply list_elem_of_further.
    + intros ->. apply (inv_tail I). by rewrite Hopen.
  - intros q Hq.
    destruct (bfs_loop_enqueued (height m) (width m) (end_pos m) fuel
                (bfs_start m) st Hwf Hloop q Hq) as [[Hs Hn]|[?|?]];
      [|by left|by right].
    exfalso. cbn [bfs_start b_visited b_queue] in Hs, Hn.
    destruct Hs as [o Hs]. apply lookup_singleton_Some in Hs as [<- _].
    apply Hn. apply list_elem_of_here.
Qed.


(** * The generator *)

Section GridShape.
Implicit Types (g : grid) (p q : pos).

Lemma cell_of_nat g (i j : nat) :
  cell g (Z.of_nat i, Z.of_nat j) = (g !! i) ≫= (.!! j).
Proof.
  unfold cell. cbn [fst snd].
  rewrite (proj2 (Z.leb_le 0 (Z.of_nat i))), (proj2 (Z.leb_le 0 (Z.of_nat j))) by lia.
  cbn [andb]. by rewrite !Nat2Z.id.
Qed.

(** Two grids of the same shape with the same cells are equal. *)
Lemma grid_ext h w g g' :
  wf_grid h w g → wf_grid h w g' →
  (∀ p, in_bounds h w p → cell g p = cell g' p) → g = g'.
Proof.
  intros [Hlen Hrows] [Hlen' Hrows'] Hcell.
  rewrite Forall_lookup in Hrows. rewrite Forall_lookup in Hrows'.
  apply list_eq. intros i.
  destruct (g !! i) as [r|] eqn:Hr; cycle 1.
  { symmetry. apply lookup_ge_None. apply lookup_ge_None in Hr. lia. }
  destruct (lookup_lt_is_Some_2 g' i) as [r' Hr'].
  { apply lookup_lt_Some in Hr. lia. }
  rewrite Hr'. f_equal. apply list_eq. intros j.
  destruct (decide (j < Z.to_nat w)%nat) as [Hj|Hj].
  - specialize (Hcell (Z.of_nat i, Z.of_nat j)).
    rewrite !cell_of_nat, Hr, Hr' in Hcell. apply Hcell.
    apply lookup_lt_Some in Hr. unfold in_bounds. cbn [fst snd]. lia.
  - rewrite !lookup_ge_None_2; [done|..].
    + rewrite (Hrows' _ _ Hr'). lia.
    + rewrite (Hrows _ _ Hr). lia.
Qed.

Lemma wf_all_walls w h : wf_grid h w (all_walls w h).
Proof.
  split; [apply length_replicate|].
  apply Forall_replicate, length_replicate.
Qed.

Lemma cell_all_walls w h p :
  in_bounds h w p → cell (all_walls w h) p = Some (-1).
Proof.
  intros [[H1 H1'] [H2 H2']]. unfold cell, all_walls.
  rewrite (proj2 (Z.leb_le 0 p.1) H1), (proj2 (Z.leb_le 0 p.2) H2).
  cbn [andb]. rewrite lookup_replicate_2 by lia. cbn.
  apply lookup_replicate_2. lia.
Qed.

Lemma for_each_cons {A S : Type} (body : S → A → result S) x l s :
  for_each body (x :: l) s = body s x ≫= for_each body l.
Proof. done. Qed.

Lemma reset_cols h w i (js : list Z) : ∀ g,
  wf_grid h w g → 0 ≤ i < h → (∀ j, j ∈ js → 0 ≤ j < w) →
  ∃ g', for_each (λ g' j, grid_set g' i j (-1)) js g = Ok g' ∧
        wf_grid h w g' ∧
        ∀ q, cell g' q = if decide (q.1 = i ∧ q.2 ∈ js)
                         then Some (-1) else cell g q.
Proof.
  induction js as [|j js IH]; intros g Hwf Hi Hjs.
  - exists g. split_and!; [done|done|]. intros q.
    rewrite decide_False; [done|]. intros [_ Hq]. by apply elem_of_nil in Hq.
  - assert (Hj : 0 ≤ j < w) by apply Hjs, list_elem_of_here.
    rewrite for_each_cons.
    destruct (wf_grid_cell h w g (i, j) Hwf) as [c Hc]; [by split|].
    rewrite grid_set_cell, Hc by lia. cbn [mbind result_bind].
    destruct (IH (upd g (i, j) (-1))) as (g' & Hfor & Hwf' & Hcell).
    { by apply wf_grid_upd. } { done. }
    { intros j' Hj'. by apply Hjs, list_elem_of_further. }
    exists g'. split_and!; [done|done|]. intros q. rewrite Hcell.
    rewrite cell_upd by by rewrite Hc.
    destruct (decide (q.1 = i ∧ q.2 ∈ js)) as [[Hq1 Hq2]|Hq].
    + rewrite decide_True; [done|]. split; [done|]. by apply list_elem_of_further.
    + destruct (decide ((i, j) = q)) as [<-|Hne].
      * rewrite decide_True; [done|]. split; [done|]. apply list_elem_of_here.
      * rewrite decide_False; [done|]. intros [Hq1 Hq2].
        apply elem_of_cons in Hq2 as [Hq2|Hq2].
        -- apply Hne. destruct q. cbn in *. congruence.
        -- by apply Hq.
Qed.

Lemma reset_rows h w (rows : list Z) : ∀ g,
  wf_grid h w g → (∀ i, i ∈ rows → 0 ≤ i < h) →
  ∃ g', for_each (reset_row w) rows g = Ok g' ∧
        wf_grid h w g' ∧
        ∀ q, cell g' q = if decide (q.1 ∈ rows ∧ 0 ≤ q.2 < w)
                         then Some (-1) else cell g q.
Proof.
  induction rows as [|i rows IH]; intros g Hwf Hrows.
  - exists g. split_and!; [done|done|]. intros q.
    rewrite decide_False; [done|]. intros [Hq _]. by apply elem_of_nil in Hq.
  - assert (Hi : 0 ≤ i < h) by apply Hrows, list_elem_of_here.
    rewrite for_each_cons.
    destruct (reset_cols h w i (seqZ 0 w) g Hwf Hi) as (g1 & Hfor1 & Hwf1 & Hcell1).
    { intros j Hj. apply elem_of_seqZ in Hj. lia. }
    change (reset_row w g i)
      with (for_each (λ g' j, grid_set g' i j (-1)) (seqZ 0 w) g).
    rewrite Hfor1. cbn [mbind result_bind].
    destruct (IH g1 Hwf1) as (g' & Hfor & Hwf' & Hcell).
    { intros i' Hi'. by apply Hrows, list_elem_of_further. }
    exists g'. split_and!; [done|done|]. intros q. rewrite Hcell, Hcell1.
    destruct (decide (q.1 ∈ rows ∧ 0 ≤ q.2 < w)) as [[Hq1 Hq2]|Hq].
    + rewrite decide_True; [done|]. split; [|done]. by apply list_elem_of_further.
    + destruct (decide (q.1 = i ∧ q.2 ∈ seqZ 0 w)) as [[Hq1 Hq2]|Hq'].
      * apply elem_of_seqZ in Hq2. rewrite decide_True; [done|].
        split; [|lia]. rewrite Hq1. apply list_elem_of_here.
      * rewrite decide_False; [done|]. intros [Hq1 Hq2].
        apply elem_of_cons in Hq1 as [Hq1|Hq1].
        -- apply Hq'. split; [done|]. apply elem_of_seqZ. lia.
        -- by apply Hq.
Qed.

Lemma reset_all h w g :
  wf_grid h w g →
  for_each (reset_row w) (seqZ 0 h) g = Ok (all_walls w h).
Proof.
  intros Hwf.
  destruct (reset_rows h w (seqZ 0 h) g Hwf) as (g' & Hfor & Hwf' & Hcell).
  { intros i Hi. apply elem_of_seqZ in Hi. lia. }
  rewrite Hfor. f_equal. apply (grid_ext h w); [done|apply wf_all_walls|].
  intros p Hp. rewrite Hcell, cell_all_walls by done.
  rewrite decide_True; [done|]. destruct Hp as [Hp1 Hp2].
  split; [|done]. apply elem_of_seqZ. lia.
Qed.
End GridShape.

Section Carving.
Context {rng : Type}.
Variable shuffle : rng → list (Z * Z) → list (Z * Z) * rng.
Hypothesis shuffle_perm : ∀ r l, (shuffle r l).1 ≡ₚ l.
Variables h w : Z.
Implicit Types (st : @gen_state rng) (g : grid) (p q c : pos) (d : Z * Z).

Lemma interior_in_bounds p : interior h w p → in_bounds h w p.
Proof. unfold interior, in_bounds. lia. Qed.

Lemma carve_guard_spec x y :
  (0 <? x) && (x <? h - 1) && (0 <? y) && (y <? w - 1) = true
  ↔ interior h w (x, y).
Proof.
  unfold interior. cbn [fst snd].
  rewrite !andb_true_iff, !Z.ltb_lt. tauto.
Qed.

Lemma scan_unfold g c acc d :
  wf_grid h w g →
  scan h w g c acc d = Ok (acc ++ option_list (pick h w g c d)).
Proof.
  intros Hwf. unfold scan, pick, nb_of. cbn [fst snd].
  set (nx := c.1 + d.1). set (ny := c.2 + d.2).
  destruct ((0 <? nx) && (nx <? h - 1) && (0 <? ny) && (ny <? w - 1)) eqn:Hg.
  - apply carve_guard_spec in Hg.
    pose proof (interior_in_bounds _ Hg) as Hb.
    destruct (wf_grid_cell h w g (nx, ny) Hwf Hb) as [v Hv].
    rewrite grid_get_cell, Hv by apply Hb. cbn [mbind result_bind].
    destruct (Z.eqb_spec v (-1)) as [->|Hne].
    + by rewrite decide_True.
    + rewrite decide_False; [by rewrite app_nil_r|].
      intros [_ ?]. congruence.
  - rewrite decide_False; [by rewrite app_nil_r|].
    intros [Hi _]. apply carve_guard_spec in Hi. congruence.
Qed.

Lemma scan_all g c dirs : ∀ acc,
  wf_grid h w g →
  for_each (scan h w g c) dirs acc = Ok (acc ++ omap (pick h w g c) dirs).
Proof.
  induction dirs as [|d dirs IH]; intros acc Hwf.
  - by rewrite app_nil_r.
  - rewrite for_each_cons, scan_unfold by done. cbn [mbind result_bind].
    rewrite IH by done. f_equal. rewrite <- app_assoc. f_equal.
    cbn [omap list_omap]. by destruct (pick h w g c d).
Qed.

(** Each carving direction is twice a unit step, and [//] halves it. *)
Lemma carve_dir_half d :
  d ∈ carve_directions →
  d.1 = 2 * (d.1 `div` 2) ∧ d.2 = 2 * (d.2 `div` 2) ∧
  Z.abs (d.1 `div` 2) + Z.abs (d.2 `div` 2) = 1.
Proof.
  unfold carve_directions. rewrite !elem_of_cons, elem_of_nil.
  intros [->|[->|[->|[->|[]]]]]; by vm_compute.
Qed.

Lemma step_mono g g' p q :
  (∀ x, cell g x = Some Passage → cell g' x = Some Passage) →
  step h w g p q → step h w g' p q.
Proof. intros Hm [Hadj [Hb Hc]]. split; [done|]. split; [done|]. by apply Hm. Qed.

Lemma reach_mono g g' p q :
  (∀ x, cell g x = Some Passage → cell g' x = Some Passage) →
  rtc (step h w g) p q → rtc (step h w g') p q.
Proof. intros Hm. apply rtc_subrel. intros x y. by apply step_mono. Qed.

Lemma carve_step_empty st :
  g_stack st = [] → carve_step shuffle h w st = Ok None.
Proof. intros Hs. unfold carve_step. by rewrite Hs. Qed.

(** One iteration on a non-empty stack: either a backtrack or a push of a
    wall cell of the coarse lattice, which is carved. *)
Lemma carve_step_inv st c :
  gen_inv h w st → last (g_stack st) = Some c →
  ∃ st',
    carve_step shuffle h w st = Ok (Some st') ∧
    gen_inv h w st' ∧
    (carve_measure st' < carve_measure st)%nat ∧
    (∀ p, cell (g_maze st) p = Some Passage →
          cell (g_maze st') p = Some Passage) ∧
    ((g_stack st' = removelast (g_stack st) ∧ g_maze st' = g_maze st) ∨
     (∃ nb, g_stack st' = g_stack st ++ [nb] ∧
            cell (g_maze st) nb = Some Wall ∧
            cell (g_maze st') nb = Some Passage ∧ coarse h w nb)).
Proof.
  intros I Hlast.
  destruct I as [Hdirs Hwf Hcells Hint Hstack Hdone Hconn Horig Hbelow].
  pose proof Hlast as Hsplit. apply last_Some in Hsplit as [stk Hstk].
  assert (Hc : coarse h w c ∧ cell (g_maze st) c = Some Passage).
  { apply Hstack. rewrite Hstk. apply elem_of_app. right. apply list_elem_of_here. }
  destruct Hc as [[Hci (i & j & Hcij)] Hcc].
  unfold carve_step. rewrite Hlast.
  pose proof (shuffle_perm (g_rng st) (g_dirs st)) as Hperm.
  destruct (shuffle (g_rng st) (g_dirs st)) as [dirs r]. cbn [fst] in Hperm.
  assert (Hperm' : dirs ≡ₚ carve_directions) by (by rewrite Hperm).
  rewrite scan_all by done. cbn [mbind result_bind app].
  destruct (omap (pick h w (g_maze st) c) dirs) as [|[[[nx ny] wx] wy] rest] eqn:Hn.
  - (* backtrack *)
    eexists. split; [done|]. split_and!.
    + split; cbn [g_maze g_stack g_dirs]; try done.
      * intros p Hp. apply Hstack. rewrite Hstk in Hp |- *.
        rewrite removelast_last in Hp. apply elem_of_app. by left.
      * intros p Hpc Hpp. rewrite Hstk, removelast_last.
        destruct (Hdone p Hpc Hpp) as [Hin|Hcl]; [|by right].
        rewrite Hstk in Hin. apply elem_of_app in Hin as [Hin|Hin]; [by left|].
        apply list_elem_of_singleton in Hin as ->. right.
        intros d Hd [Hnbi _].
        destruct (wf_grid_cell h w (g_maze st) (nb_of c d) Hwf) as [v Hv];
          [by apply interior_in_bounds|].
        destruct (Hcells _ _ Hv) as [-> | ->]; [|done]. exfalso.
        assert (Hpick : pick h w (g_maze st) c d
                        = Some ((nb_of c d).1, (nb_of c d).2, d.1 `div` 2, d.2 `div` 2)).
        { unfold pick. by rewrite decide_True. }
        assert (Hd' : d ∈ dirs) by (by rewrite Hperm').
        assert (Hin : ((nb_of c d).1, (nb_of c d).2, d.1 `div` 2, d.2 `div` 2)
                      ∈ omap (pick h w (g_maze st) c) dirs).
        { apply list_elem_of_omap. by exists d. }
        rewrite Hn in Hin. by apply elem_of_nil in Hin.
    + unfold carve_measure. cbn [g_maze g_stack]. rewrite Hstk, removelast_last.
      rewrite length_app. cbn [length]. lia.
    + done.
    + by left.
  - (* push *)
    assert (Hin : (nx, ny, wx, wy) ∈ omap (pick h w (g_maze st) c) dirs)
      by (rewrite Hn; apply list_elem_of_here).
    apply list_elem_of_omap in Hin as (d & Hd & Hpick).
    unfold pick in Hpick. case_decide as Hnb; [|done].
    destruct Hnb as [Hnbi Hnbc]. injection Hpick as <- <- <- <-.
    assert (Hdc : d ∈ carve_directions) by (by rewrite <- Hperm').
    destruct (carve_dir_half d Hdc) as (Hd1 & Hd2 & Habs).
    set (wx := d.1 `div` 2) in *. set (wy := d.2 `div` 2) in *.
    set (nb := nb_of c d) in *.
    set (wl := (c.1 + wx, c.2 + wy)).
    assert (Hnb1 : nb.1 = c.1 + 2 * wx) by (unfold nb, nb_of; cbn [fst]; lia).
    assert (Hnb2 : nb.2 = c.2 + 2 * wy) by (unfold nb, nb_of; cbn [snd]; lia).
    assert (Hwli : interior h w wl).
    { unfold interior in *. unfold wl. cbn [fst snd]. lia. }
    assert (Hwlnb : wl ≠ nb).
    { intros Heq. apply (f_equal fst) in Heq as Heq1. apply (f_equal snd) in Heq.
      unfold wl in Heq, Heq1. cbn [fst snd] in Heq, Heq1. lia. }
    set (g := g_maze st) in *.
    destruct (wf_grid_cell h w g wl Hwf (interior_in_bounds _ Hwli)) as [v1 Hv1].
    change (c.1 + wx) with wl.1. change (c.2 + wy) with wl.2.
    rewrite grid_set_cell by (unfold interior in Hwli; lia).
    replace (wl.1, wl.2) with wl by done. rewrite Hv1. cbn [mbind result_bind].
    set (g1 := upd g wl 0).
    assert (Hg1nb : cell g1 nb = Some (-1)).
    { unfold g1. rewrite cell_upd by by rewrite Hv1. by rewrite decide_False. }
    rewrite grid_set_cell by (unfold interior in Hnbi; lia).
    change (c.1 + d.1, c.2 + d.2) with nb.
    rewrite Hg1nb. cbn [mbind result_bind].
    set (g2 := upd g1 nb 0).
    assert (Hg2 : ∀ q, cell g2 q = if decide (nb = q) then Some 0
                                   else if decide (wl = q) then Some 0
                                   else cell g q).
    { intros q. unfold g2. rewrite cell_upd by by rewrite Hg1nb.
      case_decide; [done|]. unfold g1. by rewrite cell_upd by by rewrite Hv1. }
    assert (Hmono : ∀ q, cell g q = Some Passage → cell g2 q = Some Passage).
    { intros q Hq. rewrite Hg2. by repeat case_decide. }
    assert (Hnbcoarse : coarse h w nb).
    { split; [done|]. exists (i + wx), (j + wy).
      destruct nb as [n1 n2]. rewrite Hcij in Hnb1, Hnb2. cbn [fst snd] in *.
      f_equal; lia. }
    assert (Hadj1 : adjacent c wl).
    { unfold adjacent, wl. cbn [fst snd]. lia. }
    assert (Hadj2 : adjacent wl nb).
    { unfold adjacent, wl. cbn [fst snd]. lia. }
    assert (Hwlpass : passable h w g2 wl).
    { split; [by apply interior_in_bounds|]. rewrite Hg2.
      rewrite decide_False by done. by rewrite decide_True. }
    assert (Hnbpass : passable h w g2 nb).
    { split; [by apply interior_in_bounds|]. rewrite Hg2. by rewrite decide_True. }
    assert (Hcreach : rtc (step h w g2) (1, 1) c).
    { eapply reach_mono; [exact Hmono|]. by apply Hconn. }
    eexists. split; [done|]. split_and!.
    + split; cbn [g_maze g_stack g_dirs]; fold g1 g2.
      * done.
      * by apply wf_grid_upd, wf_grid_upd.
      * intros p v. rewrite Hg2. repeat case_decide.
        -- intros [= <-]. by right.
        -- intros [= <-]. by right.
        -- apply Hcells.
      * intros p. rewrite Hg2. repeat case_decide; subst; try done. apply Hint.
      * intros p Hp. apply elem_of_app in Hp as [Hp|Hp].
        -- destruct (Hstack p Hp) as [? ?]. split; [done|]. by apply Hmono.
        -- apply list_elem_of_singleton in Hp as ->. split; [done|].
           rewrite Hg2. by rewrite decide_True.
      * intros p Hpc Hpp. rewrite Hg2 in Hpp.
        destruct (decide (nb = p)) as [<-|Hnp].
        { left. apply elem_of_app. right. apply list_elem_of_here. }
        destruct (decide (wl = p)) as [<-|Hwp].
        { exfalso. destruct Hpc as [_ (i' & j' & Hij')].
          apply (f_equal fst) in Hij' as H1. apply (f_equal snd) in Hij'.
          unfold wl in Hij', H1. rewrite Hcij in Hij', H1.
          cbn [fst snd] in Hij', H1. lia. }
        destruct (Hdone p Hpc Hpp) as [Hin|Hcl].
        { left. apply elem_of_app. by left. }
        right. intros d' Hd' Hc'. by apply Hmono, Hcl.
      * intros p. rewrite Hg2. intros Hp.
        destruct (decide (nb = p)) as [<-|Hnp].
        { eapply rtc_r; [eapply rtc_r; [exact Hcreach|]|]; by split. }
        destruct (decide (wl = p)) as [<-|Hwp].
        { eapply rtc_r; [exact Hcreach|]. by split. }
        eapply reach_mono; [exact Hmono|]. by apply Hconn.
      * by apply Hmono.
      * intros p. rewrite Hg2. intros Hp.
        destruct (decide (nb = p)) as [<-|Hnp]; [by exists nb|].
        destruct (decide (wl = p)) as [<-|Hwp]; [|by apply Hbelow].
        destruct (decide (0 ≤ wx + wy)).
        -- exists nb. split; [done|]. unfold wl. cbn [fst snd]. lia.
        -- exists c. split; [split; [done|by eexists _, _]|].
           unfold wl. cbn [fst snd]. lia.
    + unfold carve_measure. cbn [g_maze g_stack]. fold g1 g2.
      rewrite length_app. cbn [length].
      assert (Hne : 0 ≠ -1) by done.
      pose proof (count_cells_upd (-1) g1 nb 0 Hg1nb Hne) as H1.
      pose proof (count_cells_upd_le (-1) g wl 0 Hne) as H2.
      fold g1 g2 in H1, H2. fold g. lia.
    + exact Hmono.
    + right. exists nb. split_and!; try done.
      rewrite Hg2. by rewrite decide_True.
Qed.

Lemma carve_loop_S fuel st :
  carve_loop shuffle (S fuel) h w st =
    carve_step shuffle h w st ≫= λ r,
      match r with
      | None => Ok st
      | Some st' => carve_loop shuffle fuel h w st'
      end.
Proof. done. Qed.

Lemma carve_pushes_S fuel st :
  carve_pushes shuffle (S fuel) h w st =
    match carve_step shuffle h w st with
    | Ok (Some st') =>
      (if decide (length (g_stack st) < length (g_stack st'))%nat
       then option_list (last (g_stack st')) else [])
      ++ carve_pushes shuffle fuel h w st'
    | _ => []
    end.
Proof. done. Qed.

(** The carving loop ends within the budget, with an empty stack; the
    cells it pushed were walls on entry, are passages on exit, and no
    cell is pushed twice. *)
Lemma carve_loop_inv fuel : ∀ st,
  gen_inv h w st → (carve_measure st < fuel)%nat →
  ∃ st',
    carve_loop shuffle fuel h w st = Ok st' ∧
    gen_inv h w st' ∧ g_stack st' = [] ∧
    (∀ p, cell (g_maze st) p = Some Passage →
          cell (g_maze st') p = Some Passage) ∧
    NoDup (carve_pushes shuffle fuel h w st) ∧
    (∀ p, p ∈ carve_pushes shuffle fuel h w st →
          coarse h w p ∧ cell (g_maze st) p = Some Wall ∧
          cell (g_maze st') p = Some Passage).
Proof.
  induction fuel as [|fuel IH]; intros st I Hfuel; [lia|].
  rewrite carve_loop_S, carve_pushes_S.
  destruct (last (g_stack st)) as [c|] eqn:Hlast.
  - destruct (carve_step_inv st c I Hlast) as (st1 & Hstep & I1 & Hm & Hmono & Hkind).
    rewrite Hstep. cbn [mbind result_bind].
    destruct (IH st1 I1) as (st' & Hloop & I' & Hempty & Hmono' & Hnd & Hpushed); [lia|].
    exists st'. split_and!; try done.
    + intros p Hp. by apply Hmono', Hmono.
    + destruct Hkind as [[Hpop _]|(nb & Hpush & Hnbw & Hnbp & Hnbc)].
      * rewrite decide_False; [done|].
        rewrite Hpop. apply last_Some in Hlast as [stk ->].
        rewrite removelast_last, length_app. cbn [length]. lia.
      * rewrite decide_True by (rewrite Hpush, length_app; cbn [length]; lia).
        rewrite Hpush, last_snoc. cbn [option_list app].
        apply NoDup_cons. split; [|done].
        intros Hin. destruct (Hpushed nb Hin) as (_ & Hw1 & _).
        unfold Wall, Passage in *. congruence.
    + intros p Hp.
      assert (Hrest : p ∈ carve_pushes shuffle fuel h w st1 →
                      coarse h w p ∧ cell (g_maze st) p = Some Wall ∧
                      cell (g_maze st') p = Some Passage).
      { intros Hin. destruct (Hpushed p Hin) as (Hpc & Hw1 & Hp').
        split_and!; try done.
        destruct (wf_grid_cell h w (g_maze st) p) as [v Hv].
        { apply I. } { apply interior_in_bounds, Hpc. }
        destruct (gi_cells I p v Hv) as [-> | ->]; [done|].
        apply Hmono in Hv. unfold Wall, Passage in *. congruence. }
      destruct Hkind as [[Hpop _]|(nb & Hpush & Hnbw & Hnbp & Hnbc)].
      * rewrite decide_False in Hp; [by apply Hrest|].
        rewrite Hpop. apply last_Some in Hlast as [stk ->].
        rewrite removelast_last, length_app. cbn [length]. lia.
      * rewrite decide_True in Hp by (rewrite Hpush, length_app; cbn [length]; lia).
        rewrite Hpush, last_snoc in Hp. cbn [option_list app] in Hp.
        apply elem_of_cons in Hp as [->|Hp]; [|by apply Hrest].
        split_and!; try done. by apply Hmono'.
  - apply last_None in Hlast.
    rewrite (carve_step_empty st Hlast). cbn [mbind result_bind].
    exists st. split_and!; try done.
    + apply NoDup_nil_2.
    + intros p Hp. by apply elem_of_nil in Hp.
Qed.

Lemma cell_all_walls_inv p v : cell (all_walls w h) p = Some v → v = -1.
Proof.
  intros Hc. pose proof (wf_grid_cell_inv h w _ p v (wf_all_walls w h) Hc) as Hb.
  rewrite cell_all_walls in Hc by done. congruence.
Qed.

Lemma gen_inv_start (r : rng) :
  3 ≤ h → 3 ≤ w → gen_inv h w (carve_start w h r).
Proof.
  intros Hh Hw.
  assert (Hb : in_bounds h w (1, 1)) by (unfold in_bounds; cbn; lia).
  assert (Hc : ∀ q, cell (upd (all_walls w h) (1, 1) 0) q
                    = if decide ((1, 1) = q) then Some 0 else cell (all_walls w h) q).
  { intros q. apply cell_upd. by rewrite cell_all_walls. }
  assert (Hone : ∀ q, cell (upd (all_walls w h) (1, 1) 0) q = Some Passage → q = (1, 1)).
  { intros q. rewrite Hc. case_decide; [done|].
    intros Hq. by apply cell_all_walls_inv in Hq. }
  assert (Hcoarse : coarse h w (1, 1)).
  { split; [unfold interior; cbn; lia|]. by exists 0, 0. }
  split; cbn [carve_start g_maze g_stack g_dirs].
  - done.
  - apply wf_grid_upd, wf_all_walls.
  - intros p v. rewrite Hc. case_decide.
    + intros [= <-]. by right.
    + intros Hv. apply cell_all_walls_inv in Hv as ->. by left.
  - intros p Hp. rewrite (Hone p Hp). apply Hcoarse.
  - intros p Hp. apply list_elem_of_singleton in Hp as ->.
    split; [done|]. rewrite Hc. by rewrite decide_True.
  - intros p _ Hp. left. rewrite (Hone p Hp). apply list_elem_of_here.
  - intros p Hp. by rewrite (Hone p Hp).
  - rewrite Hc. by rewrite decide_True.
  - intros p Hp. rewrite (Hone p Hp). by exists (1, 1).
Qed.

Lemma carve_start_measure (r : rng) :
  3 ≤ h → 3 ≤ w → (carve_measure (carve_start w h r) < gen_fuel w h)%nat.
Proof.
  intros Hh Hw. unfold carve_measure, gen_fuel. cbn [carve_start g_maze g_stack length].
  pose proof (count_cells_upd (-1) (all_walls w h) (1, 1) 0) as Hcnt.
  rewrite cell_all_walls in Hcnt by (unfold in_bounds; cbn; lia).
  specialize (Hcnt eq_refl). unfold all_walls in Hcnt at 2.
  rewrite count_cells_replicate in Hcnt. lia.
Qed.

(** [generate_maze] on a well-formed maze of at least 3 by 3: the loop
    runs from [carve_start] to a state [st] with an empty stack, and the
    maze produced is the grid of [st] with entrance and exit opened. *)
Lemma generate_maze_spec (m : Maze) (fuel : nat) (r : rng) :
  height m = h → width m = w → wf_maze m → 3 ≤ h → 3 ≤ w →
  (gen_fuel w h ≤ fuel)%nat →
  ∃ st,
    carve_loop shuffle fuel h w (carve_start w h r) = Ok st ∧
    gen_inv h w st ∧ g_stack st = [] ∧
    NoDup ((1, 1) :: carve_pushes shuffle fuel h w (carve_start w h r)) ∧
    (∀ p, p ∈ (1, 1) :: carve_pushes shuffle fuel h w (carve_start w h r) →
          coarse h w p ∧ cell (g_maze st) p = Some Passage) ∧
    (∀ p, p ∈ carve_pushes shuffle fuel h w (carve_start w h r) →
          cell (g_maze (carve_start w h r)) p = Some Wall) ∧
    generate_maze shuffle fuel m r
    = Ok ({| width := w; height := h;
             maze := upd (upd (g_maze st) (0, 1) 0) (h - 1, w - 2) 0;
             start_pos := (0, 1); end_pos := (h - 1, w - 2) |}, g_rng st).
Proof.
  intros Hhm Hwm Hwf Hh Hw Hfuel. unfold wf_maze in Hwf. rewrite Hhm, Hwm in Hwf.
  pose proof (gen_inv_start r Hh Hw) as I0.
  destruct (carve_loop_inv fuel (carve_start w h r) I0)
    as (st & Hloop & I & Hempty & Hmono & Hnd & Hpushed).
  { pose proof (carve_start_measure r Hh Hw). lia. }
  exists st. split_and!; try done.
  - apply NoDup_cons. split; [|done]. intros Hin.
    destruct (Hpushed _ Hin) as (_ & Hwall & _).
    pose proof (gi_origin I0) as Ho. unfold Wall, Passage in *. congruence.
  - intros p Hp. apply elem_of_cons in Hp as [->|Hp].
    + split; [|exact (gi_origin I)].
      apply (gi_stack I0). apply list_elem_of_here.
    + by destruct (Hpushed p Hp) as (? & _ & ?).
  - intros p Hp. by destruct (Hpushed p Hp) as (_ & ? & _).
  - unfold generate_maze. rewrite Hhm, Hwm.
    rewrite reset_all by done. cbn [mbind result_bind].
    rewrite grid_set_cell by lia.
    rewrite cell_all_walls by (unfold in_bounds; cbn; lia).
    cbn [mbind result_bind]. fold (carve_start w h r).
    rewrite Hloop. cbn [mbind result_bind fst snd].
    pose proof (gi_wf I) as Hwfst.
    destruct (wf_grid_cell h w (g_maze st) (0, 1) Hwfst) as [v1 Hv1];
      [unfold in_bounds; cbn; lia|].
    rewrite grid_set_cell, Hv1 by lia. cbn [mbind result_bind].
    destruct (wf_grid_cell h w (upd (g_maze st) (0, 1) 0) (h - 1, w - 2))
      as [v2 Hv2]; [by apply wf_grid_upd|unfold in_bounds; cbn; lia|].
    rewrite grid_set_cell, Hv2 by lia. done.
Qed.
End Carving.

Section Lattice.
Context {rng : Type}.
Variables h w : Z.
Implicit Types (st : @gen_state rng) (p : pos).

(** With the stack empty, the whole coarse lattice has been carved. *)
Lemma all_coarse_carved st :
  gen_inv h w st → g_stack st = [] →
  ∀ p, coarse h w p → cell (g_maze st) p = Some Passage.
Proof.
  intros I Hempty.
  assert (Hnext : ∀ p d, coarse h w p → cell (g_maze st) p = Some Passage →
            d ∈ carve_directions → coarse h w (nb_of p d) →
            cell (g_maze st) (nb_of p d) = Some Passage).
  { intros p d Hp Hpc Hd Hnb.
    destruct (gi_done I p Hp Hpc) as [Hin|Hcl]; [|by apply Hcl].
    rewrite Hempty in Hin. by apply elem_of_nil in Hin. }
  assert (Hnat : ∀ a b : nat,
            coarse h w (2 * Z.of_nat a + 1, 2 * Z.of_nat b + 1) →
            cell (g_maze st) (2 * Z.of_nat a + 1, 2 * Z.of_nat b + 1)
            = Some Passage).
  { induction a as [|a IHa].
    - induction b as [|b IHb]; intros Hc.
      + exact (gi_origin I).
      + assert (Hprev : coarse h w (2 * Z.of_nat 0 + 1, 2 * Z.of_nat b + 1)).
        { destruct Hc as [[? ?] _]. split; [|by eexists _, _].
          unfold interior in *. cbn [fst snd] in *. lia. }
        pose proof (Hnext _ (0, 2) Hprev (IHb Hprev)) as H.
        unfold nb_of in H. cbn [fst snd] in H.
        replace (2 * Z.of_nat (S b) + 1) with (2 * Z.of_nat b + 1 + 2) by lia.
        replace (2 * Z.of_nat 0 + 1) with (2 * Z.of_nat 0 + 1 + 0) at 1 by lia.
        apply H; [set_solver|].
        replace (2 * Z.of_nat 0 + 1 + 0) with (2 * Z.of_nat 0 + 1) by lia.
        replace (2 * Z.of_nat b + 1 + 2) with (2 * Z.of_nat (S b) + 1) by lia.
        done.
    - intros b Hc.
      assert (Hprev : coarse h w (2 * Z.of_nat a + 1, 2 * Z.of_nat b + 1)).
      { destruct Hc as [[? ?] _]. split; [|by eexists _, _].
        unfold interior in *. cbn [fst snd] in *. lia. }
      pose proof (Hnext _ (2, 0) Hprev (IHa b Hprev)) as H.
      unfold nb_of in H. cbn [fst snd] in H.
      replace (2 * Z.of_nat (S a) + 1) with (2 * Z.of_nat a + 1 + 2) by lia.
      replace (2 * Z.of_nat b + 1) with (2 * Z.of_nat b + 1 + 0) at 1 by lia.
      apply H; [set_solver|].
      replace (2 * Z.of_nat b + 1 + 0) with (2 * Z.of_nat b + 1) by lia.
      replace (2 * Z.of_nat a + 1 + 2) with (2 * Z.of_nat (S a) + 1) by lia.
      done. }
  intros p Hp. pose proof Hp as [[Hi1 Hi2] (i & j & ->)]. cbn [fst snd] in *.
  specialize (Hnat (Z.to_nat i) (Z.to_nat j)).
  rewrite !Z2Nat.id in Hnat by lia. by apply Hnat.
Qed.
End Lattice.

Section Produced.
Context {rng : Type}.
Variables (h w : Z) (st : @gen_state rng).
Hypothesis (Hh : 3 ≤ h) (Hw : 3 ≤ w).
Hypothesis (I : gen_inv h w st) (Hempty : g_stack st = []).
Implicit Types (p q : pos).

Lemma produced_cell q :
  cell (open_ends h w (g_maze st)) q =
    if decide ((h - 1, w - 2) = q) then Some Passage
    else if decide ((0, 1) = q) then Some Passage
    else cell (g_maze st) q.
Proof.
  pose proof (gi_wf I) as Hwf. unfold open_ends.
  rewrite cell_upd.
  - case_decide; [done|]. rewrite cell_upd; [done|].
    apply (wf_grid_cell h w); [done|]. unfold in_bounds. cbn. lia.
  - apply (wf_grid_cell h w); [by apply wf_grid_upd|].
    unfold in_bounds. cbn. lia.
Qed.

Lemma produced_wf : wf_grid h w (open_ends h w (g_maze st)).
Proof. unfold open_ends. apply wf_grid_upd, wf_grid_upd, I. Qed.

Lemma produced_mono q :
  cell (g_maze st) q = Some Passage →
  cell (open_ends h w (g_maze st)) q = Some Passage.
Proof. intros Hq. rewrite produced_cell. by repeat case_decide. Qed.

Lemma produced_values q v :
  cell (open_ends h w (g_maze st)) q = Some v → v = Wall ∨ v = Passage.
Proof.
  rewrite produced_cell. repeat case_decide.
  - intros [= <-]. by right.
  - intros [= <-]. by right.
  - apply I.
Qed.

(** Off the two openings, only interior cells are passages. *)
Lemma produced_border q :
  in_bounds h w q → ¬ interior h w q → q ≠ (0, 1) → q ≠ (h - 1, w - 2) →
  cell (open_ends h w (g_maze st)) q = Some Wall.
Proof.
  intros Hb Hni Hs He. rewrite produced_cell.
  rewrite !decide_False by done.
  destruct (wf_grid_cell h w (g_maze st) q) as [v Hv]; [apply I|done|].
  destruct (gi_cells I q v Hv) as [-> | ->]; [done|].
  by apply (gi_interior I) in Hv.
Qed.

(** Odd dimensions: the exit can be reached from the entrance. *)
Lemma produced_route :
  Z.Odd h → Z.Odd w →
  ∃ n, nsteps (step h w (open_ends h w (g_maze st))) n (0, 1) (h - 1, w - 2).
Proof.
  intros [a Ha] [b Hb]. apply rtc_nsteps.
  assert (Hc : coarse h w (h - 2, w - 2)).
  { split; [unfold interior; cbn; lia|]. exists (a - 1), (b - 1). f_equal; lia. }
  pose proof (all_coarse_carved h w st I Hempty _ Hc) as Hcc.
  eapply rtc_l; [|eapply rtc_r].
  - instantiate (1 := (1, 1)). split; [unfold adjacent; cbn; lia|].
    split; [unfold in_bounds; cbn; lia|].
    apply produced_mono. exact (gi_origin I).
  - eapply reach_mono; [apply produced_mono|]. by apply (gi_conn I).
  - split; [unfold adjacent; cbn; lia|].
    split; [unfold in_bounds; cbn; lia|].
    rewrite produced_cell. by rewrite decide_True.
Qed.

Lemma nsteps_passable g n p q :
  nsteps (step h w g) n p q → q = p ∨ passable h w g q.
Proof.
  destruct n as [|n]; intros Hn.
  - inversion Hn; subst. by left.
  - apply nsteps_inv_r in Hn as (y & _ & _ & Hq). by right.
Qed.

(** An even dimension: the exit is walled in. *)
Lemma produced_no_route n :
  Z.Even h ∨ Z.Even w →
  ¬ nsteps (step h w (open_ends h w (g_maze st))) n (0, 1) (h - 1, w - 2).
Proof.
  intros Heven Hn. destruct n as [|n].
  { inversion Hn. lia. }
  apply nsteps_inv_r in Hn as (y & Hy & Hadj & _).
  apply nsteps_passable in Hy as [->|[Hyb Hyc]].
  { unfold adjacent in Hadj. cbn in Hadj. lia. }
  rewrite produced_cell in Hyc.
  destruct (decide ((h - 1, w - 2) = y)) as [<-|Hye].
  { by apply adjacent_ne in Hadj. }
  destruct (decide ((0, 1) = y)) as [<-|Hys].
  { unfold adjacent in Hadj. cbn in Hadj. lia. }
  pose proof (gi_interior I y Hyc) as [Hi1 Hi2].
  destruct (gi_below I y Hyc) as (c & [[Hc1 Hc2] (i & j & ->)] & Hle1 & Hle2).
  unfold adjacent in Hadj. destruct y as [y1 y2]. cbn [fst snd] in *.
  destruct Heven as [[k Hk]|[k Hk]]; lia.
Qed.
End Produced.


(** * The properties of the design document *)

Lemma init_wf (w h : Z) (m : Maze) :
  __init__ w h = Ok m →
  width m = w ∧ height m = h ∧ maze m = all_walls w h ∧ wf_maze m.
Proof.
  intros [= <-]. split_and!; try done. apply wf_all_walls.
Qed.

Section Generated.
Context {rng : Type}.
Variable shuffle : rng → list (Z * Z) → list (Z * Z) * rng.
Hypothesis shuffle_perm : ∀ r l, (shuffle r l).1 ≡ₚ l.
Variables (m : Maze) (r : rng) (fg : nat).
Hypothesis (Hwf : wf_maze m) (Hw : 3 ≤ width m) (Hh : 3 ≤ height m).
Hypothesis Hfg : (gen_fuel (width m) (height m) ≤ fg)%nat.

(** What [generate_maze] produces, cell by cell. *)
Lemma generated_maze :
  ∃ st m1,
    generate_maze shuffle fg m r = Ok (m1, g_rng st) ∧
    gen_inv (height m) (width m) st ∧ g_stack st = [] ∧
    width m1 = width m ∧ height m1 = height m ∧
    start_pos m1 = (0, 1) ∧ end_pos m1 = (height m - 1, width m - 2) ∧
    maze m1 = open_ends (height m) (width m) (g_maze st) ∧
    wf_maze m1.
Proof.
  destruct (generate_maze_spec shuffle shuffle_perm (height m) (width m) m fg r)
    as (st & Hloop & I & Hempty & _ & _ & _ & Hgen); try done.
  eexists st, _. split; [exact Hgen|]. split_and!; try done.
  by apply produced_wf.
Qed.

(** Whether the search reaches the exit of a generated maze depends on
    the parity of the dimensions only. *)
Lemma generated_solved (fs : nat) :
  ∃ st m1,
    generate_maze shuffle fg m r = Ok (m1, g_rng st) ∧
    gen_inv (height m) (width m) st ∧ g_stack st = [] ∧
    width m1 = width m ∧ height m1 = height m ∧
    start_pos m1 = (0, 1) ∧ end_pos m1 = (height m - 1, width m - 2) ∧
    maze m1 = open_ends (height m) (width m) (g_maze st) ∧
    wf_maze m1 ∧
    ((solve_fuel m1 ≤ fs)%nat →
     ∃ bst lv open m2 path,
       solved m1 fs bst lv open m2 path ∧
       (Z.Odd (width m) → Z.Odd (height m) →
        is_Some (b_visited bst !! end_pos m1)) ∧
       (Z.Even (width m) ∨ Z.Even (height m) →
        b_visited bst !! end_pos m1 = None)).
Proof.
  destruct generated_maze as (st & m1 & Hgen & I & Hempty & Hw1 & Hh1 & Hs1 & He1 & Hg1 & Hwf1).
  exists st, m1. split_and!; try done. intros Hfs.
  destruct (solve_spec m1 fs Hwf1 Hfs) as (bst & lv & open & m2 & path & S).
  exists bst, lv, open, m2, path. split; [done|].
  pose proof (solved_found_iff S) as Hiff.
  rewrite Hw1, Hh1, Hs1, He1, Hg1 in Hiff.
  split.
  - intros Hwo Hho. rewrite He1. apply Hiff. by apply produced_route.
  - intros Heven. rewrite He1.
    destruct (b_visited bst !! (height m - 1, width m - 2)) as [o|] eqn:Hv; [|done].
    exfalso. destruct (proj1 Hiff) as [n Hn]; [done|].
    eapply produced_no_route; [exact Hh|exact Hw|exact I|tauto|exact Hn].
Qed.
End Generated.

(** ** C1 *)

Lemma init_blank (w h : Z) : __init__ w h = Ok (blank_maze w h).
Proof. done. Qed.

(** C1, at the failing input [Maze(4, 4)]: the generator leaves the exit
    (3, 2) walled in, so the path returned by [solve_sequential] is the
    exit alone and does not start at the entrance (0, 1), against the
    claim and against the docstring of [generate_maze], which says that
    every cell is reachable. *)
Lemma generated_maze_unsolved_4x4 :
  ∃ m m1 m2 path,
    __init__ 4 4 = Ok m ∧
    generate_maze id_shuffle 32 m tt = Ok (m1, tt) ∧
    solve_sequential 4 m1 = Ok (m2, path) ∧
    path = [(3, 2)] ∧ start_pos m1 = (0, 1) ∧
    head path ≠ Some (start_pos m1).
Proof.
  eexists _, _, _, _. split; [reflexivity|].
  split; [vm_compute; reflexivity|].
  split; [vm_compute; reflexivity|].
  split; [reflexivity|]. split; [reflexivity|]. by vm_compute.
Qed.

(** ** The two sample mazes *)

Lemma demo_maze_generated :
  generate_maze rev_shuffle 50 (blank_maze 5 5) tt = Ok (demo_maze, tt).
Proof. by vm_compute. Qed.

Lemma walled_maze_generated :
  generate_maze id_shuffle 32 (blank_maze 4 4) tt = Ok (walled_maze, tt).
Proof. by vm_compute. Qed.

Lemma demo_maze_wf : wf_maze demo_maze.
Proof. split; [done|]. repeat constructor. Qed.

Lemma walled_maze_wf : wf_maze walled_maze.
Proof. split; [done|]. repeat constructor. Qed.

(** Running the search decides whether a route exists. *)
Lemma no_route_by_search (m : Maze) (fuel : nat) (st : bfs_state) :
  wf_maze m → (solve_fuel m ≤ fuel)%nat →
  bfs_loop fuel (height m) (width m) (end_pos m) (bfs_start m) = Ok st →
  b_visited st !! end_pos m = None →
  ¬ ∃ l, route m l.
Proof.
  intros Hwf Hfuel Hloop Hnone [l Hl].
  destruct (solve_spec m fuel Hwf Hfuel) as (st' & lv & open & m' & path & S).
  pose proof (sol_loop S) as Hloop'.
  rewrite Hloop in Hloop'. injection Hloop' as <-.
  destruct (proj2 (solved_found_iff S)) as [o Ho].
  - eexists. by apply route_nsteps.
  - congruence.
Qed.

(** ** C2 *)

(** C2: for every grid in which the exit is reachable from the entrance
    through passage cells (some [route] exists), the path returned by
    [solve_sequential] is a shortest route: it is a route, no route is
    shorter, and its edge count (length minus one) is the layer depth of
    the exit computed by the reference breadth-first search [ref_depth]. *)
Theorem solve_shortest (m : Maze) (fuel : nat) (l0 : list pos) :
  wf_maze m → route m l0 → (solve_fuel m ≤ fuel)%nat →
  ∃ m' path,
    solve_sequential fuel m = Ok (m', path) ∧
    route m path ∧
    (∀ l, route m l → (length path ≤ length l)%nat) ∧
    ref_depth m = Some (length path - 1)%nat.
Proof.
  intros Hwf Hl0 Hfuel.
  destruct (solve_spec m fuel Hwf Hfuel) as (st & lv & open & m' & path & S).
  assert (He : is_Some (b_visited st !! end_pos m)).
  { apply (solved_found_iff S). eexists. by apply route_nsteps. }
  destruct (solved_route S He) as [Hroute Hlen].
  exists m', path. split_and!; [apply S|done| |].
  - intros l Hl. pose proof (route_nsteps _ _ Hl) as Hn.
    eapply bfs_exit_level in Hn as [_ Hle]; [|apply S|apply S].
    destruct Hl as (Hhd & _). destruct l; [done|]. cbn [length] in *. lia.
  - rewrite (ref_depth_solved S He), Hlen. f_equal. lia.
Qed.

Lemma solve_shortest_witness :
  ∃ m' path,
    solve_sequential 12 demo_maze = Ok (m', path) ∧
    route demo_maze path ∧
    (∀ l, route demo_maze l → (length path ≤ length l)%nat) ∧
    ref_depth demo_maze = Some (length path - 1)%nat.
Proof.
  apply (solve_shortest demo_maze 12
           [(0, 1); (1, 1); (2, 1); (3, 1); (3, 2); (3, 3); (4, 3)]).
  - split; [reflexivity|]. repeat constructor.
  - split_and!; [reflexivity|reflexivity| |].
    + simpl. unfold adjacent. simpl. lia.
    + repeat (apply Forall_cons; split;
              [split; [unfold in_bounds; simpl; lia|reflexivity]|]).
      apply Forall_nil_2.
  - vm_compute. lia.
Defined.

(** ** C3 *)

(** C3 (as the code has it): constructing a maze never fails. For every
    width and height, also below 3 and for a 2 by 2 request, the
    constructor returns a maze with that width and height whose grid is
    [height] rows of [width] walls; no [InvalidDimensions] error is raised. *)
Theorem init_total (w h : Z) :
  ∃ m, __init__ w h = Ok m ∧
       width m = w ∧ height m = h ∧ maze m = all_walls w h ∧ wf_maze m ∧
       start_pos m = (0, 0) ∧ end_pos m = (h - 1, w - 1).
Proof.
  exists (blank_maze w h). split_and!; try done. apply wf_all_walls.
Qed.

(** C3 fails for a 2 by 2 request: the constructor returns a maze. *)
Lemma init_2x2 :
  2 < 3 ∧
  __init__ 2 2 = Ok {| width := 2; height := 2;
                        maze := [[-1; -1]; [-1; -1]];
                        start_pos := (0, 0); end_pos := (1, 1) |} ∧
  __init__ 2 2 ≠ Raise InvalidDimensions.
Proof. split_and!; done. Qed.

(** ** C4 *)

(** C4 (as the code has it): the search steps only onto cells equal to 0,
    so the cells the first call marked [Visited] or [OnPath] are closed to
    the second. For every maze produced by [generate_maze] (width and
    height at least 3), a second [solve_sequential] on the same grid
    returns the one-element path holding the exit and leaves the grid as
    the first call left it. The two lengths differ when width and height
    are odd (the first call found the route) and are both 1 when one of
    them is even. *)
Theorem generated_maze_resolved {rng : Type}
    (shuffle : rng → list (Z * Z) → list (Z * Z) * rng)
    (m : Maze) (r : rng) (fg : nat) :
  (∀ r l, (shuffle r l).1 ≡ₚ l) →
  wf_maze m → 3 ≤ width m → 3 ≤ height m →
  (gen_fuel (width m) (height m) ≤ fg)%nat →
  ∃ m1 r',
    generate_maze shuffle fg m r = Ok (m1, r') ∧
    ∀ fs, (solve_fuel m1 ≤ fs)%nat →
      ∃ m2 path,
        solve_sequential fs m1 = Ok (m2, path) ∧
        (∀ fs', (2 ≤ fs')%nat →
                solve_sequential fs' m2 = Ok (m2, [end_pos m1])) ∧
        (Z.Odd (width m) → Z.Odd (height m) →
         length path ≠ length [end_pos m1]) ∧
        (Z.Even (width m) ∨ Z.Even (height m) →
         length path = length [end_pos m1]).
Proof.
  intros Hperm Hwf Hw Hh Hfg.
  destruct (generated_solved shuffle Hperm m r fg Hwf Hw Hh Hfg 0)
    as (st & m1 & Hgen & I & Hempty & Hw1 & Hh1 & Hs1 & He1 & Hg1 & Hwf1 & _).
  exists m1, (g_rng st). split; [done|]. intros fs Hfs.
  destruct (generated_solved shuffle Hperm m r fg Hwf Hw Hh Hfg fs)
    as (st' & m1' & Hgen' & _ & _ & _ & _ & _ & _ & _ & _ & Hsol).
  rewrite Hgen in Hgen'. injection Hgen' as <- _.
  destruct (Hsol Hfs) as (bst & lv & open & m2 & path & S & Hodd & Heven).
  assert (Hse : start_pos m1 ≠ end_pos m1).
  { rewrite Hs1, He1. intros [= ? ?]. lia. }
  exists m2, path. split_and!; [apply S| | |].
  - intros fs' Hfs'. by eapply solve_again.
  - intros Hwo Hho. specialize (Hodd Hwo Hho).
    destruct (solved_route S Hodd) as [(Hhd & Hlast & _) _].
    destruct path as [|a [|b path]]; [done| |done].
    cbn in Hhd, Hlast. congruence.
  - intros He. specialize (Heven He).
    pose proof (sol_path S) as Hp. rewrite Heven in Hp.
    by subst path.
Qed.

Lemma generated_maze_resolved_witness :
  ∃ m1 r',
    generate_maze id_shuffle 18 (blank_maze 3 3) tt = Ok (m1, r') ∧
    ∀ fs, (solve_fuel m1 ≤ fs)%nat →
      ∃ m2 path,
        solve_sequential fs m1 = Ok (m2, path) ∧
        (∀ fs', (2 ≤ fs')%nat →
                solve_sequential fs' m2 = Ok (m2, [end_pos m1])) ∧
        (Z.Odd (width (blank_maze 3 3)) → Z.Odd (height (blank_maze 3 3)) →
         length path ≠ length [end_pos m1]) ∧
        (Z.Even (width (blank_maze 3 3)) ∨ Z.Even (height (blank_maze 3 3)) →
         length path = length [end_pos m1]).
Proof.
  apply (generated_maze_resolved id_shuffle (blank_maze 3 3) tt 18).
  - intros r l. reflexivity.
  - split; [reflexivity|]. repeat constructor.
  - simpl. lia.
  - simpl. lia.
  - vm_compute. lia.
Defined.

(** C4 fails on the 3 by 3 maze: the first call returns a path of length
    3, the second a path of length 1. *)
Lemma resolve_3x3 :
  ∃ m m1 m2 p1 m3 p2,
    __init__ 3 3 = Ok m ∧
    generate_maze id_shuffle 18 m tt = Ok (m1, tt) ∧
    solve_sequential 5 m1 = Ok (m2, p1) ∧
    solve_sequential 5 m2 = Ok (m3, p2) ∧
    length p1 = 3%nat ∧ length p2 = 1%nat ∧ length p1 ≠ length p2 ∧
    cell (maze m2) (1, 1) = Some OnPath.
Proof.
  eexists _, _, _, _, _, _. split; [reflexivity|].
  split; [vm_compute; reflexivity|].
  split; [vm_compute; reflexivity|].
  split; [vm_compute; reflexivity|].
  by split_and!.
Qed.

(** ** C5 *)

(** C5 (as the code has it): for every grid in which the exit is not
    reachable from the entrance through passage cells (no [route], that is
    no sequence of 4-adjacent steps onto passage cells, leads from the
    entrance to the exit), [solve_sequential] returns the one-element
    sequence holding the exit, and the only grid cells changed by the call
    are visitation marks: a cell keeps its value or is a passage that
    became [Visited], and no cell is marked [OnPath]. *)
Theorem solve_unreachable (m : Maze) (fuel : nat) :
  wf_maze m → ¬ (∃ l, route m l) → (solve_fuel m ≤ fuel)%nat →
  ∃ m',
    solve_sequential fuel m = Ok (m', [end_pos m]) ∧
    (∀ q, cell (maze m') q = cell (maze m) q ∨
          (cell (maze m) q = Some Passage ∧ cell (maze m') q = Some Visited)) ∧
    (∀ q, cell (maze m') q = Some OnPath → cell (maze m) q = Some OnPath).
Proof.
  intros Hwf Hno Hfuel.
  destruct (solve_spec m fuel Hwf Hfuel) as (st & lv & open & m' & path & S).
  assert (He : b_visited st !! end_pos m = None).
  { destruct (b_visited st !! end_pos m) as [o|] eqn:Ho; [|done].
    exfalso. apply Hno. exists path.
    apply (solved_route S). by rewrite Ho. }
  pose proof (sol_path S) as Hp. rewrite He in Hp. subst path.
  assert (Hcell : ∀ q, cell (maze m') q =
            if decide (is_Some (b_visited st !! q) ∧ q ≠ start_pos m)
            then Some Visited else cell (maze m) q).
  { intros q. rewrite (solved_cell S).
    rewrite decide_False; [done|]. intros (Hq & _ & Hne).
    by apply list_elem_of_singleton in Hq. }
  exists m'. split_and!; [apply S| |].
  - intros q. rewrite Hcell. case_decide as Hv; [|by left].
    right. split; [|done]. destruct Hv as [Hv Hne].
    by apply (solved_visited_ne S).
  - intros q. rewrite Hcell. by case_decide.
Qed.

Lemma walled_maze_no_route : ¬ ∃ l, route walled_maze l.
Proof.
  eapply (no_route_by_search walled_maze 5).
  - apply walled_maze_wf.
  - vm_compute. lia.
  - vm_compute. reflexivity.
  - by vm_compute.
Qed.

Lemma solve_unreachable_witness :
  ∃ m',
    solve_sequential 5 walled_maze = Ok (m', [end_pos walled_maze]) ∧
    (∀ q, cell (maze m') q = cell (maze walled_maze) q ∨
          (cell (maze walled_maze) q = Some Passage ∧
           cell (maze m') q = Some Visited)) ∧
    (∀ q, cell (maze m') q = Some OnPath →
          cell (maze walled_maze) q = Some OnPath).
Proof.
  apply (solve_unreachable walled_maze 5).
  - split; [reflexivity|]. repeat constructor.
  - apply walled_maze_no_route.
  - vm_compute. lia.
Defined.

(** C5 fails on the 4 by 4 maze: the exit cannot be reached, and the
    sequence returned is not empty. *)
Lemma solve_unreachable_nonempty :
  (¬ ∃ l, route walled_maze l) ∧
  ∃ m' path, solve_sequential 5 walled_maze = Ok (m', path) ∧
             path = [(3, 2)] ∧ path ≠ [].
Proof.
  split; [apply walled_maze_no_route|].
  eexists _, _. split; [vm_compute; reflexivity|]. by split.
Qed.

(** ** C6 *)

Lemma on_border_iff (h w : Z) (p : pos) :
  on_border h w p ↔ in_bounds h w p ∧ ¬ interior h w p.
Proof. unfold on_border, in_bounds, interior. lia. Qed.

(** C6 (as the code has it): after [generate_maze] on a maze with width
    and height at least 3, every cell of the outer border is a wall, except
    exactly the entrance and the exit, which are border cells and hold
    passages. [solve_sequential] keeps the border walls and the entrance as
    they are; the exit is marked [Visited] when the search reaches it (odd
    width and height) and stays a passage otherwise. *)
Theorem generated_border {rng : Type}
    (shuffle : rng → list (Z * Z) → list (Z * Z) * rng)
    (m : Maze) (r : rng) (fg : nat) :
  (∀ r l, (shuffle r l).1 ≡ₚ l) →
  wf_maze m → 3 ≤ width m → 3 ≤ height m →
  (gen_fuel (width m) (height m) ≤ fg)%nat →
  ∃ m1 r',
    generate_maze shuffle fg m r = Ok (m1, r') ∧
    on_border (height m) (width m) (start_pos m1) ∧
    on_border (height m) (width m) (end_pos m1) ∧
    cell (maze m1) (start_pos m1) = Some Passage ∧
    cell (maze m1) (end_pos m1) = Some Passage ∧
    (∀ q, on_border (height m) (width m) q →
          q ≠ start_pos m1 → q ≠ end_pos m1 →
          cell (maze m1) q = Some Wall) ∧
    ∀ fs, (solve_fuel m1 ≤ fs)%nat →
      ∃ m2 path,
        solve_sequential fs m1 = Ok (m2, path) ∧
        (∀ q, on_border (height m) (width m) q →
              q ≠ start_pos m1 → q ≠ end_pos m1 →
              cell (maze m2) q = Some Wall) ∧
        cell (maze m2) (start_pos m1) = Some Passage ∧
        (Z.Odd (width m) → Z.Odd (height m) →
         cell (maze m2) (end_pos m1) = Some Visited) ∧
        (Z.Even (width m) ∨ Z.Even (height m) →
         cell (maze m2) (end_pos m1) = Some Passage).
Proof.
  intros Hperm Hwf Hw Hh Hfg.
  destruct (generated_solved shuffle Hperm m r fg Hwf Hw Hh Hfg 0)
    as (st & m1 & Hgen & I & Hempty & Hw1 & Hh1 & Hs1 & He1 & Hg1 & Hwf1 & _).
  assert (Hsc : cell (maze m1) (start_pos m1) = Some Passage).
  { rewrite Hs1, Hg1, produced_cell by done. by repeat case_decide. }
  assert (Hec : cell (maze m1) (end_pos m1) = Some Passage).
  { rewrite He1, Hg1, produced_cell by done. by rewrite decide_True. }
  assert (Hborder : ∀ q, on_border (height m) (width m) q →
            q ≠ start_pos m1 → q ≠ end_pos m1 → cell (maze m1) q = Some Wall).
  { intros q Hq Hqs Hqe. apply on_border_iff in Hq as [Hb Hni].
    rewrite Hg1. apply produced_border; try done; congruence. }
  assert (Hse : start_pos m1 ≠ end_pos m1).
  { rewrite Hs1, He1. intros [= ? ?]. lia. }
  exists m1, (g_rng st). split_and!; try done.
  { rewrite Hs1. unfold on_border, in_bounds. cbn. lia. }
  { rewrite He1. unfold on_border, in_bounds. cbn. lia. }
  intros fs Hfs.
  destruct (generated_solved shuffle Hperm m r fg Hwf Hw Hh Hfg fs)
    as (st' & m1' & Hgen' & _ & _ & _ & _ & _ & _ & _ & _ & Hsol).
  rewrite Hgen in Hgen'. injection Hgen' as <- _.
  destruct (Hsol Hfs) as (bst & lv & open & m2 & path & S & Hodd & Heven).
  exists m2, path. split_and!; [apply S| | | |].
  - intros q Hq Hqs Hqe. specialize (Hborder q Hq Hqs Hqe).
    destruct (solved_cell_cases S q) as [->|[Hp _]]; [done|].
    rewrite Hborder in Hp. by unfold Wall, Passage in Hp.
  - rewrite (solved_cell S).
    rewrite decide_False by (intros (_ & ? & _); done).
    by rewrite decide_False by (intros (_ & ?); done).
  - intros Hwo Hho. rewrite (solved_cell S).
    rewrite decide_False by (intros (_ & _ & ?); done).
    rewrite decide_True; [done|]. split; [by apply Hodd|done].
  - intros He. rewrite (solved_cell S).
    rewrite decide_False by (intros (_ & _ & ?); done).
    rewrite decide_False; [done|]. intros [[o Ho] _].
    rewrite (Heven He) in Ho. done.
Qed.

Lemma generated_border_witness :
  ∃ m1 r',
    generate_maze id_shuffle 18 (blank_maze 3 3) tt = Ok (m1, r') ∧
    on_border (height (blank_maze 3 3)) (width (blank_maze 3 3)) (start_pos m1) ∧
    on_border (height (blank_maze 3 3)) (width (blank_maze 3 3)) (end_pos m1) ∧
    cell (maze m1) (start_pos m1) = Some Passage ∧
    cell (maze m1) (end_pos m1) = Some Passage ∧
    (∀ q, on_border (height (blank_maze 3 3)) (width (blank_maze 3 3)) q →
          q ≠ start_pos m1 → q ≠ end_pos m1 →
          cell (maze m1) q = Some Wall) ∧
    ∀ fs, (solve_fuel m1 ≤ fs)%nat →
      ∃ m2 path,
        solve_sequential fs m1 = Ok (m2, path) ∧
        (∀ q, on_border (height (blank_maze 3 3)) (width (blank_maze 3 3)) q →
              q ≠ start_pos m1 → q ≠ end_pos m1 →
              cell (maze m2) q = Some Wall) ∧
        cell (maze m2) (start_pos m1) = Some Passage ∧
        (Z.Odd (width (blank_maze 3 3)) → Z.Odd (height (blank_maze 3 3)) →
         cell (maze m2) (end_pos m1) = Some Visited) ∧
        (Z.Even (width (blank_maze 3 3)) ∨ Z.Even (height (blank_maze 3 3)) →
         cell (maze m2) (end_pos m1) = Some Passage).
Proof.
  apply (generated_border id_shuffle (blank_maze 3 3) tt 18).
  - intros r l. reflexivity.
  - split; [reflexivity|]. repeat constructor.
  - simpl. lia.
  - simpl. lia.
  - vm_compute. lia.
Defined.

(** C6 fails on the 3 by 3 maze: after [solve_sequential] the exit, a
    border cell, holds [Visited] and is no longer a passage. *)
Lemma border_after_solve_3x3 :
  ∃ m m1 m2 path,
    __init__ 3 3 = Ok m ∧
    generate_maze id_shuffle 18 m tt = Ok (m1, tt) ∧
    solve_sequential 5 m1 = Ok (m2, path) ∧
    end_pos m1 = (2, 1) ∧
    cell (maze m1) (2, 1) = Some Passage ∧
    cell (maze m2) (2, 1) = Some Visited ∧
    cell (maze m2) (2, 1) ≠ Some Passage.
Proof.
  eexists _, _, _, _. split; [reflexivity|].
  split; [vm_compute; reflexivity|].
  split; [vm_compute; reflexivity|].
  by split_and!.
Qed.

(** ** C7 *)

(** C7 (as the code has it): a cell is marked [Visited] when it is
    discovered and put on the queue, not when it is taken from it. So
    exactly the cells enqueued by the search, the keys of [visited] other
    than the entrance, receive the [Visited] mark: when the search loop
    ends, in state [st], every such key holds [Visited] in the grid and was
    a passage. The keys are the enqueued cells: every cell taken from the
    queue is a key, every cell still in the queue [b_queue st] when the
    loop breaks is a key other than the entrance, and every key was taken
    from the queue or is still in it; the exit is a key once it is
    reached. Of these, exactly the cells of the returned path other than
    the entrance and the exit end up [OnPath], the others end up [Visited];
    every other cell keeps its value. The entrance is never marked and the
    exit is never marked [OnPath]. *)
Theorem solve_marks (m : Maze) (fuel : nat) :
  wf_maze m → (solve_fuel m ≤ fuel)%nat →
  ∃ st m' path,
    bfs_loop fuel (height m) (width m) (end_pos m) (bfs_start m) = Ok st ∧
    solve_sequential fuel m = Ok (m', path) ∧
    (∀ q, is_Some (b_visited st !! q) → q ≠ start_pos m →
          in_bounds (height m) (width m) q ∧ cell (maze m) q = Some Passage) ∧
    (∀ q, is_Some (b_visited st !! q) → q ≠ start_pos m →
          cell (b_maze st) q = Some Visited) ∧
    (∀ q, q ∈ bfs_dequeued fuel (height m) (width m) (end_pos m) (bfs_start m) →
          is_Some (b_visited st !! q)) ∧
    (∀ q, q ∈ b_queue st →
          is_Some (b_visited st !! q) ∧ q ≠ start_pos m ∧
          cell (b_maze st) q = Some Visited) ∧
    (∀ q, is_Some (b_visited st !! q) →
          q ∈ bfs_dequeued fuel (height m) (width m) (end_pos m) (bfs_start m) ∨
          q ∈ b_queue st) ∧
    (∀ q, q ∈ path → q ≠ end_pos m → is_Some (b_visited st !! q)) ∧
    (∀ q, cell (maze m') q =
          if decide (q ∈ path ∧ q ≠ start_pos m ∧ q ≠ end_pos m)
          then Some OnPath
          else if decide (is_Some (b_visited st !! q) ∧ q ≠ start_pos m)
               then Some Visited
               else cell (maze m) q) ∧
    cell (maze m') (start_pos m) = cell (maze m) (start_pos m) ∧
    (cell (maze m') (end_pos m) = Some OnPath →
     cell (maze m) (end_pos m) = Some OnPath).
Proof.
  intros Hwf Hfuel.
  destruct (solve_spec m fuel Hwf Hfuel) as (st & lv & open & m' & path & S).
  destruct (solve_queue m fuel st Hwf Hfuel (sol_loop S)) as [Hqueue Henq].
  exists st, m', path. split_and!; try apply S.
  - intros q Hq Hne. by apply (solved_visited_ne S).
  - intros q Hq Hne. by apply (solved_visited_ne S).
  - intros q Hq. destruct (Hqueue q Hq) as [Hv Hne].
    split_and!; [done|done|]. by apply (solved_visited_ne S).
  - exact Henq.
  - intros q. by apply (solved_path_visited S).
  - intros q. apply (solved_cell S).
  - rewrite (solved_cell S).
    rewrite decide_False by (intros (_ & ? & _); done).
    by rewrite decide_False by (intros (_ & ?); done).
  - rewrite (solved_cell S).
    rewrite decide_False by (intros (_ & _ & ?); done).
    by case_decide.
Qed.

Lemma solve_marks_witness :
  ∃ st m' path,
    bfs_loop 12 (height demo_maze) (width demo_maze) (end_pos demo_maze)
      (bfs_start demo_maze) = Ok st ∧
    solve_sequential 12 demo_maze = Ok (m', path) ∧
    (∀ q, is_Some (b_visited st !! q) → q ≠ start_pos demo_maze →
          in_bounds (height demo_maze) (width demo_maze) q ∧
          cell (maze demo_maze) q = Some Passage) ∧
    (∀ q, is_Some (b_visited st !! q) → q ≠ start_pos demo_maze →
          cell (b_maze st) q = Some Visited) ∧
    (∀ q, q ∈ bfs_dequeued 12 (height demo_maze) (width demo_maze)
                 (end_pos demo_maze) (bfs_start demo_maze) →
          is_Some (b_visited st !! q)) ∧
    (∀ q, q ∈ b_queue st →
          is_Some (b_visited st !! q) ∧ q ≠ start_pos demo_maze ∧
          cell (b_maze st) q = Some Visited) ∧
    (∀ q, is_Some (b_visited st !! q) →
          q ∈ bfs_dequeued 12 (height demo_maze) (width demo_maze)
                (end_pos demo_maze) (bfs_start demo_maze) ∨
          q ∈ b_queue st) ∧
    (∀ q, q ∈ path → q ≠ end_pos demo_maze → is_Some (b_visited st !! q)) ∧
    (∀ q, cell (maze m') q =
          if decide (q ∈ path ∧ q ≠ start_pos demo_maze ∧ q ≠ end_pos demo_maze)
          then Some OnPath
          else if decide (is_Some (b_visited st !! q) ∧ q ≠ start_pos demo_maze)
               then Some Visited
               else cell (maze demo_maze) q) ∧
    cell (maze m') (start_pos demo_maze)
    = cell (maze demo_maze) (start_pos demo_maze) ∧
    (cell (maze m') (end_pos demo_maze) = Some OnPath →
     cell (maze demo_maze) (end_pos demo_maze) = Some OnPath).
Proof.
  apply (solve_marks demo_maze 12).
  - split; [reflexivity|]. repeat constructor.
  - vm_compute. lia.
Defined.

(** C7 fails on the 5 by 5 maze: the exit ends up [Visited], and so does
    the cell (2, 3), which was put on the queue and never taken from it. *)
Lemma solve_marks_demo :
  ∃ m' path,
    solve_sequential 12 demo_maze = Ok (m', path) ∧
    cell (maze m') (end_pos demo_maze) = Some Visited ∧
    cell (maze demo_maze) (2, 3) = Some Passage ∧
    cell (maze m') (2, 3) = Some Visited ∧
    (2, 3) ∉ bfs_dequeued 12 (height demo_maze) (width demo_maze)
               (end_pos demo_maze) (bfs_start demo_maze).
Proof.
  eexists _, _. split; [vm_compute; reflexivity|].
  split_and!; try reflexivity.
  match goal with
  | |- _ ∉ ?l => let l' := eval vm_compute in l in change l with l'
  end.
  rewrite !elem_of_cons, elem_of_nil. intros H.
  repeat (destruct H as [H|H]; [congruence|]). done.
Qed.

(** ** C8 *)

(** C8: for every grid, [solve_sequential] changes no wall and converts no
    cell to a wall or to a passage: a wall before the call is a wall after
    it and conversely, a passage after the call was a passage before it, a
    passage before the call is a passage, [Visited] or [OnPath] after it,
    and width, height, entrance and exit are unchanged. *)
Theorem solve_frame (m : Maze) (fuel : nat) :
  wf_maze m → (solve_fuel m ≤ fuel)%nat →
  ∃ m' path,
    solve_sequential fuel m = Ok (m', path) ∧
    width m' = width m ∧ height m' = height m ∧
    start_pos m' = start_pos m ∧ end_pos m' = end_pos m ∧
    wf_maze m' ∧
    ∀ q,
      (cell (maze m) q = Some Wall → cell (maze m') q = Some Wall) ∧
      (cell (maze m') q = Some Wall → cell (maze m) q = Some Wall) ∧
      (cell (maze m') q = Some Passage → cell (maze m) q = Some Passage) ∧
      (cell (maze m) q = Some Passage →
       cell (maze m') q = Some Passage ∨ cell (maze m') q = Some Visited ∨
       cell (maze m') q = Some OnPath).
Proof.
  intros Hwf Hfuel.
  destruct (solve_spec m fuel Hwf Hfuel) as (st & lv & open & m' & path & S).
  pose proof (sol_frame S) as (? & ? & ? & ?).
  exists m', path. split_and!; try done; try apply S.
  intros q.
  destruct (solved_cell_cases S q) as [Heq|[Hq [Hv|Hv]]];
    rewrite ?Heq, ?Hq, ?Hv; unfold Wall, Passage, Visited, OnPath;
    split_and!; intros; try congruence; auto.
Qed.

Lemma solve_frame_witness :
  ∃ m' path,
    solve_sequential 12 demo_maze = Ok (m', path) ∧
    width m' = width demo_maze ∧ height m' = height demo_maze ∧
    start_pos m' = start_pos demo_maze ∧ end_pos m' = end_pos demo_maze ∧
    wf_maze m' ∧
    ∀ q,
      (cell (maze demo_maze) q = Some Wall → cell (maze m') q = Some Wall) ∧
      (cell (maze m') q = Some Wall → cell (maze demo_maze) q = Some Wall) ∧
      (cell (maze m') q = Some Passage →
       cell (maze demo_maze) q = Some Passage) ∧
      (cell (maze demo_maze) q = Some Passage →
       cell (maze m') q = Some Passage ∨ cell (maze m') q = Some Visited ∨
       cell (maze m') q = Some OnPath).
Proof.
  apply (solve_frame demo_maze 12).
  - split; [reflexivity|]. repeat constructor.
  - vm_compute. lia.
Defined.

(** ** C9 *)

(** C9: for every maze with width and height at least 3, [generate_maze]
    terminates: the carving loop ends with an empty stack within the
    budget, and no cell is pushed on the stack twice. Every cell pushed is
    an interior cell of the coarse lattice, was a wall when the loop
    started (only walls qualify as neighbours) and is a passage when it
    ends (it is carved when pushed). *)
Theorem generate_terminates {rng : Type}
    (shuffle : rng → list (Z * Z) → list (Z * Z) * rng)
    (m : Maze) (r : rng) (fg : nat) :
  (∀ r l, (shuffle r l).1 ≡ₚ l) →
  wf_maze m → 3 ≤ width m → 3 ≤ height m →
  (gen_fuel (width m) (height m) ≤ fg)%nat →
  ∃ st m1,
    carve_loop shuffle fg (height m) (width m)
      (carve_start (width m) (height m) r) = Ok st ∧
    g_stack st = [] ∧
    generate_maze shuffle fg m r = Ok (m1, g_rng st) ∧
    NoDup ((1, 1) :: carve_pushes shuffle fg (height m) (width m)
                       (carve_start (width m) (height m) r)) ∧
    (∀ p, p ∈ (1, 1) :: carve_pushes shuffle fg (height m) (width m)
                          (carve_start (width m) (height m) r) →
          coarse (height m) (width m) p ∧
          cell (g_maze st) p = Some Passage) ∧
    (∀ p, p ∈ carve_pushes shuffle fg (height m) (width m)
                (carve_start (width m) (height m) r) →
          cell (g_maze (carve_start (width m) (height m) r)) p = Some Wall).
Proof.
  intros Hperm Hwf Hw Hh Hfg.
  destruct (generate_maze_spec shuffle Hperm (height m) (width m) m fg r)
    as (st & Hloop & I & Hempty & Hnd & Hcoarse & Hwall & Hgen); try done.
  by eexists st, _.
Qed.

Lemma generate_terminates_witness :
  ∃ st m1,
    carve_loop rev_shuffle 50 (height (blank_maze 5 5)) (width (blank_maze 5 5))
      (carve_start (width (blank_maze 5 5)) (height (blank_maze 5 5)) tt) = Ok st ∧
    g_stack st = [] ∧
    generate_maze rev_shuffle 50 (blank_maze 5 5) tt = Ok (m1, g_rng st) ∧
    NoDup ((1, 1) :: carve_pushes rev_shuffle 50 (height (blank_maze 5 5))
                       (width (blank_maze 5 5))
                       (carve_start (width (blank_maze 5 5))
                          (height (blank_maze 5 5)) tt)) ∧
    (∀ p, p ∈ (1, 1) :: carve_pushes rev_shuffle 50 (height (blank_maze 5 5))
                          (width (blank_maze 5 5))
                          (carve_start (width (blank_maze 5 5))
                             (height (blank_maze 5 5)) tt) →
          coarse (height (blank_maze 5 5)) (width (blank_maze 5 5)) p ∧
          cell (g_maze st) p = Some Passage) ∧
    (∀ p, p ∈ carve_pushes rev_shuffle 50 (height (blank_maze 5 5))
                (width (blank_maze 5 5))
                (carve_start (width (blank_maze 5 5))
                   (height (blank_maze 5 5)) tt) →
          cell (g_maze (carve_start (width (blank_maze 5 5))
                          (height (blank_maze 5 5)) tt)) p = Some Wall).
Proof.
  apply (generate_terminates rev_shuffle (blank_maze 5 5) tt 50).
  - intros r l. simpl. apply reverse_Permutation.
  - split; [reflexivity|]. repeat constructor.
  - simpl. lia.
  - simpl. lia.
  - vm_compute. lia.
Defined.

(** The pushes of the 5 by 5 run: the three other cells of the lattice. *)
Example carve_pushes_5x5 :
  carve_pushes rev_shuffle 50 5 5 (carve_start 5 5 tt) = [(3, 1); (3, 3); (1, 3)].
Proof. by vm_compute. Qed.

(** ** C10 *)

(** C10: for every grid whose entrance and exit lie within bounds, every
    grid access of [solve_sequential] is in bounds. A neighbour is read and
    written only when it passes the bounds test, every key of [visited] and
    every position of the path is within bounds, and no [IndexError] is
    raised, whatever the loop budget. *)
Theorem solve_in_bounds (m : Maze) :
  wf_maze m →
  in_bounds (height m) (width m) (start_pos m) →
  in_bounds (height m) (width m) (end_pos m) →
  (∀ fuel x, solve_sequential fuel m ≠ Raise x) ∧
  (∀ c st d, wf_grid (height m) (width m) (b_maze st) →
     visit (height m) (width m) c st d = Ok st ∨
     (in_bounds (height m) (width m) (nb_of c d) ∧
      visit (height m) (width m) c st d = Ok (discover c st (nb_of c d)))) ∧
  (∀ fuel, (solve_fuel m ≤ fuel)%nat →
     ∃ st m' path,
       bfs_loop fuel (height m) (width m) (end_pos m) (bfs_start m) = Ok st ∧
       solve_sequential fuel m = Ok (m', path) ∧
       (∀ q, is_Some (b_visited st !! q) → in_bounds (height m) (width m) q) ∧
       Forall (in_bounds (height m) (width m)) path).
Proof.
  intros Hwf Hs He. split_and!.
  - intros fuel x. by apply solve_no_raise.
  - intros c st d Hwfst. rewrite visit_unfold by done.
    case_decide as Hf; [right|by left]. split; [apply Hf|done].
  - intros fuel Hfuel.
    destruct (solve_spec m fuel Hwf Hfuel) as (st & lv & open & m' & path & S).
    assert (Hv : ∀ q, is_Some (b_visited st !! q) →
                      in_bounds (height m) (width m) q).
    { intros q Hq. destruct (decide (q = start_pos m)) as [->|Hne]; [done|].
      by destruct (solved_visited_ne S q Hq Hne) as [[? _] _]. }
    exists st, m', path. split_and!; try apply S; [done|].
    apply Forall_forall. intros q Hq.
    destruct (decide (q = end_pos m)) as [->|Hne]; [done|].
    by apply Hv, (solved_path_visited S).
Qed.

Lemma solve_in_bounds_witness :
  (∀ fuel x, solve_sequential fuel demo_maze ≠ Raise x) ∧
  (∀ c st d, wf_grid (height demo_maze) (width demo_maze) (b_maze st) →
     visit (height demo_maze) (width demo_maze) c st d = Ok st ∨
     (in_bounds (height demo_maze) (width demo_maze) (nb_of c d) ∧
      visit (height demo_maze) (width demo_maze) c st d
      = Ok (discover c st (nb_of c d)))) ∧
  (∀ fuel, (solve_fuel demo_maze ≤ fuel)%nat →
     ∃ st m' path,
       bfs_loop fuel (height demo_maze) (width demo_maze) (end_pos demo_maze)
         (bfs_start demo_maze) = Ok st ∧
       solve_sequential fuel demo_maze = Ok (m', path) ∧
       (∀ q, is_Some (b_visited st !! q) →
             in_bounds (height demo_maze) (width demo_maze) q) ∧
       Forall (in_bounds (height demo_maze) (width demo_maze)) path).
Proof.
  apply (solve_in_bounds demo_maze).
  - split; [reflexivity|]. repeat constructor.
  - unfold in_bounds. simpl. lia.
  - unfold in_bounds. simpl. lia.
Defined.


(** * Further properties of the solver *)

Section Levels.
Variables (h w : Z) (s e : pos) (g0 : grid).

(** The level of a discovered position is its distance from the
    entrance, at any moment of the search. *)
Lemma bfs_level_exact (open : list pos) (lv : pos → nat) (g : grid)
    (v : gmap pos (option pos)) (p : pos) :
  bfs_inv h w s e g0 open lv g v → is_Some (v !! p) →
  at_level h w g0 s (lv p) p.
Proof.
  intros I Hp. split; [by eapply bfs_level_reach|].
  intros k Hk.
  destruct (bfs_lower_bound h w s e g0 open lv g v I k p Hk)
    as [[_ Hle]|(x & Hx & Hlt)]; [done|].
  pose proof (inv_span I p x Hp Hx). lia.
Qed.
End Levels.

Section SolvedMore.
Context {m : Maze} {fuel : nat} {st : bfs_state} {lv : pos → nat}
  {open : list pos} {m' : Maze} {path : list pos}.
Hypothesis S : solved m fuel st lv open m' path.
Implicit Types (p q : pos).

(** Once the exit is discovered the open list is headed by it. *)
Lemma solved_exit_open :
  is_Some (b_visited st !! end_pos m) → end_pos m ∈ open.
Proof.
  intros He. destruct (inv_open (sol_inv S) (end_pos m) He) as [?|[? _]]; done.
Qed.

(** Every position within the distance of the exit has been discovered. *)
Lemma solved_near_visited q k :
  is_Some (b_visited st !! end_pos m) →
  nsteps (step (height m) (width m) (maze m)) k (start_pos m) q →
  (k ≤ lv (end_pos m))%nat →
  is_Some (b_visited st !! q).
Proof.
  intros He Hk Hle. pose proof (sol_inv S) as I.
  destruct (bfs_lower_bound _ _ _ _ _ _ _ _ _ I k q Hk)
    as [[Hq _]|(x & Hx & Hlt)]; [done|].
  exfalso. destruct (sol_open S) as [Ho|[rest Ho]]; rewrite Ho in Hx.
  - by apply elem_of_nil in Hx.
  - apply list_elem_of_lookup in Hx as [j Hj].
    assert (H0 : open !! 0%nat = Some (end_pos m)) by (by rewrite Ho).
    rewrite <- Ho in Hj.
    pose proof (inv_sorted I 0%nat j _ _ H0 Hj). lia.
Qed.

(** No discovered position is more than one level beyond the exit. *)
Lemma solved_visited_far q :
  is_Some (b_visited st !! end_pos m) → is_Some (b_visited st !! q) →
  (lv q ≤ Datatypes.S (lv (end_pos m)))%nat.
Proof.
  intros He Hq. apply (inv_span (sol_inv S)); [done|]. by apply solved_exit_open.
Qed.

(** A cell the call changed had been discovered, and is not the
    entrance. *)
Lemma solved_changed q :
  cell (maze m') q ≠ cell (maze m) q →
  is_Some (b_visited st !! q) ∧ q ≠ start_pos m.
Proof.
  rewrite (solved_cell S). case_decide as Hp; [|case_decide as Hv].
  - intros _. destruct Hp as (Hq & Hs & He). split; [|done].
    by apply (solved_path_visited S).
  - done.
  - done.
Qed.

(** When the queue ran dry, what is discovered is what is reachable. *)
Lemma solved_flood q :
  b_visited st !! end_pos m = None →
  is_Some (b_visited st !! q) ↔ reachable m q.
Proof.
  intros He. pose proof (sol_inv S) as I. split.
  - intros Hq. eexists. by eapply bfs_level_reach.
  - intros [n Hn].
    destruct (bfs_lower_bound _ _ _ _ _ _ _ _ _ I n q Hn)
      as [[Hq _]|(x & Hx & _)]; [done|].
    exfalso. destruct (sol_open S) as [Ho|[rest Ho]]; rewrite Ho in Hx.
    + by apply elem_of_nil in Hx.
    + assert (Hin : end_pos m ∈ open) by (rewrite Ho; apply list_elem_of_here).
      apply (inv_queue I) in Hin. rewrite He in Hin. by destruct Hin.
Qed.
End SolvedMore.

(** With the entrance on the exit the loop breaks at once and nothing is
    read from or written to the grid. *)
Lemma solve_same_ends (m : Maze) (fuel : nat) :
  start_pos m = end_pos m → (2 ≤ fuel)%nat →
  solve_sequential fuel m = Ok (m, [start_pos m]).
Proof.
  intros Hse Hfuel. destruct fuel as [|[|fuel]]; [lia|lia|].
  unfold solve_sequential. rewrite bfs_loop_S. cbn [b_queue]. cbn zeta.
  rewrite decide_True by done. cbn [mbind result_bind b_visited b_maze].
  rewrite reconstruct_Some. unfold dict_get.
  rewrite <- Hse, lookup_singleton_eq. rewrite reconstruct_None.
  cbn [mbind result_bind app for_each]. rewrite mark_unfold.
  rewrite decide_False by (intros [? _]; done).
  cbn [mbind result_bind]. destruct m as [w0 h0 g0 s0 e0]; cbn in *.
  by subst.
Qed.

(** Each step changes the Manhattan distance to a fixed position by one,
    so a linked list from [a] to [b] has the Manhattan distance of its
    ends plus an even number of steps. *)
Lemma linked_manhattan (l : list pos) : ∀ a b,
  linked (a :: l) → last (a :: l) = Some b →
  ∃ k : nat, Z.of_nat (length l) = manhattan a b + 2 * Z.of_nat k.
Proof.
  induction l as [|x l IH]; intros a b Hlink Hlast.
  - injection Hlast as ->. exists 0%nat. unfold manhattan. cbn [length]. lia.
  - destruct Hlink as [Hadj Hlink]. rewrite last_cons_cons in Hlast.
    destruct (IH x b Hlink Hlast) as [k Hk].
    assert (Hd : manhattan a b = manhattan x b + 1 ∨
                 manhattan a b + 1 = manhattan x b).
    { unfold adjacent in Hadj. unfold manhattan.
      destruct a as [a1 a2], x as [x1 x2], b as [b1 b2]. cbn [fst snd] in *. lia. }
    destruct Hd as [Hd|Hd].
    + exists k. cbn [length]. lia.
    + exists (Datatypes.S k). cbn [length]. lia.
Qed.

(** ** X1 *)

(** X1: when the entrance and the exit of a maze are the same position,
    [solve_sequential] returns the one-element path holding that position
    and the maze exactly as it was: the loop breaks on the first dequeued
    position, so no grid cell is read or written and the grid does not
    even have to be well formed. *)
Theorem solve_entrance_is_exit (m : Maze) (fuel : nat) :
  start_pos m = end_pos m → (2 ≤ fuel)%nat →
  solve_sequential fuel m = Ok (m, [end_pos m]).
Proof.
  intros Hse Hfuel. rewrite <- Hse. by apply solve_same_ends.
Qed.

Lemma solve_entrance_is_exit_witness :
  solve_sequential 2 (blank_maze 1 1) = Ok (blank_maze 1 1, [end_pos (blank_maze 1 1)]).
Proof.
  apply (solve_entrance_is_exit (blank_maze 1 1) 2).
  - reflexivity.
  - lia.
Defined.

(** ** X2 *)

(** X2: when the exit is reachable, the position at index [i] of the path
    returned by [solve_sequential] is exactly [i] steps away from the
    entrance: [i] steps onto passage cells lead to it and no fewer do. So
    every prefix of the path is itself a shortest route, and the path
    visits no position twice. *)
Theorem solve_path_levels (m : Maze) (fuel : nat) (l0 : list pos) :
  wf_maze m → route m l0 → (solve_fuel m ≤ fuel)%nat →
  ∃ m' path,
    solve_sequential fuel m = Ok (m', path) ∧
    NoDup path ∧
    ∀ i x, path !! i = Some x →
      at_level (height m) (width m) (maze m) (start_pos m) i x.
Proof.
  intros Hwf Hl0 Hfuel.
  destruct (solve_spec m fuel Hwf Hfuel) as (st & lv & open & m' & path & S).
  assert (He : is_Some (b_visited st !! end_pos m)).
  { apply (solved_found_iff S). eexists. by apply route_nsteps. }
  pose proof (sol_path S) as Hp. destruct He as [o He]. rewrite He in Hp.
  destruct Hp as (_ & _ & _ & _ & Hall & Hidx).
  exists m', path. split_and!; [apply S| |].
  - apply NoDup_alt. intros i j x Hi Hj.
    apply Hidx in Hi. apply Hidx in Hj. congruence.
  - intros i x Hi. rewrite <- (Hidx i x Hi).
    eapply bfs_level_exact; [apply S|].
    apply Hall. by eapply list_elem_of_lookup_2.
Qed.

Lemma demo_maze_route :
  route demo_maze [(0, 1); (1, 1); (2, 1); (3, 1); (3, 2); (3, 3); (4, 3)].
Proof.
  split_and!; [reflexivity|reflexivity| |].
  - simpl. unfold adjacent. simpl. lia.
  - repeat (apply Forall_cons; split;
            [split; [unfold in_bounds; simpl; lia|reflexivity]|]).
    apply Forall_nil_2.
Qed.

Lemma solve_path_levels_witness :
  ∃ m' path,
    solve_sequential 12 demo_maze = Ok (m', path) ∧
    NoDup path ∧
    ∀ i x, path !! i = Some x →
      at_level (height demo_maze) (width demo_maze) (maze demo_maze)
        (start_pos demo_maze) i x.
Proof.
  apply (solve_path_levels demo_maze 12
           [(0, 1); (1, 1); (2, 1); (3, 1); (3, 2); (3, 3); (4, 3)]).
  - split; [reflexivity|]. repeat constructor.
  - apply demo_maze_route.
  - vm_compute. lia.
Defined.

(** ** X3 *)

(** X3: when the exit cannot be reached, the search floods exactly the
    part of the maze that can: a passage cell ends up marked [Visited] if
    and only if it is not the entrance and can be reached from the
    entrance by 4-adjacent steps onto passage cells. Passages cut off from
    the entrance keep their value. *)
Theorem solve_floods (m : Maze) (fuel : nat) :
  wf_maze m → ¬ (∃ l, route m l) → (solve_fuel m ≤ fuel)%nat →
  ∃ m',
    solve_sequential fuel m = Ok (m', [end_pos m]) ∧
    ∀ q, (cell (maze m) q = Some Passage ∧ cell (maze m') q = Some Visited)
         ↔ (q ≠ start_pos m ∧ reachable m q).
Proof.
  intros Hwf Hno Hfuel.
  destruct (solve_spec m fuel Hwf Hfuel) as (st & lv & open & m' & path & S).
  assert (He : b_visited st !! end_pos m = None).
  { destruct (b_visited st !! end_pos m) as [o|] eqn:Ho; [|done].
    exfalso. apply Hno. exists path.
    apply (solved_route S). by rewrite Ho. }
  pose proof (sol_path S) as Hp. rewrite He in Hp. subst path.
  exists m'. split; [apply S|]. intros q. split.
  - intros [H0 H2].
    destruct (solved_changed S q) as [Hv Hne].
    { rewrite H0, H2. unfold Passage, Visited. congruence. }
    split; [done|]. by apply (solved_flood S).
  - intros [Hne Hr]. apply (solved_flood S q He) in Hr.
    destruct (solved_visited_ne S q Hr Hne) as [[_ H0] _].
    split; [done|]. rewrite (solved_cell S).
    rewrite decide_False.
    + by rewrite decide_True.
    + intros (Hq & _ & Hqe). by apply list_elem_of_singleton in Hq.
Qed.

Lemma solve_floods_witness :
  ∃ m',
    solve_sequential 5 walled_maze = Ok (m', [end_pos walled_maze]) ∧
    ∀ q, (cell (maze walled_maze) q = Some Passage ∧
          cell (maze m') q = Some Visited)
         ↔ (q ≠ start_pos walled_maze ∧ reachable walled_maze q).
Proof.
  apply (solve_floods walled_maze 5).
  - split; [reflexivity|]. repeat constructor.
  - apply walled_maze_no_route.
  - vm_compute. lia.
Defined.

(** ** X4 *)

(** X4: when the exit is reachable the search stops early, and what it has
    marked by then is a band around the entrance. With [d] the number of
    steps of the returned path, every position other than the entrance
    that can be reached in at most [d] steps has been marked ([Visited] or
    [OnPath]), and every cell the call changed can be reached in at most
    [d + 1] steps. *)
Theorem solve_band (m : Maze) (fuel : nat) (l0 : list pos) :
  wf_maze m → route m l0 → (solve_fuel m ≤ fuel)%nat →
  ∃ m' path,
    solve_sequential fuel m = Ok (m', path) ∧
    (∀ q k, q ≠ start_pos m →
       nsteps (step (height m) (width m) (maze m)) k (start_pos m) q →
       (k ≤ length path - 1)%nat →
       cell (maze m') q = Some Visited ∨ cell (maze m') q = Some OnPath) ∧
    (∀ q, cell (maze m') q ≠ cell (maze m) q →
       ∃ k, (k ≤ length path)%nat ∧
            nsteps (step (height m) (width m) (maze m)) k (start_pos m) q).
Proof.
  intros Hwf Hl0 Hfuel.
  destruct (solve_spec m fuel Hwf Hfuel) as (st & lv & open & m' & path & S).
  assert (He : is_Some (b_visited st !! end_pos m)).
  { apply (solved_found_iff S). eexists. by apply route_nsteps. }
  destruct (solved_route S He) as [_ Hlen].
  exists m', path. split_and!; [apply S| |].
  - intros q k Hne Hk Hle.
    assert (Hq : is_Some (b_visited st !! q)).
    { apply (solved_near_visited S q k He Hk). lia. }
    rewrite (solved_cell S). case_decide; [by right|].
    rewrite decide_True by done. by left.
  - intros q Hch. destruct (solved_changed S q Hch) as [Hq _].
    exists (lv q). split.
    + pose proof (solved_visited_far S q He Hq). lia.
    + by eapply bfs_level_reach; [apply S|..].
Qed.

Lemma solve_band_witness :
  ∃ m' path,
    solve_sequential 12 demo_maze = Ok (m', path) ∧
    (∀ q k, q ≠ start_pos demo_maze →
       nsteps (step (height demo_maze) (width demo_maze) (maze demo_maze)) k
         (start_pos demo_maze) q →
       (k ≤ length path - 1)%nat →
       cell (maze m') q = Some Visited ∨ cell (maze m') q = Some OnPath) ∧
    (∀ q, cell (maze m') q ≠ cell (maze demo_maze) q →
       ∃ k, (k ≤ length path)%nat ∧
            nsteps (step (height demo_maze) (width demo_maze) (maze demo_maze)) k
              (start_pos demo_maze) q).
Proof.
  apply (solve_band demo_maze 12
           [(0, 1); (1, 1); (2, 1); (3, 1); (3, 2); (3, 3); (4, 3)]).
  - split; [reflexivity|]. repeat constructor.
  - apply demo_maze_route.
  - vm_compute. lia.
Defined.

(** ** X5 *)

(** X5: when the exit is reachable, the number of positions of the
    returned path is the Manhattan distance between entrance and exit,
    plus one, plus an even number: the path is never shorter than the
    straight-line bound, and the parity of its length is fixed by the two
    end positions alone. *)
Theorem solve_path_parity (m : Maze) (fuel : nat) (l0 : list pos) :
  wf_maze m → route m l0 → (solve_fuel m ≤ fuel)%nat →
  ∃ m' path (k : nat),
    solve_sequential fuel m = Ok (m', path) ∧
    Z.of_nat (length path) =
      manhattan (start_pos m) (end_pos m) + 1 + 2 * Z.of_nat k.
Proof.
  intros Hwf Hl0 Hfuel.
  destruct (solve_spec m fuel Hwf Hfuel) as (st & lv & open & m' & path & S).
  assert (He : is_Some (b_visited st !! end_pos m)).
  { apply (solved_found_iff S). eexists. by apply route_nsteps. }
  destruct (solved_route S He) as [(Hhd & Hlast & Hlink & _) _].
  destruct path as [|a path]; [done|]. injection Hhd as ->.
  destruct (linked_manhattan path _ _ Hlink Hlast) as [k Hk].
  exists m', (start_pos m :: path), k. split; [apply S|].
  cbn [length]. lia.
Qed.

Lemma solve_path_parity_witness :
  ∃ m' path (k : nat),
    solve_sequential 12 demo_maze = Ok (m', path) ∧
    Z.of_nat (length path) =
      manhattan (start_pos demo_maze) (end_pos demo_maze) + 1 + 2 * Z.of_nat k.
Proof.
  apply (solve_path_parity demo_maze 12
           [(0, 1); (1, 1); (2, 1); (3, 1); (3, 2); (3, 3); (4, 3)]).
  - split; [reflexivity|]. repeat constructor.
  - apply demo_maze_route.
  - vm_compute. lia.
Defined.

(** ** X6 *)

(** X6: on every well-formed maze, whatever its cells hold, a call of
    [solve_sequential] made after a first call returns the one-element
    path holding the exit and leaves the maze as the first call left it. *)
Theorem solve_twice (m : Maze) (fuel fuel' : nat) :
  wf_maze m → (solve_fuel m ≤ fuel)%nat → (2 ≤ fuel')%nat →
  ∃ m' path,
    solve_sequential fuel m = Ok (m', path) ∧
    solve_sequential fuel' m' = Ok (m', [end_pos m]).
Proof.
  intros Hwf Hfuel Hfuel'.
  destruct (decide (start_pos m = end_pos m)) as [Hse|Hse].
  - exists m, [start_pos m]. unfold solve_fuel in Hfuel.
    rewrite !solve_same_ends by (done || lia). by rewrite Hse.
  - destruct (solve_spec m fuel Hwf Hfuel) as (st & lv & open & m' & path & S).
    exists m', path. split; [apply S|]. by eapply solve_again.
Qed.

Lemma solve_twice_witness :
  ∃ m' path,
    solve_sequential 12 demo_maze = Ok (m', path) ∧
    solve_sequential 2 m' = Ok (m', [end_pos demo_maze]).
Proof.
  apply (solve_twice demo_maze 12 2).
  - split; [reflexivity|]. repeat constructor.
  - vm_compute. lia.
  - lia.
Defined.

(** * Further properties of the generator *)

Section Regenerate.
Context {rng : Type}.
Variable shuffle : rng → list (Z * Z) → list (Z * Z) * rng.

(** [generate_maze] after its reset loop. *)
Lemma generate_maze_reset (m : Maze) (fuel : nat) (r : rng) :
  wf_maze m →
  generate_maze shuffle fuel m r =
    g1 ← grid_set (all_walls (width m) (height m)) 1 1 0;
    st ← carve_loop shuffle fuel (height m) (width m)
           {| g_maze := g1; g_stack := [(1, 1)];
              g_dirs := carve_directions; g_rng := r |};
    g2 ← grid_set (g_maze st) 0 1 0;
    g3 ← grid_set g2 (height m - 1) (width m - 2) 0;
    Ok ({| width := width m; height := height m; maze := g3;
           start_pos := (0, 1); end_pos := (height m - 1, width m - 2) |},
        g_rng st).
Proof.
  intros Hwf. unfold generate_maze. by rewrite reset_all by done.
Qed.

(** Nothing that [pick] would accept exists in a grid with a dimension
    of 2 or less. *)
Lemma pick_narrow (h w : Z) (g : grid) (c : pos) (dirs : list (Z * Z)) :
  h ≤ 2 ∨ w ≤ 2 → omap (pick h w g c) dirs = [].
Proof.
  intros Hn. induction dirs as [|d dirs IH]; [done|].
  cbn [omap list_omap]. unfold pick at 1. rewrite decide_False; [done|].
  intros [[H1 H2] _]. lia.
Qed.
End Regenerate.

(** ** X7 *)

(** X7: [generate_maze] starts by resetting every cell, so what it
    produces does not depend on what the grid held before: two
    well-formed mazes of the same width and height, whatever their cells
    and their entrance and exit, give the same result from the same state
    of the random source. In particular a maze that has been solved is
    regenerated as if it were new. *)
Theorem generate_maze_fresh {rng : Type}
    (shuffle : rng → list (Z * Z) → list (Z * Z) * rng)
    (m m' : Maze) (fuel : nat) (r : rng) :
  wf_maze m → wf_maze m' → width m = width m' → height m = height m' →
  generate_maze shuffle fuel m r = generate_maze shuffle fuel m' r.
Proof.
  intros Hwf Hwf' Hw Hh.
  rewrite !generate_maze_reset by done. by rewrite Hw, Hh.
Qed.

Lemma generate_maze_fresh_witness :
  generate_maze rev_shuffle 50 demo_maze tt
  = generate_maze rev_shuffle 50 (blank_maze 5 5) tt.
Proof.
  apply (generate_maze_fresh rev_shuffle demo_maze (blank_maze 5 5) 50 tt).
  - split; [reflexivity|]. repeat constructor.
  - split; [reflexivity|]. repeat constructor.
  - reflexivity.
  - reflexivity.
Defined.

(** ** X8 *)

(** X8: on a maze whose height or width is below 2, [generate_maze]
    raises [IndexError]: after the reset loop the assignment to the cell
    (1, 1) is out of range. This holds for every loop budget, since the
    carving loop is not reached. *)
Theorem generate_maze_too_small {rng : Type}
    (shuffle : rng → list (Z * Z) → list (Z * Z) * rng)
    (m : Maze) (fuel : nat) (r : rng) :
  wf_maze m → height m < 2 ∨ width m < 2 →
  generate_maze shuffle fuel m r = Raise IndexError.
Proof.
  intros Hwf Hsmall. rewrite generate_maze_reset by done.
  rewrite grid_set_cell by lia.
  destruct (cell (all_walls (width m) (height m)) (1, 1)) as [v|] eqn:Hc; [|done].
  exfalso.
  apply (wf_grid_cell_inv (height m) (width m)) in Hc as [H1 H2];
    [|apply wf_all_walls].
  cbn [fst snd] in *. lia.
Qed.

Lemma generate_maze_too_small_witness :
  generate_maze id_shuffle 0 (blank_maze 5 1) tt = Raise IndexError.
Proof.
  apply (generate_maze_too_small id_shuffle (blank_maze 5 1) 0 tt).
  - split; [reflexivity|]. repeat constructor.
  - left. vm_compute. reflexivity.
Defined.

(** ** X9 *)

(** X9: on a maze with height and width at least 2 and one of them equal
    to 2, [generate_maze] succeeds without carving anything: no cell is
    interior two steps from (1, 1), so the loop shuffles the directions
    once, pops the stack and ends. The grid produced is all walls except
    the cell (1, 1), the entrance (0, 1) and the exit
    (height - 1, width - 2). *)
Theorem generate_maze_narrow {rng : Type}
    (shuffle : rng → list (Z * Z) → list (Z * Z) * rng)
    (m : Maze) (fuel : nat) (r : rng) :
  wf_maze m → 2 ≤ height m → 2 ≤ width m → height m = 2 ∨ width m = 2 →
  (2 ≤ fuel)%nat →
  generate_maze shuffle fuel m r =
    Ok ({| width := width m; height := height m;
           maze := open_ends (height m) (width m)
                     (upd (all_walls (width m) (height m)) (1, 1) 0);
           start_pos := (0, 1); end_pos := (height m - 1, width m - 2) |},
        (shuffle r carve_directions).2).
Proof.
  intros Hwf Hh Hw Htwo Hfuel. rewrite generate_maze_reset by done.
  set (h := height m) in *. set (w := width m) in *.
  assert (Hwf0 : wf_grid h w (all_walls w h)) by apply wf_all_walls.
  assert (Hb : in_bounds h w (1, 1)) by (unfold in_bounds; cbn; lia).
  rewrite grid_set_cell, cell_all_walls by (done || lia).
  cbn [mbind result_bind].
  set (g1 := upd (all_walls w h) (1, 1) 0).
  assert (Hwf1 : wf_grid h w g1) by by apply wf_grid_upd.
  destruct fuel as [|[|fuel]]; [lia|lia|].
  rewrite carve_loop_S. unfold carve_step at 1.
  cbn [g_stack last g_rng g_dirs g_maze].
  destruct (shuffle r carve_directions) as [dirs r'] eqn:Hsh. cbn [snd].
  rewrite (scan_all h w) by done. rewrite pick_narrow by lia.
  cbn [mbind result_bind app removelast].
  rewrite carve_loop_S, carve_step_empty by done.
  cbn [mbind result_bind g_maze g_rng].
  destruct (wf_grid_cell h w g1 (0, 1) Hwf1) as [v1 Hv1];
    [unfold in_bounds; cbn; lia|].
  rewrite grid_set_cell, Hv1 by lia. cbn [mbind result_bind].
  destruct (wf_grid_cell h w (upd g1 (0, 1) 0) (h - 1, w - 2)) as [v2 Hv2];
    [by apply wf_grid_upd|unfold in_bounds; cbn; lia|].
  rewrite grid_set_cell, Hv2 by lia. done.
Qed.

Lemma generate_maze_narrow_witness :
  generate_maze rev_shuffle 2 (blank_maze 2 4) tt =
    Ok ({| width := 2; height := 4;
           maze := open_ends 4 2 (upd (all_walls 2 4) (1, 1) 0);
           start_pos := (0, 1); end_pos := (4 - 1, 2 - 2) |},
        (rev_shuffle tt carve_directions).2).
Proof.
  apply (generate_maze_narrow rev_shuffle (blank_maze 2 4) 2 tt).
  - split; [reflexivity|]. repeat constructor.
  - vm_compute. discriminate.
  - vm_compute. discriminate.
  - right. reflexivity.
  - lia.
Defined.

Section CountMore.
Implicit Types (g : grid) (row : list Z).

Lemma count_row_insert_new (c : Z) row n v :
  row !! n = Some v → v ≠ c →
  length (filter (λ x, x = c) (<[n := c]> row))
  = S (length (filter (λ x, x = c) row)).
Proof.
  revert n. induction row as [|x row IH]; intros [|n] Hn Hv; try done.
  - injection Hn as ->. change (<[0%nat := c]> (v :: row)) with (c :: row).
    rewrite filter_cons_True by done. by rewrite filter_cons_False.
  - change (<[S n := c]> (x :: row)) with (x :: <[n := c]> row).
    change ((x :: row) !! S n) with (row !! n) in Hn.
    rewrite !filter_cons. destruct (decide (x = c)); simpl;
      by rewrite (IH n).
Qed.

(** Writing [c] on a cell that held something else adds one to the count
    of [c]. *)
Lemma count_cells_upd_new (c : Z) g p v :
  cell g p = Some v → v ≠ c →
  count_cells c (upd g p c) = S (count_cells c g).
Proof.
  intros Hc Hv. pose proof (cell_Some_nonneg _ _ _ Hc) as [H1 H2].
  unfold cell in Hc.
  rewrite (proj2 (Z.leb_le 0 p.1) H1), (proj2 (Z.leb_le 0 p.2) H2) in Hc.
  cbn [andb] in Hc.
  destruct (g !! Z.to_nat p.1) as [row|] eqn:Hrow; [|done]. cbn in Hc.
  pose proof (count_cells_alter c g _ row (λ row, <[Z.to_nat p.2 := c]> row) Hrow) as Ha.
  pose proof (count_row_insert_new c row _ v Hc Hv) as Hr.
  unfold upd. lia.
Qed.

Lemma count_cells_replicate_ne (c v : Z) (n k : nat) :
  v ≠ c → count_cells c (replicate n (replicate k v)) = 0%nat.
Proof.
  intros Hv.
  assert (Hrow : filter (λ x, x = c) (replicate k v) = []).
  { induction k as [|k IHk]; [done|]. cbn [replicate].
    by rewrite filter_cons_False. }
  unfold count_cells. induction n as [|n IH]; [done|].
  cbn [replicate map sum_list]. by rewrite IH, Hrow.
Qed.
End CountMore.

Lemma NoDup_list_prod {A B : Type} (l : list A) (k : list B) :
  NoDup l → NoDup k → NoDup (list_prod l k).
Proof.
  intros Hl Hk. induction Hl as [|x l Hx Hl IH]; [constructor|].
  cbn [list_prod]. apply NoDup_app. split_and!.
  - clear -Hk. induction Hk as [|y k Hy Hk IH]; [constructor|].
    cbn [map]. apply NoDup_cons. split; [|done]. intros Hin.
    apply list_elem_of_In, in_map_iff in Hin as (y' & [= ->] & Hin).
    by apply list_elem_of_In in Hin.
  - intros [a b] Hin Hin'.
    apply list_elem_of_In, in_map_iff in Hin as (y & [= -> ->] & _).
    apply list_elem_of_In, in_prod_iff in Hin' as [Hin' _].
    by apply list_elem_of_In in Hin'.
  - done.
Qed.

Section LatticeList.
Variables h w : Z.

Lemma elem_of_lattice (p : pos) : p ∈ lattice h w ↔ coarse h w p.
Proof.
  unfold lattice, coarse, interior.
  pose proof (Z.div_mod (h - 1) 2 ltac:(lia)) as Hh.
  pose proof (Z.mod_pos_bound (h - 1) 2 ltac:(lia)) as Hh'.
  pose proof (Z.div_mod (w - 1) 2 ltac:(lia)) as Hw.
  pose proof (Z.mod_pos_bound (w - 1) 2 ltac:(lia)) as Hw'.
  rewrite list_elem_of_fmap. split.
  - intros ([i j] & -> & Hin). apply list_elem_of_In, in_prod_iff in Hin.
    rewrite <- !list_elem_of_In, !elem_of_seqZ in Hin. cbn [fst snd].
    split; [lia|]. by exists i, j.
  - intros [Hint (i & j & ->)]. cbn [fst snd] in Hint.
    exists (i, j). split; [done|].
    apply list_elem_of_In, in_prod_iff.
    rewrite <- !list_elem_of_In, !elem_of_seqZ. lia.
Qed.

Lemma NoDup_lattice : NoDup (lattice h w).
Proof.
  unfold lattice. apply NoDup_fmap_2.
  - intros [i j] [i' j'] [= H1 H2]. f_equal; lia.
  - apply NoDup_list_prod; apply NoDup_seqZ.
Qed.

Lemma length_lattice :
  length (lattice h w)
  = (Z.to_nat ((h - 1) `div` 2) * Z.to_nat ((w - 1) `div` 2))%nat.
Proof.
  unfold lattice. by rewrite length_fmap, length_prod, !length_seqZ.
Qed.
End LatticeList.

Section Shape.
Context {rng : Type}.
Variable shuffle : rng → list (Z * Z) → list (Z * Z) * rng.
Hypothesis shuffle_perm : ∀ r l, (shuffle r l).1 ≡ₚ l.
Variables h w : Z.
Implicit Types (st : @gen_state rng) (p q c : pos).

(** One iteration on a non-empty stack, with the grid it leaves. *)
Lemma carve_step_grid st c :
  gen_inv h w st → last (g_stack st) = Some c →
  ∃ st',
    carve_step shuffle h w st = Ok (Some st') ∧
    ((g_stack st' = removelast (g_stack st) ∧ g_maze st' = g_maze st) ∨
     (∃ d, d ∈ carve_directions ∧ interior h w (nb_of c d) ∧
           cell (g_maze st) (nb_of c d) = Some Wall ∧
           g_stack st' = g_stack st ++ [nb_of c d] ∧
           g_maze st' = upd (upd (g_maze st) (mid c d) 0) (nb_of c d) 0)).
Proof.
  intros I Hlast. pose proof (gi_wf I) as Hwf.
  assert (Hc : coarse h w c).
  { apply (gi_stack I). apply last_Some in Hlast as [stk ->].
    apply elem_of_app. right. apply list_elem_of_here. }
  destruct Hc as [Hci (i & j & Hcij)].
  unfold carve_step. rewrite Hlast.
  pose proof (shuffle_perm (g_rng st) (g_dirs st)) as Hperm.
  destruct (shuffle (g_rng st) (g_dirs st)) as [dirs r]. cbn [fst] in Hperm.
  assert (Hperm' : dirs ≡ₚ carve_directions).
  { rewrite Hperm. apply I. }
  rewrite (scan_all h w) by done. cbn [mbind result_bind app].
  destruct (omap (pick h w (g_maze st) c) dirs) as [|[[[nx ny] wx] wy] rest] eqn:Hn.
  - eexists. split; [done|]. by left.
  - assert (Hin : (nx, ny, wx, wy) ∈ omap (pick h w (g_maze st) c) dirs)
      by (rewrite Hn; apply list_elem_of_here).
    apply list_elem_of_omap in Hin as (d & Hd & Hpick).
    unfold pick in Hpick. case_decide as Hnb; [|done].
    destruct Hnb as [Hnbi Hnbc]. injection Hpick as <- <- <- <-.
    assert (Hdc : d ∈ carve_directions) by (by rewrite <- Hperm').
    destruct (carve_dir_half d Hdc) as (Hd1 & Hd2 & Habs).
    assert (Hwli : interior h w (mid c d)).
    { unfold interior, mid, nb_of in *. cbn [fst snd] in *. lia. }
    assert (Hwlnb : mid c d ≠ nb_of c d).
    { intros Heq. apply (f_equal fst) in Heq as Heq1. apply (f_equal snd) in Heq.
      unfold mid, nb_of in Heq, Heq1. cbn [fst snd] in Heq, Heq1. lia. }
    destruct (wf_grid_cell h w (g_maze st) (mid c d) Hwf
                (interior_in_bounds h w _ Hwli)) as [v1 Hv1].
    change (c.1 + d.1 `div` 2) with (mid c d).1.
    change (c.2 + d.2 `div` 2) with (mid c d).2.
    rewrite grid_set_cell by (unfold interior in Hwli; lia).
    replace ((mid c d).1, (mid c d).2) with (mid c d) by done.
    rewrite Hv1. cbn [mbind result_bind].
    assert (Hg1nb : cell (upd (g_maze st) (mid c d) 0) (nb_of c d) = Some (-1)).
    { rewrite cell_upd by by rewrite Hv1. by rewrite decide_False. }
    rewrite grid_set_cell
      by (unfold interior, nb_of in Hnbi; cbn [fst snd] in Hnbi; lia).
    change (c.1 + d.1, c.2 + d.2) with (nb_of c d).
    rewrite Hg1nb. cbn [mbind result_bind].
    eexists. split; [done|]. right. exists d. by split_and!.
Qed.

(** The cell between two lattice cells is not a lattice cell. *)
Lemma mid_not_coarse c d :
  coarse h w c → d ∈ carve_directions → ¬ coarse h w (mid c d).
Proof.
  intros [_ (i & j & ->)] Hd [_ (i' & j' & Heq)].
  destruct (carve_dir_half d Hd) as (Hd1 & Hd2 & Habs).
  apply (f_equal fst) in Heq as Heq1. apply (f_equal snd) in Heq.
  unfold mid in Heq, Heq1. cbn [fst snd] in Heq, Heq1. lia.
Qed.

(** A connection determines the pair of lattice cells it connects. *)
Lemma mid_inj c d c' d' :
  coarse h w c → coarse h w c' →
  d ∈ carve_directions → d' ∈ carve_directions →
  mid c d = mid c' d' →
  nb_of c d = c' ∨ nb_of c d = nb_of c' d'.
Proof.
  intros [_ (i & j & ->)] [_ (i' & j' & ->)] Hd Hd' Heq.
  destruct (carve_dir_half d Hd) as (Hd1 & Hd2 & Habs).
  destruct (carve_dir_half d' Hd') as (Hd1' & Hd2' & Habs').
  apply (f_equal fst) in Heq as Heq1. apply (f_equal snd) in Heq.
  unfold mid in Heq, Heq1. unfold nb_of. cbn [fst snd] in *.
  destruct d as [d1 d2], d' as [d1' d2']. cbn [fst snd] in *.
  assert (Hcase : (d1 = d1' ∧ d2 = d2') ∨ (d1 = - d1' ∧ d2 = - d2')) by lia.
  destruct Hcase as [[-> ->]|[-> ->]].
  - right. f_equal; lia.
  - left. f_equal; lia.
Qed.

(** One iteration keeps the grid lattice shaped; a push turns exactly
    two walls into passages, one of them a lattice cell. *)
Lemma carve_step_shape st c :
  gen_inv h w st → lattice_shaped h w (g_maze st) →
  last (g_stack st) = Some c →
  ∃ st',
    carve_step shuffle h w st = Ok (Some st') ∧
    lattice_shaped h w (g_maze st') ∧
    ((g_stack st' = removelast (g_stack st) ∧ g_maze st' = g_maze st) ∨
     (∃ nb, g_stack st' = g_stack st ++ [nb] ∧
            count0 (g_maze st') = S (S (count0 (g_maze st))) ∧
            ∀ p, coarse h w p → cell (g_maze st') p = Some Passage →
                 cell (g_maze st) p = Some Passage ∨ p = nb)).
Proof.
  intros I Hshape Hlast. pose proof (gi_wf I) as Hwf.
  assert (Hc : coarse h w c ∧ cell (g_maze st) c = Some Passage).
  { apply (gi_stack I). apply last_Some in Hlast as [stk ->].
    apply elem_of_app. right. apply list_elem_of_here. }
  destruct Hc as [Hcc Hc0].
  destruct (carve_step_grid st c I Hlast)
    as (st' & Hstep & [[Hpop Hg]|(d & Hd & Hnbi & Hnbw & Hpush & Hg)]).
  { exists st'. split; [done|]. rewrite Hg. split; [done|]. by left. }
  exists st'. split; [done|].
  set (g := g_maze st) in *. set (nb := nb_of c d) in *.
  set (wl := mid c d) in *.
  destruct (carve_dir_half d Hd) as (Hd1 & Hd2 & Habs).
  assert (Hwli : interior h w wl).
  { destruct Hcc as [Hci _].
    unfold interior, wl, mid, nb, nb_of in *. cbn [fst snd] in *. lia. }
  assert (Hnbc : coarse h w nb).
  { split; [done|]. destruct Hcc as [_ (i & j & Hcij)].
    exists (i + d.1 `div` 2), (j + d.2 `div` 2).
    unfold nb, nb_of. rewrite Hcij. cbn [fst snd]. f_equal; lia. }
  assert (Hwlnb : wl ≠ nb).
  { intros Heq. apply (mid_not_coarse c d Hcc Hd). fold wl. by rewrite Heq. }
  assert (Hwlw : cell g wl = Some Wall).
  { destruct (wf_grid_cell h w g wl Hwf (interior_in_bounds h w _ Hwli)) as [v Hv].
    destruct (gi_cells I wl v Hv) as [-> | ->]; [done|]. exfalso.
    destruct (Hshape wl Hv) as [Hco|(c' & d' & Hc' & Hd' & Heq & Hc'0 & Hnb'0)].
    - by apply (mid_not_coarse c d Hcc Hd).
    - destruct (mid_inj c d c' d' Hcc Hc' Hd Hd' Heq) as [Hn|Hn];
        fold nb in Hn; rewrite <- Hn in *;
        unfold Wall, Passage in *; congruence. }
  assert (Hg1nb : cell (upd g wl 0) nb = Some (-1)).
  { rewrite cell_upd by by rewrite Hwlw. by rewrite decide_False. }
  assert (Hg2 : ∀ q, cell (g_maze st') q =
                     if decide (nb = q) then Some 0
                     else if decide (wl = q) then Some 0 else cell g q).
  { intros q. rewrite Hg. rewrite cell_upd by by rewrite Hg1nb.
    case_decide; [done|]. by rewrite cell_upd by by rewrite Hwlw. }
  assert (Hmono : ∀ q, cell g q = Some Passage → cell (g_maze st') q = Some Passage).
  { intros q Hq. rewrite Hg2. by repeat case_decide. }
  split_and!.
  - intros p. rewrite Hg2. intros Hp.
    destruct (decide (nb = p)) as [<-|Hnp]; [by left|].
    destruct (decide (wl = p)) as [<-|Hwp].
    + right. exists c, d. split_and!; try done.
      * by apply Hmono.
      * fold nb. rewrite Hg2. by rewrite decide_True.
    + destruct (Hshape p Hp) as [?|(c' & d' & ? & ? & ? & ? & ?)]; [by left|].
      right. exists c', d'. split_and!; try done; by apply Hmono.
  - right. exists nb. split_and!; [done| |].
    + unfold count0. rewrite Hg.
      rewrite (count_cells_upd_new 0 _ nb (-1)) by done.
      by rewrite (count_cells_upd_new 0 g wl (-1)).
    + intros p Hpc. rewrite Hg2. intros Hp.
      destruct (decide (nb = p)) as [<-|Hnp]; [by right|].
      destruct (decide (wl = p)) as [<-|Hwp]; [|by left].
      exfalso. by apply (mid_not_coarse c d Hcc Hd).
Qed.

(** The carving loop keeps the grid lattice shaped, adds two passages
    for every push, and carves no lattice cell that it did not push. *)
Lemma carve_loop_shape fuel : ∀ st,
  gen_inv h w st → lattice_shaped h w (g_maze st) →
  (carve_measure st < fuel)%nat →
  ∃ st',
    carve_loop shuffle fuel h w st = Ok st' ∧
    lattice_shaped h w (g_maze st') ∧
    (count0 (g_maze st')
     = count0 (g_maze st) + 2 * length (carve_pushes shuffle fuel h w st))%nat ∧
    (∀ p, coarse h w p → cell (g_maze st') p = Some Passage →
          cell (g_maze st) p = Some Passage ∨
          p ∈ carve_pushes shuffle fuel h w st).
Proof.
  induction fuel as [|fuel IH]; intros st I Hshape Hfuel; [lia|].
  rewrite carve_loop_S, carve_pushes_S.
  destruct (last (g_stack st)) as [c|] eqn:Hlast.
  - destruct (carve_step_inv shuffle shuffle_perm h w st c I Hlast)
      as (st1 & Hstep & I1 & Hm & _).
    destruct (carve_step_shape st c I Hshape Hlast)
      as (st1' & Hstep' & Hshape1 & Hkind).
    rewrite Hstep in Hstep'. injection Hstep' as <-.
    rewrite Hstep. cbn [mbind result_bind].
    destruct (IH st1 I1 Hshape1) as (st' & Hloop & Hshape' & Hcnt & Hnew); [lia|].
    exists st'. split; [done|]. split; [done|].
    destruct Hkind as [[Hpop Hg]|(nb & Hpush & Hcnt1 & Hnew1)].
    + rewrite decide_False.
      2: { rewrite Hpop. apply last_Some in Hlast as [stk ->].
           rewrite removelast_last, length_app. cbn [length]. lia. }
      cbn [app]. rewrite <- Hg. done.
    + rewrite decide_True by (rewrite Hpush, length_app; cbn [length]; lia).
      rewrite Hpush, last_snoc. change (option_list (Some nb)) with [nb].
      cbn [app length]. split; [lia|].
      intros p Hpc Hp. destruct (Hnew p Hpc Hp) as [Hp1|Hin].
      * destruct (Hnew1 p Hpc Hp1) as [? | ->]; [by left|].
        right. apply list_elem_of_here.
      * right. by apply list_elem_of_further.
  - apply last_None in Hlast.
    rewrite (carve_step_empty shuffle h w st Hlast). cbn [mbind result_bind].
    exists st. split_and!; try done.
    intros p _ Hp. by left.
Qed.

(** The grid on entry to the carving loop. *)
Lemma carve_start_shape (r : rng) :
  3 ≤ h → 3 ≤ w →
  lattice_shaped h w (g_maze (carve_start w h r)) ∧
  count0 (g_maze (carve_start w h r)) = 1%nat ∧
  ∀ p, cell (g_maze (carve_start w h r)) p = Some Passage → p = (1, 1).
Proof.
  intros Hh Hw. cbn [carve_start g_maze].
  assert (Hb : in_bounds h w (1, 1)) by (unfold in_bounds; cbn; lia).
  assert (Hone : ∀ q, cell (upd (all_walls w h) (1, 1) 0) q = Some Passage → q = (1, 1)).
  { intros q. rewrite cell_upd by by rewrite cell_all_walls.
    case_decide; [done|]. intros Hq. by apply cell_all_walls_inv in Hq. }
  split_and!; [| |done].
  - intros p Hp. left. rewrite (Hone p Hp).
    split; [unfold interior; cbn; lia|]. by exists 0, 0.
  - unfold count0.
    rewrite (count_cells_upd_new 0 _ (1, 1) (-1)) by (by rewrite ?cell_all_walls).
    unfold all_walls. by rewrite count_cells_replicate_ne.
Qed.

(** What [generate_maze] produces, with the shape of the carved grid and
    the number of its passages. *)
Lemma generated_shape (m : Maze) (fuel : nat) (r : rng) :
  height m = h → width m = w → wf_maze m → 3 ≤ h → 3 ≤ w →
  (gen_fuel w h ≤ fuel)%nat →
  ∃ st,
    generate_maze shuffle fuel m r
    = Ok ({| width := w; height := h; maze := open_ends h w (g_maze st);
             start_pos := (0, 1); end_pos := (h - 1, w - 2) |}, g_rng st) ∧
    gen_inv h w st ∧ g_stack st = [] ∧
    lattice_shaped h w (g_maze st) ∧
    Z.of_nat (count0 (g_maze st))
    = 2 * ((h - 1) `div` 2) * ((w - 1) `div` 2) - 1 ∧
    Z.of_nat (length (carve_pushes shuffle fuel h w (carve_start w h r)))
    = ((h - 1) `div` 2) * ((w - 1) `div` 2) - 1.
Proof.
  intros Hhm Hwm Hwf Hh Hw Hfuel.
  destruct (generate_maze_spec shuffle shuffle_perm h w m fuel r)
    as (st & Hloop & I & Hempty & Hnd & Hpushed & _ & Hgen); try done.
  destruct (carve_start_shape r Hh Hw) as (Hshape0 & Hcnt0 & Hone).
  destruct (carve_loop_shape fuel (carve_start w h r))
    as (st' & Hloop' & Hshape & Hcnt & Hnew).
  { by apply gen_inv_start. }
  { done. }
  { pose proof (carve_start_measure h w r Hh Hw). lia. }
  rewrite Hloop in Hloop'. injection Hloop' as <-.
  set (l := (1, 1) :: carve_pushes shuffle fuel h w (carve_start w h r)) in *.
  assert (Hperm : l ≡ₚ lattice h w).
  { apply list_relations.list.NoDup_Permutation; [exact Hnd|apply NoDup_lattice|].
    intros p. rewrite elem_of_lattice. split.
    - intros Hp. by apply Hpushed.
    - intros Hp.
      pose proof (all_coarse_carved h w st I Hempty p Hp) as Hp0.
      destruct (Hnew p Hp Hp0) as [Hs|Hin].
      + rewrite (Hone p Hs). apply list_elem_of_here.
      + by apply list_elem_of_further. }
  apply Permutation_length in Hperm. rewrite length_lattice in Hperm.
  unfold l in Hperm. cbn [length] in Hperm.
  pose proof (Z.div_mod (h - 1) 2 ltac:(lia)) as Hdh.
  pose proof (Z.mod_pos_bound (h - 1) 2 ltac:(lia)) as Hdh'.
  pose proof (Z.div_mod (w - 1) 2 ltac:(lia)) as Hdw.
  pose proof (Z.mod_pos_bound (w - 1) 2 ltac:(lia)) as Hdw'.
  set (A := (h - 1) `div` 2) in *. set (B := (w - 1) `div` 2) in *.
  assert (HAB : Z.of_nat (S (length (carve_pushes shuffle fuel h w (carve_start w h r))))
                = A * B).
  { rewrite Hperm, Nat2Z.inj_mul, !Z2Nat.id by lia. done. }
  exists st. split_and!; try done; [rewrite Hcnt, Hcnt0|]; lia.
Qed.
End Shape.

Section GeneratedMore.
Context {rng : Type}.
Variable shuffle : rng → list (Z * Z) → list (Z * Z) * rng.
Hypothesis shuffle_perm : ∀ r l, (shuffle r l).1 ≡ₚ l.
Variables (h w : Z) (st : @gen_state rng).
Hypothesis (Hh : 3 ≤ h) (Hw : 3 ≤ w).
Hypothesis (I : gen_inv h w st) (Hempty : g_stack st = []).
Implicit Types (p q : pos).

(** Every passage of the produced grid other than the exit can be
    reached from the entrance. *)
Lemma produced_connected q :
  cell (open_ends h w (g_maze st)) q = Some Passage → q ≠ (h - 1, w - 2) →
  ∃ n, nsteps (step h w (open_ends h w (g_maze st))) n (0, 1) q.
Proof.
  rewrite (produced_cell h w st Hh Hw I). intros Hq Hne.
  rewrite decide_False in Hq by done.
  destruct (decide ((0, 1) = q)) as [<-|Hns].
  { exists 0%nat. constructor. }
  apply rtc_nsteps. eapply rtc_l.
  - instantiate (1 := (1, 1)). split; [unfold adjacent; cbn; lia|].
    split; [unfold in_bounds; cbn; lia|].
    apply (produced_mono h w st Hh Hw I). exact (gi_origin I).
  - eapply reach_mono; [apply (produced_mono h w st Hh Hw I)|].
    by apply (gi_conn I).
Qed.

(** The two openings were walls, so they add two passages. *)
Lemma produced_count :
  count0 (open_ends h w (g_maze st)) = S (S (count0 (g_maze st))).
Proof.
  pose proof (gi_wf I) as Hwf.
  assert (Hwall : ∀ p, in_bounds h w p → ¬ interior h w p →
            cell (g_maze st) p = Some Wall).
  { intros p Hb Hni.
    destruct (wf_grid_cell h w (g_maze st) p Hwf Hb) as [v Hv].
    destruct (gi_cells I p v Hv) as [-> | ->]; [done|].
    by apply (gi_interior I) in Hv. }
  assert (Hs : cell (g_maze st) (0, 1) = Some Wall).
  { apply Hwall; [unfold in_bounds; cbn; lia|unfold interior; cbn; lia]. }
  assert (He : cell (g_maze st) (h - 1, w - 2) = Some Wall).
  { apply Hwall; [unfold in_bounds; cbn; lia|unfold interior; cbn; lia]. }
  unfold open_ends, count0.
  rewrite (count_cells_upd_new 0 _ (h - 1, w - 2) (-1)).
  - by rewrite (count_cells_upd_new 0 _ (0, 1) (-1)).
  - rewrite cell_upd by by rewrite Hs. rewrite decide_False; [done|].
    intros [= ? ?]. lia.
  - done.
Qed.
End GeneratedMore.

(** ** X10 *)

(** X10: in the maze produced by [generate_maze] (width and height at
    least 3) every passage cell other than the exit can be reached from
    the entrance by 4-adjacent steps onto passage cells: the carving
    leaves no isolated passage. With odd width and height the exit can be
    reached as well. *)
Theorem generated_connected {rng : Type}
    (shuffle : rng → list (Z * Z) → list (Z * Z) * rng)
    (m : Maze) (r : rng) (fg : nat) :
  (∀ r l, (shuffle r l).1 ≡ₚ l) →
  wf_maze m → 3 ≤ width m → 3 ≤ height m →
  (gen_fuel (width m) (height m) ≤ fg)%nat →
  ∃ m1 r',
    generate_maze shuffle fg m r = Ok (m1, r') ∧
    ∀ q, cell (maze m1) q = Some Passage →
         q ≠ end_pos m1 ∨ (Z.Odd (width m) ∧ Z.Odd (height m)) →
         reachable m1 q.
Proof.
  intros Hperm Hwf Hw Hh Hfg.
  destruct (generate_maze_spec shuffle Hperm (height m) (width m) m fg r)
    as (st & _ & I & Hempty & _ & _ & _ & Hgen); try done.
  eexists _, _. split; [exact Hgen|].
  unfold reachable. cbn [maze end_pos start_pos height width].
  fold (open_ends (height m) (width m) (g_maze st)).
  intros q Hq Hcase.
  destruct (decide (q = (height m - 1, width m - 2))) as [->|Hne].
  - destruct Hcase as [?|[Hwo Hho]]; [done|].
    by apply produced_route.
  - by apply produced_connected.
Qed.

Lemma generated_connected_witness :
  ∃ m1 r',
    generate_maze rev_shuffle 50 (blank_maze 5 5) tt = Ok (m1, r') ∧
    ∀ q, cell (maze m1) q = Some Passage →
         q ≠ end_pos m1 ∨
         (Z.Odd (width (blank_maze 5 5)) ∧ Z.Odd (height (blank_maze 5 5))) →
         reachable m1 q.
Proof.
  apply (generated_connected rev_shuffle (blank_maze 5 5) tt 50).
  - intros r l. simpl. apply reverse_Permutation.
  - split; [reflexivity|]. repeat constructor.
  - simpl. lia.
  - simpl. lia.
  - vm_compute. lia.
Defined.

(** ** X11 *)



(** ** X12 *)

(** X12: the number of passage cells of the maze produced by
    [generate_maze] (width and height at least 3) does not depend on the
    random source: it is [2 * a * b + 1], where [a = (height - 1) // 2]
    and [b = (width - 1) // 2] count the rows and columns of lattice
    cells. These are the [a * b] lattice cells, the [a * b - 1]
    connections carved between them (one for every cell pushed on the
    stack), the entrance and the exit. *)
Theorem generated_passage_count {rng : Type}
    (shuffle : rng → list (Z * Z) → list (Z * Z) * rng)
    (m : Maze) (r : rng) (fg : nat) :
  (∀ r l, (shuffle r l).1 ≡ₚ l) →
  wf_maze m → 3 ≤ width m → 3 ≤ height m →
  (gen_fuel (width m) (height m) ≤ fg)%nat →
  ∃ m1 r',
    generate_maze shuffle fg m r = Ok (m1, r') ∧
    Z.of_nat (count0 (maze m1))
    = 2 * ((height m - 1) `div` 2) * ((width m - 1) `div` 2) + 1 ∧
    Z.of_nat (length (carve_pushes shuffle fg (height m) (width m)
                        (carve_start (width m) (height m) r)))
    = ((height m - 1) `div` 2) * ((width m - 1) `div` 2) - 1.
Proof.
  intros Hperm Hwf Hw Hh Hfg.
  destruct (generated_shape shuffle Hperm (height m) (width m) m fg r)
    as (st & Hgen & I & Hempty & Hshape & Hcnt & Hlen); try done.
  eexists _, _. split; [exact Hgen|]. cbn [maze].
  rewrite (produced_count (height m) (width m) st Hh Hw I).
  lia.
Qed.

Lemma generated_passage_count_witness :
  ∃ m1 r',
    generate_maze rev_shuffle 50 (blank_maze 5 5) tt = Ok (m1, r') ∧
    Z.of_nat (count0 (maze m1))
    = 2 * ((height (blank_maze 5 5) - 1) `div` 2)
        * ((width (blank_maze 5 5) - 1) `div` 2) + 1 ∧
    Z.of_nat (length (carve_pushes rev_shuffle 50 (height (blank_maze 5 5))
                        (width (blank_maze 5 5))
                        (carve_start (width (blank_maze 5 5))
                           (height (blank_maze 5 5)) tt)))
    = ((height (blank_maze 5 5) - 1) `div` 2)
      * ((width (blank_maze 5 5) - 1) `div` 2) - 1.
Proof.
  apply (generated_passage_count rev_shuffle (blank_maze 5 5) tt 50).
  - intros r l. simpl. apply reverse_Permutation.
  - split; [reflexivity|]. repeat constructor.
  - simpl. lia.
  - simpl. lia.
  - vm_compute. lia.
Defined.

(** * The rendering *)

Section ImageFacts.
Implicit Types (img : image) (p q : pos) (c : colour).

Lemma pixel_Some_nonneg img p c : pixel img p = Some c → 0 ≤ p.1 ∧ 0 ≤ p.2.
Proof.
  unfold pixel. destruct (Z.leb_spec 0 p.1), (Z.leb_spec 0 p.2); by cbn.
Qed.

Lemma img_set_pixel img x y c :
  0 ≤ x → 0 ≤ y →
  img_set img x y c = match pixel img (x, y) with
                      | Some _ => Ok (img_upd img (x, y) c)
                      | None => Raise IndexError
                      end.
Proof.
  intros Hx Hy. unfold img_set, pixel, img_upd. cbn [fst snd].
  rewrite (proj2 (Z.leb_le 0 x) Hx), (proj2 (Z.leb_le 0 y) Hy).
  cbn [andb]. rewrite getitem_nonneg by done.
  destruct (img !! Z.to_nat x) as [row|] eqn:Hrow; [|done].
  cbn. rewrite setitem_nonneg by done.
  destruct (row !! Z.to_nat y) as [c0|] eqn:Hc; [|done].
  cbn. rewrite setitem_nonneg by done. rewrite Hrow.
  f_equal. apply list_eq. intros i.
  destruct (decide (i = Z.to_nat x)) as [->|Hne].
  - rewrite list_lookup_insert_eq by (by eapply lookup_lt_Some).
    by rewrite list_lookup_alter_eq, Hrow.
  - by rewrite list_lookup_insert_ne, list_lookup_alter_ne.
Qed.

Lemma pixel_upd img p q c :
  is_Some (pixel img p) →
  pixel (img_upd img p c) q = if decide (p = q) then Some c else pixel img q.
Proof.
  intros [c0 Hp]. pose proof (pixel_Some_nonneg _ _ _ Hp) as [Hp1 Hp2].
  unfold pixel in Hp.
  rewrite (proj2 (Z.leb_le 0 p.1) Hp1), (proj2 (Z.leb_le 0 p.2) Hp2) in Hp.
  cbn [andb] in Hp.
  destruct (img !! Z.to_nat p.1) as [row|] eqn:Hrow; [|done]. cbn in Hp.
  unfold pixel, img_upd.
  destruct (decide (p = q)) as [<-|Hne].
  - rewrite (proj2 (Z.leb_le 0 p.1) Hp1), (proj2 (Z.leb_le 0 p.2) Hp2).
    cbn [andb]. rewrite list_lookup_alter_eq, Hrow. cbn.
    apply list_lookup_insert_eq. by eapply lookup_lt_Some.
  - destruct (Z.leb_spec 0 q.1) as [H1|]; [|done].
    destruct (Z.leb_spec 0 q.2) as [H2|]; [|done]. cbn [andb].
    destruct (decide (Z.to_nat p.1 = Z.to_nat q.1)) as [Heq|Hd].
    + rewrite <- Heq, list_lookup_alter_eq, Hrow. cbn.
      rewrite list_lookup_insert_ne; [done|].
      intros Heq2. apply Hne. destruct p, q. cbn [fst snd] in *.
      f_equal; lia.
    + by rewrite list_lookup_alter_ne.
Qed.

Lemma wf_image_upd h w img p c : wf_image h w img → wf_image h w (img_upd img p c).
Proof.
  intros [Hlen Hrows]. split.
  - unfold img_upd. by rewrite length_alter.
  - unfold img_upd. apply Forall_alter; [done|].
    intros row Hrow Hlenrow. by rewrite length_insert.
Qed.

Lemma wf_image_pixel h w img p :
  wf_image h w img → in_bounds h w p → is_Some (pixel img p).
Proof.
  intros [Hlen Hrows] [[H1 H1'] [H2 H2']]. unfold pixel.
  rewrite (proj2 (Z.leb_le 0 p.1) H1), (proj2 (Z.leb_le 0 p.2) H2). simpl.
  destruct (lookup_lt_is_Some_2 img (Z.to_nat p.1)) as [row Hrow]; [lia|].
  rewrite Hrow. simpl. apply lookup_lt_is_Some_2.
  rewrite Forall_lookup in Hrows. rewrite (Hrows _ _ Hrow). lia.
Qed.

Lemma wf_image_pixel_inv h w img p c :
  wf_image h w img → pixel img p = Some c → in_bounds h w p.
Proof.
  intros [Hlen Hrows] Hc. pose proof (pixel_Some_nonneg _ _ _ Hc) as [H1 H2].
  unfold pixel in Hc.
  rewrite (proj2 (Z.leb_le 0 p.1) H1), (proj2 (Z.leb_le 0 p.2) H2) in Hc.
  simpl in Hc.
  destruct (img !! Z.to_nat p.1) as [row|] eqn:Hrow; simpl in Hc; [|done].
  apply lookup_lt_Some in Hc. rewrite Forall_lookup in Hrows.
  rewrite (Hrows _ _ Hrow) in Hc. apply lookup_lt_Some in Hrow.
  unfold in_bounds. lia.
Qed.

Lemma wf_zeros h w :
  wf_image h w (replicate (Z.to_nat h) (replicate (Z.to_nat w) Black)).
Proof.
  split; [apply length_replicate|].
  apply Forall_replicate, length_replicate.
Qed.

Lemma pixel_zeros h w p :
  in_bounds h w p →
  pixel (replicate (Z.to_nat h) (replicate (Z.to_nat w) Black)) p = Some Black.
Proof.
  intros [[H1 H1'] [H2 H2']]. unfold pixel.
  rewrite (proj2 (Z.leb_le 0 p.1) H1), (proj2 (Z.leb_le 0 p.2) H2).
  cbn [andb]. rewrite lookup_replicate_2 by lia. cbn.
  apply lookup_replicate_2. lia.
Qed.

Lemma shade_unknown (v : Z) : known v = false → shade v = Black.
Proof.
  unfold known, shade. rewrite !orb_false_iff.
  by intros [[[-> ->] ->] ->].
Qed.
End ImageFacts.

Section Painting.
Variables (h w : Z) (g : grid).
Hypothesis Hwf : wf_grid h w g.
Implicit Types (img : image) (p q : pos).

Lemma paint_unfold img i j :
  wf_image h w img → in_bounds h w (i, j) →
  ∃ v, cell g (i, j) = Some v ∧
       paint g i img j
       = Ok (if known v then img_upd img (i, j) (shade v) else img).
Proof.
  intros Hwi Hb. destruct (wf_grid_cell h w g (i, j) Hwf Hb) as [v Hv].
  destruct (wf_image_pixel h w img (i, j) Hwi Hb) as [c Hc].
  exists v. split; [done|]. unfold paint.
  destruct Hb as [[Hi _] [Hj _]]. cbn [fst snd] in Hi, Hj.
  rewrite grid_get_cell, Hv by done. cbn [mbind result_bind].
  unfold known, shade.
  destruct (v =? -1); [by rewrite img_set_pixel, Hc by done|].
  destruct (v =? 0); [by rewrite img_set_pixel, Hc by done|].
  destruct (v =? 2); [by rewrite img_set_pixel, Hc by done|].
  destruct (v =? 3); [by rewrite img_set_pixel, Hc by done|].
  done.
Qed.

Lemma paint_cols i (js : list Z) : ∀ img,
  wf_image h w img → blank_rest g img → 0 ≤ i < h →
  (∀ j, j ∈ js → 0 ≤ j < w) →
  ∃ img', for_each (paint g i) js img = Ok img' ∧
          wf_image h w img' ∧ blank_rest g img' ∧
          ∀ q, pixel img' q = if decide (q.1 = i ∧ q.2 ∈ js)
                              then shade <$> cell g q else pixel img q.
Proof.
  induction js as [|j js IH]; intros img Hwi Hblank Hi Hjs.
  - exists img. split_and!; try done; intros q;
      by rewrite decide_False by (intros [_ Hq]; by apply elem_of_nil in Hq).
  - assert (Hj : 0 ≤ j < w) by apply Hjs, list_elem_of_here.
    rewrite for_each_cons.
    destruct (paint_unfold img i j Hwi) as (v & Hv & Hpaint); [by split|].
    rewrite Hpaint. cbn [mbind result_bind].
    set (img1 := if known v then img_upd img (i, j) (shade v) else img).
    assert (Hpix : is_Some (pixel img (i, j))).
    { apply (wf_image_pixel h w); [done|by split]. }
    assert (Hpix1 : ∀ q, pixel img1 q
              = if decide ((i, j) = q) then Some (shade v) else pixel img q).
    { intros q. unfold img1. destruct (known v) eqn:Hk.
      - by apply pixel_upd.
      - case_decide as Hq; [|done]. subst q.
        rewrite (shade_unknown v Hk). by eapply Hblank. }
    destruct (IH img1) as (img' & Hfor & Hwi' & Hblank' & Hcell).
    { unfold img1. destruct (known v); [by apply wf_image_upd|done]. }
    { intros q v' Hq Hk. rewrite Hpix1. case_decide as Hqe; [|by eapply Hblank].
      subst q. rewrite Hv in Hq. injection Hq as <-.
      by rewrite (shade_unknown v Hk). }
    { done. }
    { intros j' Hj'. by apply Hjs, list_elem_of_further. }
    exists img'. split_and!; try done. intros q. rewrite Hcell, Hpix1.
    destruct (decide (q.1 = i ∧ q.2 ∈ js)) as [[Hq1 Hq2]|Hq].
    + rewrite decide_True; [done|]. split; [done|]. by apply list_elem_of_further.
    + destruct (decide ((i, j) = q)) as [<-|Hne].
      * rewrite decide_True by (split; [done|apply list_elem_of_here]).
        by rewrite Hv.
      * rewrite decide_False; [done|]. intros [Hq1 Hq2].
        apply elem_of_cons in Hq2 as [Hq2|Hq2].
        -- apply Hne. destruct q. cbn in *. congruence.
        -- by apply Hq.
Qed.

Lemma paint_rows (rows : list Z) : ∀ img,
  wf_image h w img → blank_rest g img → (∀ i, i ∈ rows → 0 ≤ i < h) →
  ∃ img', for_each (λ img i, for_each (paint g i) (seqZ 0 w) img) rows img
          = Ok img' ∧
          wf_image h w img' ∧ blank_rest g img' ∧
          ∀ q, pixel img' q = if decide (q.1 ∈ rows ∧ 0 ≤ q.2 < w)
                              then shade <$> cell g q else pixel img q.
Proof.
  induction rows as [|i rows IH]; intros img Hwi Hblank Hrows.
  - exists img. split_and!; try done; intros q;
      by rewrite decide_False by (intros [Hq _]; by apply elem_of_nil in Hq).
  - assert (Hi : 0 ≤ i < h) by apply Hrows, list_elem_of_here.
    rewrite for_each_cons.
    destruct (paint_cols i (seqZ 0 w) img Hwi Hblank Hi)
      as (img1 & Hfor1 & Hwi1 & Hblank1 & Hcell1).
    { intros j Hj. apply elem_of_seqZ in Hj. lia. }
    rewrite Hfor1. cbn [mbind result_bind].
    destruct (IH img1 Hwi1 Hblank1) as (img' & Hfor & Hwi' & Hblank' & Hcell).
    { intros i' Hi'. by apply Hrows, list_elem_of_further. }
    exists img'. split_and!; try done. intros q. rewrite Hcell, Hcell1.
    destruct (decide (q.1 ∈ rows ∧ 0 ≤ q.2 < w)) as [[Hq1 Hq2]|Hq].
    + rewrite decide_True; [done|]. split; [|done]. by apply list_elem_of_further.
    + destruct (decide (q.1 = i ∧ q.2 ∈ seqZ 0 w)) as [[Hq1 Hq2]|Hq'].
      * apply elem_of_seqZ in Hq2. rewrite decide_True; [done|].
        split; [|lia]. rewrite Hq1. apply list_elem_of_here.
      * rewrite decide_False; [done|]. intros [Hq1 Hq2].
        apply elem_of_cons in Hq1 as [Hq1|Hq1].
        -- apply Hq'. split; [done|]. apply elem_of_seqZ. lia.
        -- by apply Hq.
Qed.

(** The two loops of [visualize] colour every pixel after its cell. *)
Lemma paint_all :
  0 ≤ h → 0 ≤ w →
  ∃ img,
    for_each (λ img i, for_each (paint g i) (seqZ 0 w) img) (seqZ 0 h)
      (replicate (Z.to_nat h) (replicate (Z.to_nat w) Black)) = Ok img ∧
    wf_image h w img ∧
    ∀ q, in_bounds h w q → pixel img q = shade <$> cell g q.
Proof.
  intros Hh Hw.
  destruct (paint_rows (seqZ 0 h)
              (replicate (Z.to_nat h) (replicate (Z.to_nat w) Black)))
    as (img & Hfor & Hwi & _ & Hcell).
  { apply wf_zeros. }
  { intros q v Hq _. apply pixel_zeros. by eapply wf_grid_cell_inv. }
  { intros i Hi. apply elem_of_seqZ in Hi. lia. }
  exists img. split_and!; try done. intros q [Hq1 Hq2].
  rewrite Hcell. rewrite decide_True; [done|].
  split; [|done]. apply elem_of_seqZ. lia.
Qed.
End Painting.

(** [visualize] on a well-formed maze whose entrance and exit lie within
    bounds. *)
Lemma visualize_spec (m : Maze) :
  wf_maze m →
  in_bounds (height m) (width m) (start_pos m) →
  in_bounds (height m) (width m) (end_pos m) →
  ∃ img, visualize m = Done img ∧
         wf_image (height m) (width m) img ∧
         ∀ q, in_bounds (height m) (width m) q → pixel img q = shown m q.
Proof.
  intros Hwf Hs He. unfold visualize, np_zeros.
  set (h := height m) in *. set (w := width m) in *.
  assert (Hh : 0 ≤ h) by (destruct Hs as [? _]; lia).
  assert (Hw : 0 ≤ w) by (destruct Hs as [_ ?]; lia).
  rewrite (proj2 (Z.ltb_ge h 0) Hh), (proj2 (Z.ltb_ge w 0) Hw).
  cbn [orb mbind outcome_bind].
  destruct (paint_all h w (maze m) Hwf Hh Hw) as (img1 & Hfor & Hwi1 & Hpix1).
  rewrite Hfor. cbn [lift mbind outcome_bind].
  destruct (wf_image_pixel h w img1 _ Hwi1 Hs) as [c1 Hc1].
  rewrite img_set_pixel by (destruct Hs as [? ?]; lia).
  replace ((start_pos m).1, (start_pos m).2) with (start_pos m) by by destruct (start_pos m).
  rewrite Hc1. cbn [lift mbind outcome_bind].
  set (img2 := img_upd img1 (start_pos m) Red).
  assert (Hwi2 : wf_image h w img2) by by apply wf_image_upd.
  destruct (wf_image_pixel h w img2 _ Hwi2 He) as [c2 Hc2].
  rewrite img_set_pixel by (destruct He as [? ?]; lia).
  replace ((end_pos m).1, (end_pos m).2) with (end_pos m) by by destruct (end_pos m).
  rewrite Hc2. cbn [lift mbind outcome_bind].
  eexists. split; [done|]. split; [by apply wf_image_upd|].
  intros q Hq. unfold shown.
  rewrite pixel_upd by by rewrite Hc2.
  destruct (decide (end_pos m = q)) as [<-|Hne].
  { by rewrite decide_True. }
  rewrite decide_False by done. unfold img2.
  rewrite pixel_upd by by rewrite Hc1.
  destruct (decide (start_pos m = q)) as [<-|Hns].
  { by rewrite decide_True. }
  rewrite decide_False by done. by apply Hpix1.
Qed.

(** ** X13 *)

(** X13: on a well-formed maze whose entrance and exit lie within bounds,
    [visualize] shows an image of [height] rows of [width] pixels in which
    the exit is orange, the entrance is red unless it is the exit, and
    every other pixel has the colour of its cell: black for a wall, white
    for a passage, light blue for a visited cell, green for a path cell
    and black for any other value. The two markers hide whatever the
    entrance and exit cells hold, so a visited mark on the exit is never
    displayed. *)
Theorem visualize_shows (m : Maze) :
  wf_maze m →
  in_bounds (height m) (width m) (start_pos m) →
  in_bounds (height m) (width m) (end_pos m) →
  ∃ img,
    visualize m = Done img ∧
    wf_image (height m) (width m) img ∧
    pixel img (end_pos m) = Some Orange ∧
    (start_pos m ≠ end_pos m → pixel img (start_pos m) = Some Red) ∧
    ∀ q v, q ≠ start_pos m → q ≠ end_pos m → cell (maze m) q = Some v →
      pixel img q = Some (if v =? -1 then Black
                          else if v =? 0 then White
                          else if v =? 2 then LightBlue
                          else if v =? 3 then Green
                          else Black).
Proof.
  intros Hwf Hs He.
  destruct (visualize_spec m Hwf Hs He) as (img & Hvis & Hwi & Hpix).
  exists img. split_and!; try done.
  - rewrite Hpix by done. unfold shown. by rewrite decide_True.
  - intros Hne. rewrite Hpix by done. unfold shown.
    rewrite decide_False by done. by rewrite decide_True.
  - intros q v Hqs Hqe Hv. rewrite Hpix by by eapply wf_grid_cell_inv.
    unfold shown. rewrite !decide_False by done. by rewrite Hv.
Qed.

Lemma visualize_shows_witness :
  ∃ img,
    visualize demo_maze = Done img ∧
    wf_image (height demo_maze) (width demo_maze) img ∧
    pixel img (end_pos demo_maze) = Some Orange ∧
    (start_pos demo_maze ≠ end_pos demo_maze →
     pixel img (start_pos demo_maze) = Some Red) ∧
    ∀ q v, q ≠ start_pos demo_maze → q ≠ end_pos demo_maze →
      cell (maze demo_maze) q = Some v →
      pixel img q = Some (if v =? -1 then Black
                          else if v =? 0 then White
                          else if v =? 2 then LightBlue
                          else if v =? 3 then Green
                          else Black).
Proof.
  apply (visualize_shows demo_maze).
  - split; [reflexivity|]. repeat constructor.
  - unfold in_bounds. simpl. lia.
  - unfold in_bounds. simpl. lia.
Defined.

(** ** X14 *)

(** X14: [visualize] on a maze as the constructor leaves it, without
    generating. With a negative width or height it raises [ValueError]
    (from [np.zeros]). Otherwise, for a shape whose 24 bytes per pixel fit
    the size type of every numpy build (below [2 ^ 31] in all, a
    dimension of 0 left out of the product): with width or height zero it
    raises [IndexError], since the entrance marker at (0, 0) falls outside
    the empty image; with width and height at least 1 it shows an image
    that is black except for the exit marker at (height - 1, width - 1)
    and, unless this is the same pixel, the entrance marker at (0, 0). *)
Theorem visualize_fresh (w h : Z) (m : Maze) :
  __init__ w h = Ok m →
  (w < 0 ∨ h < 0 → visualize m = Failed ValueError) ∧
  (0 ≤ w → 0 ≤ h → w = 0 ∨ h = 0 → 24 * (w + h) < 2 ^ 31 →
   visualize m = Failed (Builtin IndexError)) ∧
  (1 ≤ w → 1 ≤ h → 24 * (w * h) < 2 ^ 31 →
   ∃ img, visualize m = Done img ∧
          ∀ q, in_bounds h w q →
               pixel img q = Some (if decide (q = (h - 1, w - 1)) then Orange
                                   else if decide (q = (0, 0)) then Red
                                   else Black)).
Proof.
  intros [= <-]. fold (all_walls w h). split_and!.
  - intros Hneg. unfold visualize, np_zeros. cbn [height width].
    destruct (Z.ltb_spec h 0), (Z.ltb_spec w 0); try done. lia.
  - intros Hw Hh Hzero _. unfold visualize, np_zeros. cbn [height width maze start_pos].
    rewrite (proj2 (Z.ltb_ge h 0) Hh), (proj2 (Z.ltb_ge w 0) Hw).
    cbn [orb mbind outcome_bind].
    destruct (paint_all h w (all_walls w h) (wf_all_walls w h) Hh Hw)
      as (img1 & Hfor & Hwi1 & _).
    rewrite Hfor. cbn [lift mbind outcome_bind fst snd].
    rewrite img_set_pixel by done.
    destruct (pixel img1 (0, 0)) as [c|] eqn:Hc; [|done].
    apply (wf_image_pixel_inv h w) in Hc as [H1 H2]; [|done].
    cbn [fst snd] in *. lia.
  - intros Hw Hh _.
    destruct (visualize_spec {| width := w; height := h; maze := all_walls w h;
                                start_pos := (0, 0); end_pos := (h - 1, w - 1) |})
      as (img & Hvis & _ & Hpix).
    { apply wf_all_walls. }
    { unfold in_bounds. cbn. lia. }
    { unfold in_bounds. cbn. lia. }
    exists img. split; [done|]. intros q Hq. cbn [height width] in Hpix.
    rewrite Hpix by done. unfold shown. cbn [end_pos start_pos maze].
    repeat case_decide; try done.
    by rewrite cell_all_walls.
Qed.

Lemma visualize_fresh_witness :
  (0 < 0 ∨ 5 < 0 → visualize (blank_maze 0 5) = Failed ValueError) ∧
  (0 ≤ 0 → 0 ≤ 5 → 0 = 0 ∨ 5 = 0 → 24 * (0 + 5) < 2 ^ 31 →
   visualize (blank_maze 0 5) = Failed (Builtin IndexError)) ∧
  (1 ≤ 0 → 1 ≤ 5 → 24 * (0 * 5) < 2 ^ 31 →
   ∃ img, visualize (blank_maze 0 5) = Done img ∧
          ∀ q, in_bounds 5 0 q →
               pixel img q = Some (if decide (q = (5 - 1, 0 - 1)) then Orange
                                   else if decide (q = (0, 0)) then Red
                                   else Black)).
Proof.
  apply (visualize_fresh 0 5 (blank_maze 0 5)).
  reflexivity.
Defined.

(** ** X15 *)

(** X15: [main] never fails, whatever the random source does: the 31 by
    31 maze is generated, shown, solved and shown again. The path length
    it prints is odd and at least 59. Both images are 31 by 31 with the
    entrance (0, 1) red and the exit (30, 29) orange; the first image is
    otherwise black and white only, and every green pixel of the second
    image is white in the first. *)
Theorem main_runs {rng : Type}
    (shuffle : rng → list (Z * Z) → list (Z * Z) * rng)
    (fuel : nat) (r : rng) :
  (∀ r l, (shuffle r l).1 ≡ₚ l) →
  (1922 ≤ fuel)%nat →
  ∃ img1 img2 (n k : nat),
    main shuffle fuel r = Done (img1, img2, n) ∧
    n = (59 + 2 * k)%nat ∧
    wf_image 31 31 img1 ∧ wf_image 31 31 img2 ∧
    pixel img1 (0, 1) = Some Red ∧ pixel img1 (30, 29) = Some Orange ∧
    pixel img2 (0, 1) = Some Red ∧ pixel img2 (30, 29) = Some Orange ∧
    (∀ q, in_bounds 31 31 q → q ≠ (0, 1) → q ≠ (30, 29) →
          pixel img1 q = Some Black ∨ pixel img1 q = Some White) ∧
    (∀ q, pixel img2 q = Some Green → pixel img1 q = Some White).
Proof.
  intros Hperm Hfuel. unfold main.
  change (__init__ 31 31) with (Ok (blank_maze 31 31)).
  cbn [lift mbind outcome_bind].
  assert (Hgf : gen_fuel 31 31 = 1922%nat) by (by vm_compute).
  destruct (generated_shape shuffle Hperm 31 31 (blank_maze 31 31) fuel r)
    as (st & Hgen & I & Hempty & _ & Hcnt & _);
    [done|done|apply wf_all_walls|lia|lia|lia|].
  rewrite Hgen. cbn [lift mbind outcome_bind fst].
  set (m1 := {| width := 31; height := 31; maze := open_ends 31 31 (g_maze st);
                start_pos := (0, 1); end_pos := (31 - 1, 31 - 2) |}).
  assert (H3 : 3 ≤ 31) by lia.
  assert (Hwf1 : wf_maze m1) by (by apply (produced_wf 31 31 st)).
  destruct (visualize_spec m1 Hwf1) as (img1 & Hvis1 & Hwi1 & Hpix1).
  { unfold in_bounds. cbn. lia. }
  { unfold in_bounds. cbn. lia. }
  rewrite Hvis1. cbn [mbind outcome_bind].
  assert (Hsf : (solve_fuel m1 ≤ fuel)%nat).
  { unfold solve_fuel. cbn [maze m1].
    rewrite (produced_count 31 31 st H3 H3 I).
    change ((31 - 1) `div` 2) with 15 in Hcnt. lia. }
  destruct (solve_spec m1 fuel Hwf1 Hsf) as (bst & lv & open & m2 & path & S).
  rewrite (sol_result S). cbn [lift mbind outcome_bind fst snd].
  pose proof (sol_frame S) as (Hw2 & Hh2 & Hs2 & He2).
  cbn [m1 width height start_pos end_pos] in Hw2, Hh2, Hs2, He2.
  destruct (visualize_spec m2 (sol_wf S)) as (img2 & Hvis2 & Hwi2 & Hpix2).
  { rewrite Hw2, Hh2, Hs2. unfold in_bounds. cbn. lia. }
  { rewrite Hw2, Hh2, He2. unfold in_bounds. cbn. lia. }
  rewrite Hvis2. cbn [mbind outcome_bind].
  rewrite Hw2, Hh2 in Hwi2, Hpix2. cbn [m1 width height] in Hwi1, Hpix1.
  assert (He : is_Some (b_visited bst !! end_pos m1)).
  { apply (solved_found_iff S).
    apply (produced_route 31 31 st H3 H3 I Hempty); by exists 15. }
  destruct (solved_route S He) as [(Hhd & Hlast & Hlink & _) _].
  destruct path as [|a path]; [done|]. injection Hhd as ->.
  destruct (linked_manhattan path _ _ Hlink Hlast) as [k Hk].
  assert (Hman : manhattan (0, 1) (end_pos m1) = 58) by done.
  rewrite Hman in Hk.
  assert (Hshown1 : ∀ q, in_bounds 31 31 q → q ≠ (0, 1) → q ≠ (30, 29) →
            pixel img1 q = shade <$> cell (maze m1) q).
  { intros q Hq Hqs Hqe. rewrite Hpix1 by done. unfold shown.
    by rewrite !decide_False by done. }
  exists img1, img2, (length (start_pos m1 :: path)), k.
  split_and!.
  - reflexivity.
  - cbn [length]. lia.
  - exact Hwi1.
  - exact Hwi2.
  - rewrite Hpix1 by (unfold in_bounds; cbn; lia). unfold shown.
    rewrite decide_False by done. by rewrite decide_True.
  - rewrite Hpix1 by (unfold in_bounds; cbn; lia). unfold shown.
    by rewrite decide_True.
  - rewrite Hpix2 by (unfold in_bounds; cbn; lia). unfold shown.
    rewrite He2, Hs2. rewrite decide_False by done. by rewrite decide_True.
  - rewrite Hpix2 by (unfold in_bounds; cbn; lia). unfold shown.
    rewrite He2. by rewrite decide_True.
  - intros q Hq Hqs Hqe. rewrite Hshown1 by done.
    destruct (wf_grid_cell 31 31 (maze m1) q Hwf1 Hq) as [v Hv]. rewrite Hv.
    destruct (produced_values 31 31 st H3 H3 I q v Hv) as [-> | ->];
      [by left|by right].
  - intros q Hg.
    assert (Hq : in_bounds 31 31 q) by by eapply wf_image_pixel_inv.
    rewrite Hpix2 in Hg by done. unfold shown in Hg. rewrite He2, Hs2 in Hg.
    destruct (decide (q = (31 - 1, 31 - 2))) as [->|Hqe]; [done|].
    destruct (decide (q = (0, 1))) as [->|Hqs]; [done|].
    rewrite Hshown1 by done.
    destruct (cell (maze m2) q) as [v2|] eqn:Hv2; [|done].
    destruct (wf_grid_cell 31 31 (maze m1) q Hwf1 Hq) as [v Hv].
    destruct (solved_cell_cases S q) as [Heq|[H0 _]].
    + rewrite Hv2, Hv in Heq. injection Heq as ->.
      destruct (produced_values 31 31 st H3 H3 I q v Hv) as [-> | ->]; done.
    + by rewrite H0.
Qed.

Lemma main_runs_witness :
  ∃ img1 img2 (n k : nat),
    main id_shuffle 1922 tt = Done (img1, img2, n) ∧
    n = (59 + 2 * k)%nat ∧
    wf_image 31 31 img1 ∧ wf_image 31 31 img2 ∧
    pixel img1 (0, 1) = Some Red ∧ pixel img1 (30, 29) = Some Orange ∧
    pixel img2 (0, 1) = Some Red ∧ pixel img2 (30, 29) = Some Orange ∧
    (∀ q, in_bounds 31 31 q → q ≠ (0, 1) → q ≠ (30, 29) →
          pixel img1 q = Some Black ∨ pixel img1 q = Some White) ∧
    (∀ q, pixel img2 q = Some Green → pixel img1 q = Some White).
Proof.
  apply (main_runs id_shuffle 1922 tt).
  - intros r l. reflexivity.
  - lia.
Defined.

(** ** X16 *)

(** X16: for every maze produced by [generate_maze] on a maze of odd
    width and height, both at least 3, [solve_sequential] returns a
    non-empty path whose first position is the entrance and last position
    is the exit, in which every consecutive pair is 4-adjacent, every
    position was a passage of the generated maze and no position is a wall
    afterwards. *)
Theorem generated_odd_maze_solved {rng : Type}
    (shuffle : rng → list (Z * Z) → list (Z * Z) * rng)
    (m : Maze) (r : rng) (fg : nat) :
  (∀ r l, (shuffle r l).1 ≡ₚ l) →
  wf_maze m → 3 ≤ width m → 3 ≤ height m →
  Z.Odd (width m) → Z.Odd (height m) →
  (gen_fuel (width m) (height m) ≤ fg)%nat →
  ∃ m1 r',
    generate_maze shuffle fg m r = Ok (m1, r') ∧
    ∀ fs, (solve_fuel m1 ≤ fs)%nat →
      ∃ m2 path,
        solve_sequential fs m1 = Ok (m2, path) ∧
        path ≠ [] ∧
        head path = Some (start_pos m1) ∧ last path = Some (end_pos m1) ∧
        linked path ∧
        Forall (λ p, cell (maze m1) p = Some Passage) path ∧
        Forall (λ p, ∃ v, cell (maze m2) p = Some v ∧ v ≠ Wall) path.
Proof.
  intros Hperm Hwf Hw Hh Hwo Hho Hfg.
  destruct (generated_solved shuffle Hperm m r fg Hwf Hw Hh Hfg 0)
    as (st & m1 & Hgen & I & Hempty & Hw1 & Hh1 & Hs1 & He1 & Hg1 & Hwf1 & _).
  exists m1, (g_rng st). split; [done|]. intros fs Hfs.
  destruct (generated_solved shuffle Hperm m r fg Hwf Hw Hh Hfg fs)
    as (st' & m1' & Hgen' & _ & _ & _ & _ & _ & _ & _ & _ & Hsol).
  rewrite Hgen in Hgen'. injection Hgen' as <- _.
  destruct (Hsol Hfs) as (bst & lv & open & m2 & path & S & Hodd & _).
  exists m2, path. split; [apply S|].
  specialize (Hodd Hwo Hho).
  destruct (solved_route S Hodd) as [(Hhd & Hlast & Hlink & Hpass) Hlen].
  assert (Hcells : Forall (λ p, cell (maze m1) p = Some Passage) path).
  { destruct path as [|a path]; [done|]. injection Hhd as ->.
    apply Forall_cons. split.
    - rewrite Hs1, Hg1, produced_cell by done. by repeat case_decide.
    - eapply Forall_impl; [exact Hpass|]. by intros p [_ Hp]. }
  split_and!; try done.
  - by destruct path.
  - eapply Forall_impl; [exact Hcells|]. intros p Hp. cbn beta in *.
    destruct (solved_cell_cases S p) as [Heq|[_ [Hv|Hv]]].
    + exists Passage. by rewrite Heq.
    + by exists Visited.
    + by exists OnPath.
Qed.

Lemma generated_odd_maze_solved_witness :
  ∃ m1 r',
    generate_maze id_shuffle 18 (blank_maze 3 3) tt = Ok (m1, r') ∧
    ∀ fs, (solve_fuel m1 ≤ fs)%nat →
      ∃ m2 path,
        solve_sequential fs m1 = Ok (m2, path) ∧
        path ≠ [] ∧
        head path = Some (start_pos m1) ∧ last path = Some (end_pos m1) ∧
        linked path ∧
        Forall (λ p, cell (maze m1) p = Some Passage) path ∧
        Forall (λ p, ∃ v, cell (maze m2) p = Some v ∧ v ≠ Wall) path.
Proof.
  apply (generated_odd_maze_solved id_shuffle (blank_maze 3 3) tt 18).
  - intros r l. reflexivity.
  - split; [reflexivity|]. repeat constructor.
  - simpl. lia.
  - simpl. lia.
  - by exists 1.
  - by exists 1.
  - vm_compute. lia.
Defined.
